(** * pyglet: glyph strings, displayable text and the text caret

    A shallow embedding of [pyglet/font/__init__.py] (classes [GlyphString]
    and [Text], functions [load], [add_file] and [add_directory]) and of
    [pyglet/text/caret.py] (class [Caret]), followed by the properties
    established about them.

    Conventions of the embedding.
    - A character is its Unicode code point ([N]); a text is a list of them.
    - Pixel quantities (advances, pen positions, widths, coordinates) are
      Python numbers, integers or floats. The classes are embedded with
      integers ([Z]), whose arithmetic is exact. What [GlyphString]
      computes from its numbers (the table of cumulative advances, the
      vertex array, the break search and the width of a slice) is embedded
      a second time over any numbers (class [Number], module [Numeric]),
      with the integers and the IEEE doubles as instances; what is stated
      about widths is stated there, for every arithmetic or under the
      laws of arithmetic that it needs.
    - Indices handed to a method are non-negative ([nat]); the subscript
      expressions the code computes from them ([to_index - 1], ...) are
      integers and go through [getitem], which follows Python's list
      subscript, negative wrap-around and [IndexError] included.
    - A Python exception is a [Raise] result.
    - The font, the layout with its document, the clock and OpenGL are not
      part of these files: what they answer is a class of queries, what is
      asked of them is a log of calls. Readings of [time.time()] are
      rationals handed to the handler that takes them. *)

From Stdlib Require Import ZArith NArith List Lia Bool QArith Sorted.
From Stdlib Require String PrimFloat Uint63.
Import ListNotations.
Import String.StringSyntax.
Delimit Scope string_scope with string.
Local Open Scope Z_scope.

(** ** Python values and exceptions *)

Inductive exc : Type :=
| IndexError
| TypeError
| AttributeError
| ValueError
| Unfinished.   (* a loop of the model used up its iteration bound *)

Inductive result (A : Type) : Type :=
| Ok (a : A)
| Raise (e : exc).
Arguments Ok {A} a.
Arguments Raise {A} e.

Definition rbind {A B : Type} (r : result A) (k : A -> result B) : result B :=
  match r with
  | Ok a => k a
  | Raise e => Raise e
  end.

Declare Scope py_scope.
Delimit Scope py_scope with py.
Notation "'let?' x ':=' r 'in' k" := (rbind r (fun x => k))
  (at level 10, x name, r at level 100, k at level 200) : py_scope.
Local Open Scope py_scope.

Definition char : Type := N.
Definition text_t : Type := list char.

Definition NEWLINE : char := 10%N.      (* '\n' *)
Definition CR : char := 13%N.           (* '\r' *)
Definition SPACE : char := 32%N.        (* u'\u0020' *)
Definition ZWSP : char := 8203%N.       (* u'\u200b' *)

(** [l[i]] for a Python list: an index in [-len, len) selects an element,
    the negative ones counting from the end; anything else is IndexError. *)
Definition getitem {A : Type} (l : list A) (i : Z) : result A :=
  let n := Z.of_nat (length l) in
  let j := if i <? 0 then i + n else i in
  if (0 <=? j) && (j <? n)
  then match nth_error l (Z.to_nat j) with
       | Some a => Ok a
       | None => Raise IndexError
       end
  else Raise IndexError.

(** [bool(n)] for a Python integer. *)
Definition truthy (n : nat) : bool := negb (Nat.eqb n 0).

(** Methods that change their object run in a state monad whose result may
    be an exception; what was assigned before a [raise] stays assigned. *)
Definition prog (S A : Type) : Type := S -> result A * S.

Definition ret {S A : Type} (a : A) : prog S A := fun s => (Ok a, s).

Definition bind {S A B : Type} (m : prog S A) (k : A -> prog S B) : prog S B :=
  fun s => match m s with
           | (Ok a, s') => k a s'
           | (Raise e, s') => (Raise e, s')
           end.

Definition get {S : Type} : prog S S := fun s => (Ok s, s).
Definition put {S : Type} (s : S) : prog S unit := fun _ => (Ok tt, s).
Definition modify {S : Type} (f : S -> S) : prog S unit := fun s => (Ok tt, f s).
Definition gets {S A : Type} (f : S -> A) : prog S A := fun s => (Ok (f s), s).
Definition lift {S A : Type} (r : result A) : prog S A := fun s => (r, s).
Definition when {S : Type} (b : bool) (m : prog S unit) : prog S unit :=
  if b then m else ret tt.

(** [m] never stops at the iteration bound of one of the model's loops. *)
Definition finishes {S A : Type} (m : prog S A) : Prop :=
  forall s, fst (m s) <> Raise Unfinished.

Notation "x <- m ;; k" := (bind m (fun x => k))
  (at level 61, m at next level, right associativity) : py_scope.
Notation "m ;; k" := (bind m (fun _ => k))
  (at level 61, right associativity) : py_scope.

(** ** pyglet.font *)

Module GlyphString.

(** A texture is identified by a handle; [owner] may be any Python value,
    [None] included. *)
Definition Texture : Type := nat.

(** What reaches the collaborators of this module: the font that shapes
    the text, and OpenGL. *)
Inductive event : Type :=
| get_glyphs_call (text : text_t)
| apply_blend_state (texture : Texture)
| glPushAttrib
| glEnable_TEXTURE_2D
| glColor4f (color : Z * Z * Z * Z)
| glPushMatrix
| glTranslatef (x y z : Z)
| glPushClientAttrib
| glInterleavedArrays (array : list Z)
| glBindTexture (texture : Texture)
| glDrawArrays (first count : Z)
| glPopClientAttrib
| glPopMatrix
| glPopAttrib.

Definition gl (e : event) : prog (list event) unit :=
  modify (fun log => log ++ [e]).

Definition is_get_glyphs (e : event) : bool :=
  match e with
  | get_glyphs_call _ => true
  | _ => false
  end.

(** Glyphs and glyph strings whose numbers are integers. [array] holds
    the numbers of [lst], which integers stand for as long as a C float
    holds them exactly; their conversion is [Numeric.array]. *)
Record Glyph : Type := mkGlyph {
  advance : Z;
  vertices : Z * Z * Z * Z;
  tex_coords : (Z * Z) * (Z * Z) * (Z * Z) * (Z * Z);
  owner : option Texture
}.

Definition owner_eqb (a b : option Texture) : bool :=
  match a, b with
  | Some s, Some t => Nat.eqb s t
  | None, None => true
  | _, _ => false
  end.

Definition state : Type := nat * nat * option Texture.

Record t : Type := mkGlyphString {
  text : text_t;
  states : list state;
  cumulative_advance : list Z;
  array : list Z;
  width : Z
}.

(** The local variables of [__init__] while it walks the glyphs. *)
Record locals : Type := mkLocals {
  lst : list Z;
  texture : option Texture;
  l_states : list state;
  l_cumulative_advance : list Z;
  state_from : nat;
  state_length : nat;
  x : Z
}.

Definition quad (x y : Z) (glyph : Glyph) : list Z :=
  let '(v0, v1, v2, v3) := vertices glyph in
  let '(t0, t1, t2, t3) := tex_coords glyph in
  [fst t0; snd t0; x + v0; y + v1; 0;
   fst t1; snd t1; x + v2; y + v1; 0;
   fst t2; snd t2; x + v2; y + v3; 0;
   fst t3; snd t3; x + v0; y + v3; 0].

(** One turn of [for i, glyph in enumerate(glyphs)]. *)
Definition init_body (y : Z) (i : nat) (glyph : Glyph) (s : locals) : locals :=
  let s1 :=
    if negb (owner_eqb (owner glyph) (texture s)) then
      mkLocals (lst s) (owner glyph)
        (if truthy (state_length s)
         then l_states s ++ [(state_from s, state_length s, texture s)]
         else l_states s)
        (l_cumulative_advance s) i 0%nat (x s)
    else s in
  let x' := x s1 + advance glyph in
  mkLocals (lst s1 ++ quad (x s1) y glyph) (texture s1) (l_states s1)
    (l_cumulative_advance s1 ++ [x']) (state_from s1)
    (state_length s1 + 1)%nat x'.

Fixpoint init_loop (y : Z) (i : nat) (glyphs : list Glyph) (s : locals) : locals :=
  match glyphs with
  | [] => s
  | glyph :: rest => init_loop y (S i) rest (init_body y i glyph s)
  end.

(** [GlyphString.__init__(self, text, glyphs, x=0, y=0)] *)
Definition __init__ (text : text_t) (glyphs : list Glyph) (x y : Z) : t :=
  let s := init_loop y 0%nat glyphs (mkLocals [] None [] [] 0%nat 0%nat x) in
  mkGlyphString text
    (l_states s ++ [(state_from s, state_length s, texture s)])
    (l_cumulative_advance s)
    (lst s)
    (GlyphString.x s).

Definition is_space (c : char) : bool := N.eqb c SPACE || N.eqb c ZWSP.

(** The loop of [get_break_index] over
    [enumerate(zip(text[from_index:], cumulative_advance[from_index:]))],
    entered at offset [i]. *)
Fixpoint break_loop (from_index : nat) (width : Z) (to_index i : nat)
    (l : list (char * Z)) : nat :=
  match l with
  | [] => to_index
  | (c, w) :: rest =>
      if width <? w then to_index
      else if N.eqb c NEWLINE then (i + from_index + 1)%nat
      else if is_space c
           then break_loop from_index width (i + from_index + 1)%nat (S i) rest
           else break_loop from_index width to_index (S i) rest
  end.

(** [GlyphString.get_break_index(self, from_index, width)] *)
Definition get_break_index (self : t) (from_index : nat) (width : Z) : result nat :=
  let to_index := from_index in
  if (length (text self) <=? from_index)%nat then Ok from_index
  else
    let? width :=
      (if truthy from_index
       then let? c := getitem (cumulative_advance self) (Z.of_nat from_index - 1) in
            Ok (width + c)
       else Ok width) in
    Ok (break_loop from_index width to_index 0%nat
          (combine (skipn from_index (text self))
                   (skipn from_index (cumulative_advance self)))).

(** [GlyphString.get_subwidth(self, from_index, to_index)] *)
Definition get_subwidth (self : t) (from_index to_index : nat) : result Z :=
  let? width := getitem (cumulative_advance self) (Z.of_nat to_index - 1) in
  if truthy from_index
  then let? c := getitem (cumulative_advance self) (Z.of_nat from_index - 1) in
       Ok (width - c)
  else Ok width.

(** The loop [for state_from, state_length, texture in self.states] of
    [draw]; [continue] goes on with the rest, [break] leaves. *)
Fixpoint draw_states (from_index : nat) (to_index : Z) (l : list state)
    : prog (list event) unit :=
  match l with
  | [] => ret tt
  | (state_from, state_length, texture) :: rest =>
      if (state_from + state_length <? from_index)%nat
      then draw_states from_index to_index rest
      else
        let state_from := Nat.max state_from from_index in
        let state_length := Z.min (Z.of_nat state_length)
                                  (to_index - Z.of_nat state_from) in
        if state_length <=? 0 then ret tt
        else
          match texture with
          | None => lift (Raise AttributeError)
          | Some id =>
              gl (glBindTexture id) ;;
              gl (glDrawArrays (Z.of_nat state_from * 4) (state_length * 4)) ;;
              draw_states from_index to_index rest
          end
  end.

(** [GlyphString.draw(self, from_index=0, to_index=None)] *)
Definition draw (self : t) (from_index : nat) (to_index : option nat)
    : prog (list event) unit :=
  if (length (text self) <=? from_index)%nat
     || match to_index with
        | Some n => Nat.eqb from_index n
        | None => false
        end
     || Nat.eqb (length (text self)) 0
  then ret tt
  else
    st0 <- lift (getitem (states self) 0) ;;
    match snd st0 with
    | None => lift (Raise AttributeError)
    | Some tex => gl (apply_blend_state tex)
    end ;;
    when (truthy from_index)
      (gl glPushMatrix ;;
       c <- lift (getitem (cumulative_advance self) (Z.of_nat from_index - 1)) ;;
       gl (glTranslatef (- c) 0 0)) ;;
    let to_index := match to_index with
                    | Some n => n
                    | None => length (text self)
                    end in
    gl glPushClientAttrib ;;
    gl (glInterleavedArrays (array self)) ;;
    draw_states from_index (Z.of_nat to_index) (states self) ;;
    gl glPopClientAttrib ;;
    when (truthy from_index) (gl glPopMatrix).

(** *** Vocabulary of the statements about glyph strings *)

(** The pen positions after each advance, starting from [x]. *)
Fixpoint running (x : Z) (advances : list Z) : list Z :=
  match advances with
  | [] => []
  | a :: rest => (x + a) :: running (x + a) rest
  end.

Definition nondecreasing (l : list Z) : Prop :=
  forall i j a b, (i <= j)%nat ->
    nth_error l i = Some a -> nth_error l j = Some b -> a <= b.

(** [tiles a runs b]: the runs follow one another from glyph [a] up to
    glyph [b], each starting where the one before it stops. *)
Inductive tiles : nat -> list state -> nat -> Prop :=
| tiles_nil a : tiles a [] a
| tiles_cons a n tex rest b :
    tiles (a + n) rest b -> tiles a ((a, n, tex) :: rest) b.

(** The glyph indices of a run. *)
Definition run_glyphs (st : state) : list nat :=
  let '(from, len, _) := st in seq from len.

Definition run_start (st : state) : nat := fst (fst st).
Definition run_length (st : state) : nat := snd (fst st).

Definition is_break (c : char) : bool := N.eqb c NEWLINE || is_space c.

(** What [get_break_index] and [get_subwidth] take off a cumulative
    advance to measure from [from_index]: [cumulative_advance[from_index-1]],
    or nothing when [from_index] is 0. *)
Definition base (self : t) (from_index : nat) : result Z :=
  if truthy from_index
  then getitem (cumulative_advance self) (Z.of_nat from_index - 1)
  else Ok 0.

(** The characters paired with their cumulative advances, from
    [from_index] on. *)
Definition zipped (self : t) (from_index : nat) : list (char * Z) :=
  combine (skipn from_index (text self))
          (skipn from_index (cumulative_advance self)).

(** No pair of [l] up to offset [k] is beyond [limit]. *)
Definition within (limit : Z) (l : list (char * Z)) (k : nat) : Prop :=
  forall m c w, (m <= k)%nat -> nth_error l m = Some (c, w) -> w <= limit.

(** How the loop of [get_break_index] can end when it is entered at
    offset [i] with [to_index]: without a break among the pairs it went
    through, or with the break it chose, at offset [k]. *)
Inductive outcome (from_index : nat) (limit : Z) (l : list (char * Z))
    (to_index i r : nat) : Prop :=
| no_break :
    r = to_index ->
    (forall k c w, nth_error l k = Some (c, w) -> within limit l k ->
                   is_break c = false) ->
    outcome from_index limit l to_index i r
| break_at (k : nat) (c : char) (w : Z) :
    nth_error l k = Some (c, w) ->
    within limit l k ->
    is_break c = true ->
    r = (i + k + from_index + 1)%nat ->
    (forall m c' w', (m < k)%nat -> nth_error l m = Some (c', w') ->
                     c' <> NEWLINE) ->
    (c <> NEWLINE ->
     forall m c' w', (k < m)%nat -> nth_error l m = Some (c', w') ->
                     within limit l m -> is_break c' = false) ->
    outcome from_index limit l to_index i r.

(** What the loop of [__init__] keeps true of the runs closed so far and
    of the open one. *)
Definition runs_inv (i : nat) (s : locals) : Prop :=
  tiles 0 (l_states s) (state_from s)
  /\ (state_from s + state_length s = i)%nat
  /\ Forall (fun st => (0 < run_length st)%nat) (l_states s).

(** [m] only adds calls to the log, none of them to the font. *)
Definition emits {A : Type} (m : prog (list event) A) : Prop :=
  exists r g, (forall log, m log = (r, log ++ g))
              /\ Forall (fun e => is_get_glyphs e = false) g.

(** *** Sample glyph strings *)

Definition AB : t :=
  __init__ [65; 66]%N
    [mkGlyph 10 (0, 0, 8, 12) ((0, 0), (1, 0), (1, 1), (0, 1)) (Some 7%nat);
     mkGlyph 12 (0, 0, 9, 12) ((1, 0), (2, 0), (2, 1), (1, 1)) (Some 7%nat)]
    0 0.

Definition hello_world : t :=
  __init__ [104; 101; 108; 108; 111; 32; 119; 111; 114; 108; 100]%N
    (repeat (mkGlyph 10 (0, 0, 8, 12) ((0, 0), (1, 0), (1, 1), (0, 1))
                     (Some 7%nat)) 11)
    0 0.

Definition ab : t :=
  __init__ [97; 98]%N
    (repeat (mkGlyph 10 (0, 0, 8, 12) ((0, 0), (1, 0), (1, 1), (0, 1))
                     (Some 7%nat)) 2)
    0 0.

(** *** Vocabulary of further statements about glyph strings *)

(** The sum of a list of advances. *)
Definition total (advances : list Z) : Z := fold_right Z.add 0 advances.

(** [l[a:b]] for indices within the list. *)
Definition slice {A : Type} (l : list A) (a b : nat) : list A :=
  firstn (b - a) (skipn a l).

Definition run_texture (st : state) : option Texture := snd st.

(** The glyph ranges that a log of OpenGL calls draws, as pairs of the
    first vertex and the number of vertices. *)
Fixpoint drawn (log : list event) : list (Z * Z) :=
  match log with
  | [] => []
  | glDrawArrays first count :: rest => (first, count) :: drawn rest
  | _ :: rest => drawn rest
  end.

(** How many more matrices a log pushes than it pops, and the same for the
    client attributes. *)
Fixpoint matrix_depth (log : list event) : Z :=
  match log with
  | [] => 0
  | glPushMatrix :: rest => 1 + matrix_depth rest
  | glPopMatrix :: rest => -1 + matrix_depth rest
  | _ :: rest => matrix_depth rest
  end.

Fixpoint client_depth (log : list event) : Z :=
  match log with
  | [] => 0
  | glPushClientAttrib :: rest => 1 + client_depth rest
  | glPopClientAttrib :: rest => -1 + client_depth rest
  | _ :: rest => client_depth rest
  end.

(** Every glyph of the run is on the texture of the run. *)
Definition run_owned (glyphs : list Glyph) (st : state) : Prop :=
  forall k g, (run_start st <= k < run_start st + run_length st)%nat ->
    nth_error glyphs k = Some g -> owner g = run_texture st.

(** No two neighbours of the list are equal. *)
Definition adjacent_differ {A : Type} (l : list A) : Prop :=
  forall j a b, nth_error l j = Some a -> nth_error l (S j) = Some b -> a <> b.

(** What the loop of [__init__] keeps true of the textures, [done] being
    the glyphs it has gone through. *)
Definition textures_inv (done : list Glyph) (s : locals) : Prop :=
  (state_from s + state_length s = length done)%nat
  /\ Forall (fun st => run_owned done st
                       /\ (run_start st + run_length st <= state_from s)%nat)
            (l_states s)
  /\ (forall k g, (state_from s <= k)%nat -> nth_error done k = Some g ->
                  owner g = texture s)
  /\ adjacent_differ (map run_texture (l_states s) ++ [texture s])
  /\ (state_length s = 0%nat -> l_states s = []).

(** The quad of each glyph, at the pen position it is given. *)
Definition quads (y : Z) (placed : list (Z * Glyph)) : list (list Z) :=
  map (fun p => quad (fst p) y (snd p)) placed.

(** A drawn range of vertices lies within the glyphs [from_index] up to
    [to_index], four vertices to the glyph, and is not empty. *)
Definition in_range (from_index to_index : nat) (range : Z * Z) : Prop :=
  4 * Z.of_nat from_index <= fst range
  /\ 0 < snd range
  /\ fst range + snd range <= 4 * Z.of_nat to_index.

(** The vertices of glyph [k] are in one of the ranges. *)
Definition covered (ranges : list (Z * Z)) (k : nat) : Prop :=
  exists first count, In (first, count) ranges
    /\ first <= 4 * Z.of_nat k /\ 4 * Z.of_nat k + 4 <= first + count.

(** Glyphs on three textures: "abc" on 1, 1 and 2, "d" on 3. *)
Definition abcd_glyphs : list Glyph :=
  [mkGlyph 10 (0, 0, 8, 12) ((0, 0), (1, 0), (1, 1), (0, 1)) (Some 1%nat);
   mkGlyph 11 (1, 0, 9, 12) ((1, 0), (2, 0), (2, 1), (1, 1)) (Some 1%nat);
   mkGlyph 12 (0, 0, 8, 12) ((0, 0), (1, 0), (1, 1), (0, 1)) (Some 2%nat);
   mkGlyph 13 (0, 0, 8, 12) ((0, 0), (1, 0), (1, 1), (0, 1)) (Some 3%nat)].

Definition abcd : t := __init__ [97; 98; 99; 100]%N abcd_glyphs 5 0.

End GlyphString.


(** The font a [Text] is rendered in (pyglet.font.base.Font), as far as
    [Text] uses it. *)
Class Font : Type := {
  get_glyphs : text_t -> list GlyphString.Glyph;
  ascent : Z;
  descent : Z
}.

Module Text.

Import GlyphString.

(** The alignment constants of the class; [CENTER] serves both axes. *)
Inductive align : Type := LEFT | CENTER | RIGHT | BOTTOM | BASELINE | TOP.

Definition align_eqb (a b : align) : bool :=
  match a, b with
  | LEFT, LEFT | CENTER, CENTER | RIGHT, RIGHT
  | BOTTOM, BOTTOM | BASELINE, BASELINE | TOP, TOP => true
  | _, _ => false
  end.

(** The attributes of a [Text]. Those that only [_clean] assigns are
    absent ([None]) until it has. *)
Record t : Type := mkText {
  _layout_width : option Z;
  _text_width : Z;
  _text_height : Z;
  _dirty : bool;
  _halign : align;
  _valign : align;
  _text : text_t;
  color : Z * Z * Z * Z;
  x : Z;
  y : Z;
  leading : Z;
  _glyph_string : option GlyphString.t;
  lines : option (list (nat * nat));
  line_height : option Z
}.

(** A Text together with the calls it has made so far. *)
Definition world : Type := t * list event.

Definition M : Type -> Type := prog world.

Definition self : M t := gets fst.
Definition assign (f : t -> t) : M unit := modify (fun w => (f (fst w), snd w)).
Definition call {A : Type} (m : prog (list event) A) : M A :=
  fun w => let '(r, log) := m (snd w) in (r, (fst w, log)).
Definition attr {A : Type} (o : option A) : M A :=
  match o with
  | Some a => ret a
  | None => lift (Raise AttributeError)
  end.

Definition set_layout_width v s := mkText v (_text_width s) (_text_height s) (_dirty s) (_halign s) (_valign s) (_text s) (color s) (x s) (y s) (leading s) (_glyph_string s) (lines s) (line_height s).
Definition set_text_width v s := mkText (_layout_width s) v (_text_height s) (_dirty s) (_halign s) (_valign s) (_text s) (color s) (x s) (y s) (leading s) (_glyph_string s) (lines s) (line_height s).
Definition set_text_height v s := mkText (_layout_width s) (_text_width s) v (_dirty s) (_halign s) (_valign s) (_text s) (color s) (x s) (y s) (leading s) (_glyph_string s) (lines s) (line_height s).
Definition set_dirty v s := mkText (_layout_width s) (_text_width s) (_text_height s) v (_halign s) (_valign s) (_text s) (color s) (x s) (y s) (leading s) (_glyph_string s) (lines s) (line_height s).
Definition set_halign v s := mkText (_layout_width s) (_text_width s) (_text_height s) (_dirty s) v (_valign s) (_text s) (color s) (x s) (y s) (leading s) (_glyph_string s) (lines s) (line_height s).
Definition set_valign v s := mkText (_layout_width s) (_text_width s) (_text_height s) (_dirty s) (_halign s) v (_text s) (color s) (x s) (y s) (leading s) (_glyph_string s) (lines s) (line_height s).
Definition set_text v s := mkText (_layout_width s) (_text_width s) (_text_height s) (_dirty s) (_halign s) (_valign s) v (color s) (x s) (y s) (leading s) (_glyph_string s) (lines s) (line_height s).
Definition set_glyph_string v s := mkText (_layout_width s) (_text_width s) (_text_height s) (_dirty s) (_halign s) (_valign s) (_text s) (color s) (x s) (y s) (leading s) v (lines s) (line_height s).
Definition set_lines v s := mkText (_layout_width s) (_text_width s) (_text_height s) (_dirty s) (_halign s) (_valign s) (_text s) (color s) (x s) (y s) (leading s) (_glyph_string s) v (line_height s).
Definition set_line_height v s := mkText (_layout_width s) (_text_width s) (_text_height s) (_dirty s) (_halign s) (_valign s) (_text s) (color s) (x s) (y s) (leading s) (_glyph_string s) (lines s) v.

(** [Text.__init__(self, font, text='', x=0, y=0, z=0, color=(1,1,1,1),
    width=None, halign=LEFT, valign=BASELINE)]; [z] is not kept. *)
Definition __init__ (text : text_t) (x y : Z) (color : Z * Z * Z * Z)
    (width : option Z) (halign valign : align) : t :=
  mkText width 0 0 true halign valign text color x y 0 None None None.

(** [self.lines.append(line)] *)
Definition lines_append (line : nat * nat) : M unit :=
  s <- self ;;
  ls <- attr (lines s) ;;
  assign (set_lines (Some (ls ++ [line]))).

Fixpoint index_from (c : char) (l : text_t) : option nat :=
  match l with
  | [] => None
  | a :: rest => if N.eqb a c then Some 0%nat
                 else option_map S (index_from c rest)
  end.

(** [text.index(c, i)] *)
Definition str_index (text : text_t) (c : char) (i : nat) : result nat :=
  match index_from c (skipn i text) with
  | Some k => Ok (i + k)%nat
  | None => Raise ValueError
  end.

(** [self._text_width = max(self._text_width,
                            self._glyph_string.get_subwidth(i, end))] *)
Definition widen (i e : nat) : M unit :=
  s <- self ;;
  gs <- attr (_glyph_string s) ;;
  w <- lift (get_subwidth gs i e) ;;
  assign (set_text_width (Z.max (_text_width s) w)).

(** [while '\n' in text[i:]: ...]; yields the final [i]. *)
Fixpoint newline_loop (fuel : nat) (text : text_t) (i : nat) : M nat :=
  if existsb (N.eqb NEWLINE) (skipn i text) then
    match fuel with
    | O => lift (Raise Unfinished)
    | S fuel =>
        e <- lift (str_index text NEWLINE i) ;;
        lines_append (i, e) ;;
        widen i e ;;
        newline_loop fuel text (e + 1)%nat
    end
  else ret i.

(** [while i < len(text) and bp > i: ...]; yields the final [i]. *)
Fixpoint wrap_loop (fuel : nat) (text : text_t) (width : Z) (i bp : nat) : M nat :=
  if (i <? length text)%nat && (i <? bp)%nat then
    match fuel with
    | O => lift (Raise Unfinished)
    | S fuel =>
        c <- lift (getitem text (Z.of_nat bp - 1)) ;;
        (if N.eqb c NEWLINE
         then lines_append (i, (bp - 1)%nat)
         else lines_append (i, bp)) ;;
        let i := bp in
        s <- self ;;
        gs <- attr (_glyph_string s) ;;
        bp <- lift (get_break_index gs i width) ;;
        wrap_loop fuel text width i bp
    end
  else ret i.

(** The [if self._layout_width is None: ... else: ...] of [_clean], which
    finds the lines of [text], the text of the glyph string [gs]. *)
Definition layout_lines (text : text_t) (gs : GlyphString.t)
    (width : option Z) : M unit :=
  let i := 0%nat in
  match width with
  | None =>
      assign (set_text_width 0) ;;
      i <- newline_loop (length text) text i ;;
      let e := length text in
      when (negb (Nat.eqb e i)) (lines_append (i, e) ;; widen i e)
  | Some width =>
      bp <- lift (get_break_index gs i width) ;;
      i <- wrap_loop (length text) text width i bp ;;
      when (Z.of_nat i <? Z.of_nat (length text) - 1)
           (lines_append (i, length text))
  end.

Section WithFont.

Context {font : Font}.

(** [Text._clean(self)]. Each turn of either loop moves [i] forward, so
    [len(text)] turns are the most there can be. *)
Definition _clean : M unit :=
  s <- self ;;
  let text := _text s ++ [SPACE] in
  call (gl (get_glyphs_call text)) ;;
  let glyphs := get_glyphs text in
  let gs := GlyphString.__init__ text glyphs 0 0 in
  assign (set_glyph_string (Some gs)) ;;
  assign (set_lines (Some [])) ;;
  layout_lines text gs (_layout_width s) ;;
  s <- self ;;
  let lh := ascent - descent + leading s in
  assign (set_line_height (Some lh)) ;;
  ls <- attr (lines s) ;;
  assign (set_text_height (lh * Z.of_nat (length ls))) ;;
  assign (set_dirty false).

(** [Text._get_height(self)], the getter of [height] *)
Definition _get_height : M Z :=
  s <- self ;;
  when (_dirty s) _clean ;;
  gets (fun w => _text_height (fst w)).

(** [a - b] and [a // b] where [a] may be [None] *)
Definition py_sub (a : option Z) (b : Z) : result Z :=
  match a with
  | Some a => Ok (a - b)
  | None => Raise TypeError
  end.
Definition py_floordiv (a : option Z) (b : Z) : result Z :=
  match a with
  | Some a => Ok (a / b)
  | None => Raise TypeError
  end.

(** The body of [for start, end in self.lines] in [draw]. *)
Definition draw_line (line : nat * nat) : M unit :=
  let '(start, e) := line in
  s <- self ;;
  gs <- attr (_glyph_string s) ;;
  width <- lift (get_subwidth gs start e) ;;
  let x0 := x s in
  x <- (if align_eqb (_halign s) RIGHT then
          d <- lift (py_sub (_layout_width s) width) ;;
          ret (x0 + d)
        else if align_eqb (_halign s) CENTER then
          h <- lift (py_floordiv (_layout_width s) 2) ;;
          ret (x0 + (h - width / 2))
        else ret x0) ;;
  call (gl (glTranslatef x 0 0)) ;;
  call (GlyphString.draw gs start (Some e)) ;;
  lh <- attr (line_height s) ;;
  call (gl (glTranslatef (- x) (- lh) 0)).

Fixpoint draw_lines (ls : list (nat * nat)) : M unit :=
  match ls with
  | [] => ret tt
  | line :: rest => draw_line line ;; draw_lines rest
  end.

(** [Text.draw(self)] from [y = self.y] on, once the layout is
    resolved. *)
Definition render : M unit :=
  s <- self ;;
  let y0 := y s in
  y <- (if align_eqb (_valign s) BOTTOM then
          h <- _get_height ;; ret (y0 + (h - ascent))
        else if align_eqb (_valign s) CENTER then
          h <- _get_height ;; ret (y0 + (h / 2 - ascent))
        else if align_eqb (_valign s) TOP then
          ret (y0 - ascent)
        else ret y0) ;;
  call (gl glPushAttrib) ;;
  call (gl glEnable_TEXTURE_2D) ;;
  call (gl (glColor4f (color s))) ;;
  call (gl glPushMatrix) ;;
  call (gl (glTranslatef 0 y 0)) ;;
  s <- self ;;
  ls <- attr (lines s) ;;
  draw_lines ls ;;
  call (gl glPopMatrix) ;;
  call (gl glPopAttrib).

(** [Text.draw(self)] *)
Definition draw : M unit :=
  s <- self ;;
  when (_dirty s) _clean ;;
  render.

(** [Text._get_width(self)], the getter of [width]; a layout width of
    [None] or 0 is false. *)
Definition _get_width : M Z :=
  s <- self ;;
  when (_dirty s) _clean ;;
  s <- self ;;
  match _layout_width s with
  | Some w => if Z.eqb w 0 then ret (_text_width s) else ret w
  | None => ret (_text_width s)
  end.

(** The setters of the properties [width], [text], [halign], [valign]. *)
Definition _set_width (width : option Z) : M unit :=
  assign (set_layout_width width) ;; assign (set_dirty true).
Definition _set_text (text : text_t) : M unit :=
  assign (set_text text) ;; assign (set_dirty true).
Definition _set_halign (halign : align) : M unit :=
  assign (set_halign halign) ;; assign (set_dirty true).
Definition _set_valign (valign : align) : M unit :=
  assign (set_valign valign) ;; assign (set_dirty true).

End WithFont.

(** *** Vocabulary of the statements about displayable text *)

(** The attributes that the loops of [_clean] rely on are there. *)
Definition ready (gs : GlyphString.t) (t : Text.t) : Prop :=
  _glyph_string t = Some gs /\ lines t <> None.

(** A method leaves the Text [t] as it is and only adds OpenGL calls to
    the log. *)
Definition renders (t : Text.t) {A : Type} (m : M A) : Prop :=
  exists r g, (forall log, m (t, log) = (r, (t, log ++ g)))
              /\ Forall (fun e => GlyphString.is_get_glyphs e = false) g.

(** Both ends of a line span are indices of a text of [n] characters, or
    its end. *)
Definition line_within (n : nat) (line : nat * nat) : Prop :=
  (fst line <= n)%nat /\ (snd line <= n)%nat.

(** The characters of a line, [text[start:end]]. *)
Definition span (text : text_t) (line : nat * nat) : text_t :=
  GlyphString.slice text (fst line) (snd line).

(** A line of a layout as a piece of the text: its characters, with or
    without the newline that ended it. *)
Definition piece_of (text : text_t) (line : nat * nat) (piece : text_t) : Prop :=
  piece = span text line \/ piece = span text line ++ [NEWLINE].

(** A method leaves the attribute [f] of the Text as it was, however it
    ends. *)
Definition fixes {A B : Type} (f : Text.t -> B) (m : M A) : Prop :=
  forall t log r t' log', m (t, log) = (r, (t', log')) -> f t' = f t.

(** How many more attribute groups a log pushes than it pops. *)
Fixpoint attrib_depth (log : list event) : Z :=
  match log with
  | [] => 0
  | glPushAttrib :: rest => 1 + attrib_depth rest
  | glPopAttrib :: rest => -1 + attrib_depth rest
  | _ :: rest => attrib_depth rest
  end.

(** The calls of a log leave the matrix stack and the two attribute
    stacks of OpenGL as deep as they were. *)
Definition balanced (g : list event) : Prop :=
  matrix_depth g = 0 /\ client_depth g = 0 /\ attrib_depth g = 0.

(** A method completes with the value [a], leaves the Text [t] as it is
    and adds the calls [g] to the log. *)
Definition sends (t : Text.t) {A : Type} (m : M A) (a : A) (g : list event)
    : Prop :=
  forall log, m (t, log) = (Ok a, (t, log ++ g)).

(** The alignment needs no layout width, or there is one. *)
Definition placeable (t : Text.t) : Prop :=
  _layout_width t <> None \/ (_halign t <> RIGHT /\ _halign t <> CENTER).

(** A line that ends where [get_break_index] breaks it: before the
    newline, or after the space or zero-width space, that the break point
    follows. *)
Definition breaks_at (gs : GlyphString.t) (width : Z) (line : nat * nat)
    : Prop :=
  exists bp c,
    get_break_index gs (fst line) width = Ok bp
    /\ (fst line < bp)%nat
    /\ nth_error (GlyphString.text gs) (bp - 1) = Some c
    /\ GlyphString.is_break c = true
    /\ snd line = if N.eqb c NEWLINE then (bp - 1)%nat else bp.

(** *** Sample texts *)

(** A font whose glyphs are all 10 wide and on one texture. *)
Definition mono : Font :=
  {| get_glyphs :=
       map (fun _ => GlyphString.mkGlyph 10 (0, 0, 8, 12)
                       ((0, 0), (1, 0), (1, 1), (0, 1)) (Some 7%nat));
     ascent := 12;
     descent := -3 |}.

(** "ab c", a newline, "d", wrapped to 35 and right-aligned. *)
Definition wrapped : Text.t :=
  Text.__init__ [97; 98; 32; 99; 10; 100]%N 5 7 (1, 1, 1, 1) (Some 35)
    RIGHT TOP.

(** "a" with no width to wrap to, right-aligned and centred. *)
Definition unwrapped (halign : align) : Text.t :=
  Text.__init__ [97]%N 0 0 (1, 1, 1, 1) None halign BASELINE.

(** "ab", a newline, "c", not wrapped. *)
Definition two_lines : Text.t :=
  Text.__init__ [97; 98; 10; 99]%N 0 0 (1, 1, 1, 1) None LEFT BASELINE.

End Text.

(** ** pyglet.text.caret *)

(** Style attributes: a dict from attribute names to values. *)
Definition attributes : Type := list (String.string * Z).

(** The calls a caret makes on its layout, on the layout's document and on
    the clock, in the order made. What the collaborators answer to a query
    may depend on all of them. *)
Inductive call : Type :=
| insert_text (index : Z) (text : text_t) (attrs : attributes)
| delete_text (start finish : Z)
| set_selection (start finish : Z)
| ensure_line_visible (line : Z)
| ensure_x_visible (x : Z)
| unschedule_blink
| schedule_interval_blink (period : Q).

Definition history : Type := list call.

(** The queries of [pyglet.text.layout] and [pyglet.text.document] that
    the caret uses; neither class is part of this development. *)
Class Layout : Type := {
  document_text : history -> text_t;
  get_line_from_position : history -> Z -> Z;
  get_point_from_position : history -> Z -> option Z -> Z * Z;
  get_position_on_line : history -> Z -> Z -> Z;
  get_line_from_point : history -> Z -> Z -> Z;
  get_position_from_line : history -> Z -> Z;
  get_line_count : history -> Z;
  translate_x : history -> Z;
  translate_y : history -> Z;
  get_font : history -> Z -> Font;
  get_paragraph_start : history -> Z -> Z;
  get_paragraph_end : history -> Z -> Z
}.

(** [pattern.search(string, pos[, endpos])] of the two word patterns of the
    class, [(?<=\W)\w] and [(?<=\W)\w+\W*$]: the start of the match, if
    any. *)
Class WordPatterns : Type := {
  _next_word_re_search : text_t -> Z -> option Z;
  _previous_word_re_search : text_t -> Z -> Z -> option Z
}.

(** The motions of [pyglet.window.key]. *)
Inductive motion : Type :=
| MOTION_UP | MOTION_RIGHT | MOTION_DOWN | MOTION_LEFT
| MOTION_NEXT_WORD | MOTION_PREVIOUS_WORD
| MOTION_BEGINNING_OF_LINE | MOTION_END_OF_LINE
| MOTION_NEXT_PAGE | MOTION_PREVIOUS_PAGE
| MOTION_BEGINNING_OF_FILE | MOTION_END_OF_FILE
| MOTION_BACKSPACE | MOTION_DELETE.

Module Caret.

Record t : Type := mkCaret {
  _position : Z;
  _active : bool;
  _visible : bool;
  _blink_visible : bool;
  _click_count : Z;
  _click_time : Q;
  _ideal_x : option Z;
  _ideal_line : option Z;
  _next_attributes : attributes;
  _mark : option Z;
  colors : list Z;        (* self._list.colors *)
  vertices : list Z       (* self._list.vertices *)
}.

Definition PERIOD : Q := 1 # 2.

Definition world : Type := t * history.
Definition M : Type -> Type := prog world.

Definition self : M t := gets fst.
Definition past : M history := gets snd.
Definition assign (f : t -> t) : M unit := modify (fun w => (f (fst w), snd w)).
Definition tell (c : call) : M unit := modify (fun w => (fst w, snd w ++ [c])).

Definition set_position v s := mkCaret v (_active s) (_visible s) (_blink_visible s) (_click_count s) (_click_time s) (_ideal_x s) (_ideal_line s) (_next_attributes s) (_mark s) (colors s) (vertices s).
Definition set_active v s := mkCaret (_position s) v (_visible s) (_blink_visible s) (_click_count s) (_click_time s) (_ideal_x s) (_ideal_line s) (_next_attributes s) (_mark s) (colors s) (vertices s).
Definition set_visible v s := mkCaret (_position s) (_active s) v (_blink_visible s) (_click_count s) (_click_time s) (_ideal_x s) (_ideal_line s) (_next_attributes s) (_mark s) (colors s) (vertices s).
Definition set_blink_visible v s := mkCaret (_position s) (_active s) (_visible s) v (_click_count s) (_click_time s) (_ideal_x s) (_ideal_line s) (_next_attributes s) (_mark s) (colors s) (vertices s).
Definition set_click_count v s := mkCaret (_position s) (_active s) (_visible s) (_blink_visible s) v (_click_time s) (_ideal_x s) (_ideal_line s) (_next_attributes s) (_mark s) (colors s) (vertices s).
Definition set_click_time v s := mkCaret (_position s) (_active s) (_visible s) (_blink_visible s) (_click_count s) v (_ideal_x s) (_ideal_line s) (_next_attributes s) (_mark s) (colors s) (vertices s).
Definition set_ideal_x v s := mkCaret (_position s) (_active s) (_visible s) (_blink_visible s) (_click_count s) (_click_time s) v (_ideal_line s) (_next_attributes s) (_mark s) (colors s) (vertices s).
Definition set_ideal_line v s := mkCaret (_position s) (_active s) (_visible s) (_blink_visible s) (_click_count s) (_click_time s) (_ideal_x s) v (_next_attributes s) (_mark s) (colors s) (vertices s).
Definition set_next_attributes v s := mkCaret (_position s) (_active s) (_visible s) (_blink_visible s) (_click_count s) (_click_time s) (_ideal_x s) (_ideal_line s) v (_mark s) (colors s) (vertices s).
Definition set_mark v s := mkCaret (_position s) (_active s) (_visible s) (_blink_visible s) (_click_count s) (_click_time s) (_ideal_x s) (_ideal_line s) (_next_attributes s) v (colors s) (vertices s).
Definition set_colors v s := mkCaret (_position s) (_active s) (_visible s) (_blink_visible s) (_click_count s) (_click_time s) (_ideal_x s) (_ideal_line s) (_next_attributes s) (_mark s) v (vertices s).
Definition set_vertices v s := mkCaret (_position s) (_active s) (_visible s) (_blink_visible s) (_click_count s) (_click_time s) (_ideal_x s) (_ideal_line s) (_next_attributes s) (_mark s) (colors s) v.

(** [l[i] = v] *)
Fixpoint setitem {A : Type} (l : list A) (i : nat) (v : A) : result (list A) :=
  match l, i with
  | [], _ => Raise IndexError
  | _ :: rest, O => Ok (v :: rest)
  | a :: rest, S i => let? rest' := setitem rest i v in Ok (a :: rest')
  end.

Definition colors_setitem (i : nat) (v : Z) : M unit :=
  s <- self ;;
  cs <- lift (setitem (colors s) i v) ;;
  assign (set_colors cs).

Section WithLayout.

Context {layout : Layout} {patterns : WordPatterns}.

(** [Caret._blink(self, dt)] *)
Definition _blink : M unit :=
  s <- self ;;
  assign (set_blink_visible (negb (_blink_visible s))) ;;
  s <- self ;;
  let alpha := if _visible s && _active s && _blink_visible s
               then 255 else 0 in
  colors_setitem 3 alpha ;;
  colors_setitem 7 alpha.

(** [Caret._set_visible(self, visible)], the setter of [visible] *)
Definition _set_visible (visible : bool) : M unit :=
  assign (set_visible visible) ;;
  tell unschedule_blink ;;
  s <- self ;;
  when (visible && _active s && negb (Qeq_bool PERIOD 0))
       (tell (schedule_interval_blink PERIOD) ;;
        assign (set_blink_visible false)) ;;
  _blink.

(** [Caret._nudge(self)] *)
Definition _nudge : M unit := _set_visible true.

(** [Caret._update(self, line=None, update_ideal_x=True)] *)
Definition _update (line : option Z) (update_ideal_x : bool) : M unit :=
  line <- match line with
          | None =>
              s <- self ;; h <- past ;;
              let line := get_line_from_position h (_position s) in
              assign (set_ideal_line None) ;;
              ret line
          | Some line =>
              assign (set_ideal_line (Some line)) ;;
              ret line
          end ;;
  s <- self ;; h <- past ;;
  let '(x, y) := get_point_from_position h (_position s) (Some line) in
  when update_ideal_x (assign (set_ideal_x (Some x))) ;;
  let x := x - translate_x h in
  let y := y - translate_y h in
  let font := get_font h (Z.max 0 (_position s - 1)) in
  assign (set_vertices [x; y + @descent font; x; y + @ascent font]) ;;
  s <- self ;;
  match _mark s with
  | Some mark => tell (set_selection (Z.min (_position s) mark)
                                     (Z.max (_position s) mark))
  | None => ret tt
  end ;;
  tell (ensure_line_visible line) ;;
  tell (ensure_x_visible x).

(** [Caret._set_position(self, index)], the setter of [position] *)
Definition _set_position (index : Z) : M unit :=
  assign (set_position index) ;;
  assign (set_next_attributes []) ;;
  _update None true.

(** [Caret._set_mark(self, mark)], the setter of [mark] *)
Definition _set_mark (mark : option Z) : M unit :=
  assign (set_mark mark) ;;
  s <- self ;;
  _update (_ideal_line s) true ;;
  match mark with
  | None => tell (set_selection 0 0)
  | Some _ => ret tt
  end.

(** [Caret._set_line(self, line)], the setter of [line] *)
Definition _set_line (line : Z) : M unit :=
  s <- self ;; h <- past ;;
  ideal_x <- match _ideal_x s with
             | None =>
                 let x := fst (get_point_from_position h (_position s) None) in
                 assign (set_ideal_x (Some x)) ;; ret x
             | Some x => ret x
             end ;;
  h <- past ;;
  assign (set_position (get_position_on_line h line ideal_x)) ;;
  _update (Some line) false.

(** [Caret._get_line(self)], the getter of [line] *)
Definition _get_line : M Z :=
  s <- self ;; h <- past ;;
  match _ideal_line s with
  | Some line => ret line
  | None => ret (get_line_from_position h (_position s))
  end.

(** [Caret._delete_selection(self)]; the selection exists, so [_mark]
    is an integer. *)
Definition _delete_selection : M unit :=
  s <- self ;;
  mark <- match _mark s with
          | Some m => ret m
          | None => lift (Raise TypeError)
          end ;;
  tell (delete_text (Z.min mark (_position s)) (Z.max mark (_position s))) ;;
  assign (set_position (Z.min (_position s) mark)) ;;
  assign (set_mark None) ;;
  tell (set_selection 0 0).

(** [Caret.move_to_point(self, x, y)] *)
Definition move_to_point (x y : Z) : M unit :=
  h <- past ;;
  let line := get_line_from_point h x y in
  assign (set_mark None) ;;
  tell (set_selection 0 0) ;;
  h <- past ;;
  assign (set_position (get_position_on_line h line x)) ;;
  _update (Some line) true ;;
  assign (set_next_attributes []).

(** [Caret.select_to_point(self, x, y)] *)
Definition select_to_point (x y : Z) : M unit :=
  h <- past ;;
  let line := get_line_from_point h x y in
  assign (set_position (get_position_on_line h line x)) ;;
  _update (Some line) true ;;
  assign (set_next_attributes []).

(** [Caret.select_word(self, x, y)] *)
Definition select_word (x y : Z) : M unit :=
  h <- past ;;
  let line := get_line_from_point h x y in
  let p := get_position_on_line h line x in
  let m1 := match _previous_word_re_search (document_text h) 0 (p + 1) with
            | None => 0
            | Some start => start
            end in
  _set_mark (Some m1) ;;
  h <- past ;;
  let m2 := match _next_word_re_search (document_text h) p with
            | None => Z.of_nat (length (document_text h))
            | Some start => start
            end in
  assign (set_position m2) ;;
  _update (Some line) true ;;
  assign (set_next_attributes []).

(** [Caret.select_paragraph(self, x, y)] *)
Definition select_paragraph (x y : Z) : M unit :=
  h <- past ;;
  let line := get_line_from_point h x y in
  let p := get_position_on_line h line x in
  _set_mark (Some (get_paragraph_start h p)) ;;
  h <- past ;;
  assign (set_position (get_paragraph_end h p)) ;;
  _update (Some line) true ;;
  assign (set_next_attributes []).

(** [text.replace('\r', '\n')] *)
Definition replace_cr (text : text_t) : text_t :=
  map (fun c => if N.eqb c CR then NEWLINE else c) text.

(** [Caret.on_text(self, text)] *)
Definition on_text (text : text_t) : M unit :=
  s <- self ;;
  match _mark s with
  | Some _ => _delete_selection
  | None => ret tt
  end ;;
  let text := replace_cr text in
  s <- self ;;
  tell (insert_text (_position s) text (_next_attributes s)) ;;
  assign (set_position (_position s + Z.of_nat (length text))) ;;
  _nudge ;;
  _update None true.

Definition motion_eqb (a b : motion) : bool :=
  match a, b with
  | MOTION_UP, MOTION_UP | MOTION_RIGHT, MOTION_RIGHT
  | MOTION_DOWN, MOTION_DOWN | MOTION_LEFT, MOTION_LEFT
  | MOTION_NEXT_WORD, MOTION_NEXT_WORD
  | MOTION_PREVIOUS_WORD, MOTION_PREVIOUS_WORD
  | MOTION_BEGINNING_OF_LINE, MOTION_BEGINNING_OF_LINE
  | MOTION_END_OF_LINE, MOTION_END_OF_LINE
  | MOTION_NEXT_PAGE, MOTION_NEXT_PAGE
  | MOTION_PREVIOUS_PAGE, MOTION_PREVIOUS_PAGE
  | MOTION_BEGINNING_OF_FILE, MOTION_BEGINNING_OF_FILE
  | MOTION_END_OF_FILE, MOTION_END_OF_FILE
  | MOTION_BACKSPACE, MOTION_BACKSPACE
  | MOTION_DELETE, MOTION_DELETE => true
  | _, _ => false
  end.

Definition is_some {A : Type} (o : option A) : bool :=
  match o with Some _ => true | None => false end.

(** [len(self._layout.document.text)] *)
Definition document_length : M Z :=
  h <- past ;; ret (Z.of_nat (length (document_text h))).

(** The first [if]/[elif] chain of [on_text_motion]. *)
Definition motion_edit (motion : motion) (select : bool) : M unit :=
  s <- self ;;
  n <- document_length ;;
  if motion_eqb motion MOTION_BACKSPACE then
    if is_some (_mark s) then _delete_selection ;; _update None true
    else if 0 <? _position s then
      tell (delete_text (_position s - 1) (_position s)) ;;
      _set_position (_position s - 1)
    else ret tt
  else if motion_eqb motion MOTION_DELETE then
    if is_some (_mark s) then _delete_selection ;; _update None true
    else if _position s <? n then
      tell (delete_text (_position s) (_position s + 1)) ;;
      _update None true
    else ret tt
  else if is_some (_mark s) && negb select then
    assign (set_mark None) ;;
    tell (set_selection 0 0)
  else ret tt.

(** The second [if]/[elif] chain of [on_text_motion]. *)
Definition motion_move (motion : motion) : M unit :=
  s <- self ;;
  if motion_eqb motion MOTION_LEFT then
    _set_position (Z.max 0 (_position s - 1))
  else if motion_eqb motion MOTION_RIGHT then
    n <- document_length ;;
    _set_position (Z.min n (_position s + 1))
  else if motion_eqb motion MOTION_UP then
    line <- _get_line ;;
    _set_line (Z.max 0 (line - 1))
  else if motion_eqb motion MOTION_DOWN then
    line <- _get_line ;;
    h <- past ;;
    when (line <? get_line_count h - 1) (_set_line (line + 1))
  else if motion_eqb motion MOTION_BEGINNING_OF_LINE then
    line <- _get_line ;;
    h <- past ;;
    _set_position (get_position_from_line h line)
  else if motion_eqb motion MOTION_END_OF_LINE then
    line <- _get_line ;;
    h <- past ;;
    if line <? get_line_count h - 1 then
      assign (set_position (get_position_on_line h (line + 1) 0 - 1)) ;;
      _update (Some line) true
    else
      n <- document_length ;;
      _set_position n
  else if motion_eqb motion MOTION_BEGINNING_OF_FILE then
    _set_position 0
  else if motion_eqb motion MOTION_END_OF_FILE then
    n <- document_length ;;
    _set_position n
  else if motion_eqb motion MOTION_NEXT_WORD then
    let pos := _position s + 1 in
    h <- past ;;
    match _next_word_re_search (document_text h) pos with
    | None => n <- document_length ;; _set_position n
    | Some start => _set_position start
    end
  else if motion_eqb motion MOTION_PREVIOUS_WORD then
    let pos := _position s in
    h <- past ;;
    match _previous_word_re_search (document_text h) 0 pos with
    | None => _set_position 0
    | Some start => _set_position start
    end
  else ret tt.

(** [Caret.on_text_motion(self, motion, select=False)] *)
Definition on_text_motion (motion : motion) (select : bool) : M unit :=
  motion_edit motion select ;;
  motion_move motion ;;
  assign (set_next_attributes []) ;;
  _nudge.

(** [Caret.on_text_motion_select(self, motion)] *)
Definition on_text_motion_select (motion : motion) : M unit :=
  s <- self ;;
  match _mark s with
  | None => _set_mark (Some (_position s))
  | Some _ => ret tt
  end ;;
  on_text_motion motion true.

(** The click counting at the head of [on_mouse_press]: [t] is what
    the first [time.time()] returns, [t'] the second. *)
Definition count_click (t t' : Q) : M unit :=
  s <- self ;;
  (if negb (Qle_bool (1 # 4) (t - _click_time s))
   then assign (set_click_count (_click_count s + 1))
   else assign (set_click_count 1)) ;;
  assign (set_click_time t').

(** [Caret.on_mouse_press(self, x, y, button, modifiers)], with the two
    readings of the clock it takes. *)
Definition on_mouse_press (t t' : Q) (x y button modifiers : Z) : M unit :=
  count_click t t' ;;
  s <- self ;;
  (if _click_count s =? 1 then move_to_point x y
   else if _click_count s =? 2 then select_word x y
   else if _click_count s =? 3 then
     select_paragraph x y ;;
     assign (set_click_count 0)
   else ret tt) ;;
  _nudge.

(** [Caret.on_mouse_drag(self, x, y, dx, dy, buttons, modifiers)] *)
Definition on_mouse_drag (x y dx dy buttons modifiers : Z) : M unit :=
  s <- self ;;
  match _mark s with
  | None => _set_mark (Some (_position s))
  | Some _ => ret tt
  end ;;
  select_to_point x y ;;
  _nudge.

(** [Caret.on_activate(self)] and [Caret.on_deactivate(self)] *)
Definition on_activate : M unit :=
  assign (set_active true) ;;
  s <- self ;;
  _set_visible (_visible s).
Definition on_deactivate : M unit :=
  assign (set_active false) ;;
  s <- self ;;
  _set_visible (_visible s).

(** [Caret.__init__(self, layout, batch=None)]: the class attributes, the
    vertex list of two vertices that the batch hands out, then
    [self.visible = True]. *)
Definition fresh : t :=
  mkCaret 0 true true true 0 0 None None [] None
    [0; 0; 0; 255; 0; 0; 0; 255] [0; 0; 0; 0].

Definition __init__ (h : history) : result unit * world :=
  _set_visible true (fresh, h).

End WithLayout.

(** *** Vocabulary of the statements about the caret *)

(** The calls that change the text of the document. *)
Definition is_edit (c : call) : bool :=
  match c with
  | insert_text _ _ _ | delete_text _ _ => true
  | _ => false
  end.

(** [m] leaves the attribute [f] of the caret as it finds it. *)
Definition keeps {X A : Type} (f : t -> X) (m : M A) : Prop :=
  forall w, f (fst (snd (m w))) = f (fst w).

(** [m] calls its collaborators without editing the document. *)
Definition reads_only {A : Type} (m : M A) : Prop :=
  forall w, exists calls,
    snd (snd (m w)) = snd w ++ calls
    /\ Forall (fun c => is_edit c = false) calls.

(** [m] raises nothing. *)
Definition returns {A : Type} (m : M A) : Prop :=
  forall w, exists a, fst (m w) = Ok a.

(** The count that the head of [on_mouse_press] arrives at. *)
Definition counted (t : Q) (c : Caret.t) : Z :=
  if negb (Qle_bool (1 # 4) (t - _click_time c))
  then _click_count c + 1 else 1.

(** [m], started in [w], returns, and [Q] holds of what it returns and of
    the state it leaves. *)
Definition lands {A : Type} (m : M A) (w : world) (Q : A -> world -> Prop)
    : Prop :=
  exists a w', m w = (Ok a, w') /\ Q a w'.

(** The selection that the layout was last told to show, none at first. *)
Definition shown (h : history) : Z * Z :=
  fold_left (fun s k => match k with set_selection a b => (a, b) | _ => s end)
            h (0, 0).

(** The selection that the caret stands for: from the mark to the
    position, whichever comes first. *)
Definition selection (c : t) : Z * Z :=
  match _mark c with
  | Some m => (Z.min (_position c) m, Z.max (_position c) m)
  | None => (0, 0)
  end.

(** The vertex list has the colour entries of its two vertices. *)
Definition drawable (c : t) : Prop := (8 <= length (colors c))%nat.

(** The layout shows the selection of the caret. *)
Definition synced (w : world) : Prop :=
  drawable (fst w) /\ shown (snd w) = selection (fst w).

(** The calls of a history that change the text, in order. *)
Definition edits (h : history) : list call := filter is_edit h.

(** The periods of the blink timers scheduled since the last
    [clock.unschedule(self._blink)]. *)
Definition timers (h : history) : list Q :=
  fold_left (fun ts k => match k with
                         | unschedule_blink => []
                         | schedule_interval_blink p => ts ++ [p]
                         | _ => ts
                         end) h [].

(** The opacity of the two vertices of the caret. *)
Definition alphas (c : t) : option Z * option Z :=
  (nth_error (colors c) 3, nth_error (colors c) 7).

(** The opacity that [_blink] writes for a flag. *)
Definition alpha_of (b : bool) : option Z * option Z :=
  if b then (Some 255, Some 255) else (Some 0, Some 0).

(** The colour entries of [c'] other than the two opacities are those of
    [c]. *)
Definition same_color (c c' : t) : Prop :=
  length (colors c') = length (colors c)
  /\ forall i, i <> 3%nat -> i <> 7%nat ->
               nth_error (colors c') i = nth_error (colors c) i.

(** *** A layout to run the handlers on *)

(** The text of the document after an edit. *)
Definition edited (text : text_t) (c : call) : text_t :=
  match c with
  | insert_text index s _ =>
      firstn (Z.to_nat index) text ++ s ++ skipn (Z.to_nat index) text
  | delete_text start finish =>
      firstn (Z.to_nat start) text ++ skipn (Z.to_nat finish) text
  | _ => text
  end.

(** A layout of one line, every character 10 wide, over a document that
    starts out empty. *)
Definition one_line : Layout :=
  {| document_text := fun h => fold_left edited h [];
     get_line_from_position := fun _ _ => 0;
     get_point_from_position := fun _ p _ => (10 * p, 0);
     get_position_on_line := fun _ _ x => x / 10;
     get_line_from_point := fun _ _ _ => 0;
     get_position_from_line := fun _ _ => 0;
     get_line_count := fun _ => 1;
     translate_x := fun _ => 0;
     translate_y := fun _ => 0;
     get_font := fun _ _ => Text.mono;
     get_paragraph_start := fun _ _ => 0;
     get_paragraph_end := fun h _ => Z.of_nat (length (fold_left edited h [])) |}.

(** Word patterns for a text without word characters. *)
Definition no_words : WordPatterns :=
  {| _next_word_re_search := fun _ _ => None;
     _previous_word_re_search := fun _ _ _ => None |}.

(** A caret just made, and the same after "hi" and a carriage return were
    typed. *)
Definition made : world := snd (__init__ []).

Definition typed : world :=
  snd (@on_text one_line [104; 105; 13]%N made).

End Caret.

(** ** pyglet.font: glyph strings over any Python numbers *)

(** The arithmetic that [GlyphString] does on the numbers it is given:
    [+], [-], [>] and the literal 0. *)
Class Number (R : Type) : Type := {
  zero : R;
  plus : R -> R -> R;
  minus : R -> R -> R;
  greater : R -> R -> bool
}.

(** Python's integers, which compute exactly. *)
Definition integer : Number Z :=
  {| zero := 0; plus := Z.add; minus := Z.sub; greater := fun a b => b <? a |}.

(** Python's floats: IEEE 754 binary64, each operation rounded to the
    nearest value; [>] is false of a NaN. *)
Definition double : Number PrimFloat.float :=
  {| zero := PrimFloat.zero;
     plus := PrimFloat.add;
     minus := PrimFloat.sub;
     greater := fun a b => PrimFloat.ltb b a |}.

(** [float(n)] for a small integer. *)
Definition float_of (n : Z) : PrimFloat.float :=
  PrimFloat.of_uint63 (Uint63.of_Z n).

Module Numeric.

Section WithNumber.

Context {R : Type} {num : Number R}.

(** The list [self.cumulative_advance] that [GlyphString.__init__] builds:
    [x += glyph.advance; self.cumulative_advance.append(x)] for each glyph
    in turn, from the [x] it is given. *)
Fixpoint cumulative (x : R) (advances : list R) : list R :=
  match advances with
  | [] => []
  | a :: rest => plus x a :: cumulative (plus x a) rest
  end.

(** The loop of [get_break_index] over
    [enumerate(zip(text[from_index:], cumulative_advance[from_index:]))],
    entered at offset [i]. *)
Fixpoint break_loop (from_index : nat) (width : R) (to_index i : nat)
    (l : list (char * R)) : nat :=
  match l with
  | [] => to_index
  | (c, w) :: rest =>
      if greater w width then to_index
      else if N.eqb c NEWLINE then (i + from_index + 1)%nat
      else if GlyphString.is_space c
           then break_loop from_index width (i + from_index + 1)%nat (S i) rest
           else break_loop from_index width to_index (S i) rest
  end.

(** [GlyphString.get_break_index(self, from_index, width)], of a glyph
    string with the attributes [text] and [cumulative_advance]. *)
Definition get_break_index (text : text_t) (cumulative_advance : list R)
    (from_index : nat) (width : R) : result nat :=
  let to_index := from_index in
  if (length text <=? from_index)%nat then Ok from_index
  else
    let? width :=
      (if truthy from_index
       then let? c := getitem cumulative_advance (Z.of_nat from_index - 1) in
            Ok (plus width c)
       else Ok width) in
    Ok (break_loop from_index width to_index 0%nat
          (combine (skipn from_index text)
                   (skipn from_index cumulative_advance))).

(** [GlyphString.get_subwidth(self, from_index, to_index)] *)
Definition get_subwidth (cumulative_advance : list R)
    (from_index to_index : nat) : result R :=
  let? width := getitem cumulative_advance (Z.of_nat to_index - 1) in
  if truthy from_index
  then let? c := getitem cumulative_advance (Z.of_nat from_index - 1) in
       Ok (minus width c)
  else Ok width.

(** A glyph, as far as the vertex array goes. *)
Record Glyph : Type := mkGlyph {
  advance : R;
  vertices : R * R * R * R;
  tex_coords : (R * R) * (R * R) * (R * R) * (R * R)
}.

(** What one turn of the loop of [__init__] adds to [lst]. *)
Definition quad (x y : R) (glyph : Glyph) : list R :=
  let '(v0, v1, v2, v3) := vertices glyph in
  let '(t0, t1, t2, t3) := tex_coords glyph in
  [fst t0; snd t0; plus x v0; plus y v1; zero;
   fst t1; snd t1; plus x v2; plus y v1; zero;
   fst t2; snd t2; plus x v2; plus y v3; zero;
   fst t3; snd t3; plus x v0; plus y v3; zero].

(** The list [lst] when the loop of [__init__] is over:
    [lst += [...]; x += glyph.advance] for each glyph in turn. *)
Fixpoint vertex_list (x y : R) (glyphs : list Glyph) : list R :=
  match glyphs with
  | [] => []
  | glyph :: rest =>
      quad x y glyph ++ vertex_list (plus x (advance glyph)) y rest
  end.

(** [self.array], the ctypes array of [c_float] made from [lst]: one C
    float for each number of [lst]; [c_float] is the conversion of a
    Python number to a C float, which rounds to 24 significant bits. *)
Definition array {F : Type} (c_float : R -> F) (x y : R)
    (glyphs : list Glyph) : list F :=
  map c_float (vertex_list x y glyphs).

(** *** Vocabulary of the statements about widths *)

(** What the loop of [get_break_index] compares the cumulative advances
    with: [width], to which [cumulative_advance[from_index-1]] was added
    unless [from_index] is 0. *)
Definition limit (cumulative_advance : list R) (from_index : nat) (width : R)
    : result R :=
  if truthy from_index
  then let? c := getitem cumulative_advance (Z.of_nat from_index - 1) in
       Ok (plus width c)
  else Ok width.

(** The character at [m] fails the test of the loop: its cumulative
    advance is greater than the limit. *)
Definition exceeds (cumulative_advance : list R) (from_index : nat)
    (width : R) (m : nat) : Prop :=
  exists w l, nth_error cumulative_advance m = Some w
              /\ limit cumulative_advance from_index width = Ok l
              /\ greater w l = true.

(** The characters paired with their cumulative advances, from
    [from_index] on. *)
Definition zipped (text : text_t) (cumulative_advance : list R)
    (from_index : nat) : list (char * R) :=
  combine (skipn from_index text) (skipn from_index cumulative_advance).

(** No pair of [l] up to offset [k] is beyond [l0]. *)
Definition within (l0 : R) (l : list (char * R)) (k : nat) : Prop :=
  forall m c w, (m <= k)%nat -> nth_error l m = Some (c, w) ->
                greater w l0 = false.

(** How the loop can end when it is entered at offset [i] with
    [to_index]: without a break among the pairs it went through, or with
    the break it chose, at offset [k]. *)
Inductive outcome (from_index : nat) (l0 : R) (l : list (char * R))
    (to_index i r : nat) : Prop :=
| no_break :
    r = to_index ->
    (forall k c w, nth_error l k = Some (c, w) -> within l0 l k ->
                   GlyphString.is_break c = false) ->
    outcome from_index l0 l to_index i r
| break_at (k : nat) (c : char) (w : R) :
    nth_error l k = Some (c, w) ->
    within l0 l k ->
    GlyphString.is_break c = true ->
    r = (i + k + from_index + 1)%nat ->
    (forall m c' w', (m < k)%nat -> nth_error l m = Some (c', w') ->
                     c' <> NEWLINE) ->
    (c <> NEWLINE ->
     forall m c' w', (k < m)%nat -> nth_error l m = Some (c', w') ->
                     within l0 l m -> GlyphString.is_break c' = false) ->
    outcome from_index l0 l to_index i r.

(** The sum of a list of numbers, from the right. *)
Definition total (l : list R) : R := fold_right plus zero l.

(** Moving a term across the comparison changes nothing, as in exact
    arithmetic: [a > b + c] exactly when [a - c > b]. *)
Definition comparison_exact : Prop :=
  forall a b c, greater a (plus b c) = greater (minus a c) b.

(** Sums are exact: [+] is associative with 0 to its right, and
    [(a + b) - a] is [b]. *)
Definition sums_exact : Prop :=
  (forall a b c, plus (plus a b) c = plus a (plus b c))
  /\ (forall a, plus a zero = a)
  /\ (forall a b, minus (plus a b) a = b).

End WithNumber.

(** A glyph of the model of the class, taken as a glyph over the
    integers. *)
Definition of_glyph (g : GlyphString.Glyph) : Glyph (R := Z) :=
  mkGlyph (GlyphString.advance g) (GlyphString.vertices g)
    (GlyphString.tex_coords g).

(** *** Sample glyph strings *)

(** Five characters, "aab c", with the float advances 100, 10, 10, 9 and
    50 from the origin 0. *)
Definition aab_c : text_t := [97; 97; 98; 32; 99]%N.

Definition aab_c_advances : list PrimFloat.float :=
  map float_of [100; 10; 10; 9; 50].

(** [0.29 * 100], which is 28.999999999999996 *)
Definition twenty_nine_or_so : PrimFloat.float :=
  PrimFloat.mul (PrimFloat.div (float_of 29) (float_of 100)) (float_of 100).

End Numeric.

(** ** pyglet.font: loading fonts *)

Module FontLoad.

(** What [load] is given as [name]: a name, [None], or a list or tuple of
    names. *)
Inductive name_arg : Type :=
| Name (n : option String.string)
| Names (l : list String.string).

(** The key of the font cache, [(name, size, bold, italic)]; sizes are
    Python numbers, compared by value. *)
Definition descriptor : Type := option String.string * Q * bool * bool.

Definition name_eqb (a b : option String.string) : bool :=
  match a, b with
  | Some s, Some t => String.eqb s t
  | None, None => true
  | _, _ => false
  end.

Definition descriptor_eqb (a b : descriptor) : bool :=
  let '(n1, s1, b1, i1) := a in
  let '(n2, s2, b2, i2) := b in
  name_eqb n1 n2 && Qeq_bool s1 s2 && Bool.eqb b1 b2 && Bool.eqb i1 i2.

(** A font object: what it was made from, and [serial], which tells
    objects apart: the number of fonts made before it. *)
Record font_object : Type := mkFont {
  serial : nat;
  made_from : descriptor
}.

(** The object space of the current context: the attribute
    [pyglet_font_font_cache], absent at first, and the fonts made so far. *)
Record space : Type := mkSpace {
  pyglet_font_font_cache : option (list (descriptor * font_object));
  made : nat
}.

(** [descriptor in font_cache] and [font_cache[descriptor]] *)
Fixpoint cache_get (cache : list (descriptor * font_object)) (d : descriptor)
    : option font_object :=
  match cache with
  | [] => None
  | (k, f) :: rest => if descriptor_eqb k d then Some f else cache_get rest d
  end.

(** The platform's font class, as far as [load] asks it. *)
Class FontClass : Type := {
  have_font : String.string -> bool
}.

Section WithFontClass.

Context {font_class : FontClass}.

(** The [for n in name: ... else: name = None] of [load]. *)
Definition first_known (names : list String.string) : option String.string :=
  find have_font names.

(** [load(name, size, bold=False, italic=False)]; a descriptor that is
    not in the cache is new to it, so storing it adds an entry. *)
Definition load (name : name_arg) (size : Q) (bold italic : bool)
    (sp : space) : font_object * space :=
  let name := match name with
              | Name n => n
              | Names l => first_known l
              end in
  let font_cache := match pyglet_font_font_cache sp with
                    | Some cache => cache
                    | None => []
                    end in
  let descriptor := (name, size, bold, italic) in
  match cache_get font_cache descriptor with
  | Some font => (font, mkSpace (Some font_cache) (made sp))
  | None =>
      let font := mkFont (made sp) descriptor in
      (font, mkSpace (Some ((descriptor, font) :: font_cache)) (S (made sp)))
  end.

End WithFontClass.

Definition ttf : text_t := [46; 116; 116; 102]%N.   (* '.ttf' *)

Fixpoint text_eqb (a b : text_t) : bool :=
  match a, b with
  | [], [] => true
  | c :: a, d :: b => N.eqb c d && text_eqb a b
  | _, _ => false
  end.

(** [file[:-4]] *)
Definition but_last_four (file : text_t) : text_t :=
  firstn (length file - 4) file.

(** The file system and the platform's font class, as far as [add_file]
    asks them: what [open(font, 'rb')] and then [read()] give for a file
    name, the contents of the file or the exception that one of them
    raises, and the exception that [_font_class.add_font_data] raises on
    some contents, if any. *)
Class FontFiles : Type := {
  contents : Type;
  failure : Type;
  read_file : text_t -> contents + failure;
  add_font_data : contents -> option failure
}.

(** What [add_file] asks of them. *)
Inductive request {files : FontFiles} : Type :=
| open_call (font : text_t)
| add_font_data_call (font : contents).

Section WithFontFiles.

Context {files : FontFiles}.

(** [add_file(font)] for a file name: the name is opened as it is given.
    The result is [Some e] when the call raises [e]. *)
Definition add_file (font : text_t) (log : list request)
    : option failure * list request :=
  let log := log ++ [open_call font] in
  match read_file font with
  | inr e => (Some e, log)
  | inl font => (add_font_data font, log ++ [add_font_data_call font])
  end.

(** [file[:-4].lower() == '.ttf'], where [lower] is the [lower()] of a
    character. *)
Definition passes (lower : char -> char) (file : text_t) : bool :=
  text_eqb (map lower (but_last_four file)) ttf.

(** [add_directory(dir)]: the names that [os.listdir(dir)] returns are
    given. An exception that [add_file] raises ends the loop. *)
Fixpoint add_directory (lower : char -> char) (listing : list text_t)
    (log : list request) : option failure * list request :=
  match listing with
  | [] => (None, log)
  | file :: rest =>
      if passes lower file
      then match add_file file log with
           | (Some e, log) => (Some e, log)
           | (None, log) => add_directory lower rest log
           end
      else add_directory lower rest log
  end.

(** The names that a log shows were handed to [open], in order. *)
Fixpoint opened (log : list request) : list text_t :=
  match log with
  | [] => []
  | open_call font :: rest => font :: opened rest
  | add_font_data_call _ :: rest => opened rest
  end.

(** What [add_file] raises on a name. *)
Definition raised (font : text_t) : option failure :=
  fst (add_file font []).

End WithFontFiles.

(** *** Vocabulary of the statements about [load] *)

(** The descriptor that [load] looks up. *)
Definition wanted {font_class : FontClass} (name : name_arg) (size : Q)
    (bold italic : bool) : descriptor :=
  (match name with
   | Name n => n
   | Names l => first_known l
   end, size, bold, italic).

(** The fonts in the cache were made one after the other: no two have the
    same serial number or equal descriptors, and the next font to be made
    has a serial number of its own. *)
Fixpoint cache_ok (cache : list (descriptor * font_object)) (next : nat) : Prop :=
  match cache with
  | [] => True
  | (k, f) :: rest =>
      (serial f < next)%nat
      /\ cache_get rest k = None
      /\ Forall (fun e => serial (snd e) <> serial f) rest
      /\ cache_ok rest next
  end.

Definition space_ok (sp : space) : Prop :=
  match pyglet_font_font_cache sp with
  | Some cache => cache_ok cache (made sp)
  | None => True
  end.

(** The names that the filter of [add_directory] lets through: eight
    characters, the first four of them ".ttf" in either case. *)
Definition ttf_first (file : text_t) : Prop :=
  match file with
  | [c1; c2; c3; c4; _; _; _; _] =>
      c1 = 46%N /\ (c2 = 116%N \/ c2 = 84%N) /\ (c3 = 116%N \/ c3 = 84%N)
      /\ (c4 = 102%N \/ c4 = 70%N)
  | _ => False
  end.

(** What [lower()] does as far as the characters of ".ttf" go: only a dot
    gives a dot, only "t" and "T" give "t", only "f" and "F" give "f". *)
Definition lowers_ttf (lower : char -> char) : Prop :=
  (forall c, lower c = 46%N <-> c = 46%N)
  /\ (forall c, lower c = 116%N <-> (c = 116%N \/ c = 84%N))
  /\ (forall c, lower c = 102%N <-> (c = 102%N \/ c = 70%N)).

(** ASCII lower case. *)
Definition ascii_lower (c : char) : char :=
  if (65 <=? c)%N && (c <=? 90)%N then (c + 32)%N else c.

(** A working directory that holds the one file ".TtFabcd", and a
    platform that takes any font. *)
Definition one_file : FontFiles :=
  {| contents := unit;
     failure := unit;
     read_file := fun font =>
       if text_eqb font [46; 84; 116; 70; 97; 98; 99; 100]%N
       then inl tt else inr tt;
     add_font_data := fun _ => None |}.

(** A platform that knows the one family "Arial". *)
Definition arial_only : FontClass :=
  {| have_font := fun n => String.eqb n "Arial"%string |}.

End FontLoad.

(** * Properties *)

(** ** Running a method *)

Lemma bind_run {S A B : Type} (m : prog S A) (k : A -> prog S B) s a s' :
  m s = (Ok a, s') -> bind m k s = k a s'.
Proof. intros H. unfold bind. now rewrite H. Qed.

Lemma bind_raise {S A B : Type} (m : prog S A) (k : A -> prog S B) s e s' :
  m s = (Raise e, s') -> bind m k s = (Raise e, s').
Proof. intros H. unfold bind. now rewrite H. Qed.

Lemma finishes_ret {S A : Type} (a : A) : finishes (@ret S A a).
Proof. intros s. discriminate. Qed.

Lemma finishes_lift {S A : Type} (r : result A) :
  r <> Raise Unfinished -> finishes (@lift S A r).
Proof. intros H s. exact H. Qed.

Lemma finishes_gets {S A : Type} (f : S -> A) : finishes (gets f).
Proof. intros s. discriminate. Qed.

Lemma finishes_modify {S : Type} (f : S -> S) : finishes (modify f).
Proof. intros s. discriminate. Qed.

Lemma finishes_bind {S A B : Type} (m : prog S A) (k : A -> prog S B) :
  finishes m -> (forall a, finishes (k a)) -> finishes (bind m k).
Proof.
  intros Hm Hk s. unfold bind. specialize (Hm s).
  destruct (m s) as [[a|e] s']; simpl in *; [apply Hk|].
  intros E. apply Hm. inversion E. reflexivity.
Qed.

Lemma finishes_bind_lift {S A B : Type} (r : result A) (k : A -> prog S B) :
  r <> Raise Unfinished -> (forall a, r = Ok a -> finishes (k a)) ->
  finishes (bind (lift r) k).
Proof.
  intros Hr Hk s. unfold bind, lift. destruct r as [a|e]; simpl.
  - now apply Hk.
  - intros E. apply Hr. inversion E. reflexivity.
Qed.

Lemma finishes_when {S : Type} (b : bool) (m : prog S unit) :
  finishes m -> finishes (when b m).
Proof. destruct b; simpl; [trivial | intros; apply finishes_ret]. Qed.

(** ** Python subscripts *)

Lemma getitem_finishes {A : Type} (l : list A) (z : Z) :
  getitem l z <> Raise Unfinished.
Proof.
  unfold getitem. destruct (_ && _); [|discriminate].
  destruct (nth_error _ _); discriminate.
Qed.


Lemma getitem_nat {A : Type} (l : list A) (i : nat) (a : A) :
  nth_error l i = Some a -> getitem l (Z.of_nat i) = Ok a.
Proof.
  intros H. unfold getitem.
  assert (i < length l)%nat by (apply nth_error_Some; congruence).
  destruct (Z.ltb_spec (Z.of_nat i) 0); [lia|].
  destruct (Z.leb_spec 0 (Z.of_nat i)); [|lia].
  destruct (Z.ltb_spec (Z.of_nat i) (Z.of_nat (length l))); [|lia].
  simpl. rewrite Nat2Z.id, H. reflexivity.
Qed.

Lemma getitem_pred {A : Type} (l : list A) (i : nat) (a : A) :
  (0 < i)%nat -> nth_error l (i - 1) = Some a ->
  getitem l (Z.of_nat i - 1) = Ok a.
Proof.
  intros Hi H. replace (Z.of_nat i - 1) with (Z.of_nat (i - 1)) by lia.
  now apply getitem_nat.
Qed.

Lemma getitem_pred_inv {A : Type} (l : list A) (i : nat) (a : A) :
  (0 < i)%nat -> getitem l (Z.of_nat i - 1) = Ok a ->
  nth_error l (i - 1) = Some a.
Proof.
  intros Hi. unfold getitem.
  destruct (Z.ltb_spec (Z.of_nat i - 1) 0); [lia|].
  destruct (_ && _); [|discriminate].
  replace (Z.to_nat (Z.of_nat i - 1)) with (i - 1)%nat by lia.
  destruct (nth_error l (i - 1)); congruence.
Qed.

Lemma getitem_last {A : Type} (l : list A) (a : A) :
  getitem (l ++ [a]) (-1) = Ok a.
Proof.
  unfold getitem. rewrite length_app. simpl length.
  destruct (Z.ltb_spec (-1) 0); [|lia].
  destruct (Z.leb_spec 0 (-1 + Z.of_nat (length l + 1))); [|lia].
  destruct (Z.ltb_spec (-1 + Z.of_nat (length l + 1))
                       (Z.of_nat (length l + 1))); [|lia].
  cbn [andb].
  replace (Z.to_nat (-1 + Z.of_nat (length l + 1))) with (length l) by lia.
  rewrite nth_error_app2, Nat.sub_diag by lia. reflexivity.
Qed.

(** ** GlyphString *)

Module GlyphStringFacts.

Import GlyphString.

(** *** What [__init__] builds *)

Lemma quad_length x y g : length (quad x y g) = 20%nat.
Proof.
  unfold quad. destruct (vertices g) as [[[? ?] ?] ?].
  destruct (tex_coords g) as [[[? ?] ?] ?]. reflexivity.
Qed.

Lemma init_body_cum y i g s :
  l_cumulative_advance (init_body y i g s)
  = l_cumulative_advance s ++ [x s + advance g].
Proof. unfold init_body. destruct (negb _); reflexivity. Qed.

Lemma init_body_x y i g s : x (init_body y i g s) = x s + advance g.
Proof. unfold init_body. destruct (negb _); reflexivity. Qed.

Lemma init_body_lst y i g s :
  length (lst (init_body y i g s)) = (length (lst s) + 20)%nat.
Proof.
  unfold init_body. destruct (negb _); simpl;
    rewrite length_app, quad_length; reflexivity.
Qed.

Lemma init_loop_cum glyphs : forall y i s,
  l_cumulative_advance (init_loop y i glyphs s)
  = l_cumulative_advance s ++ running (x s) (map advance glyphs).
Proof.
  induction glyphs as [|g rest IH]; intros y i s; simpl.
  - now rewrite app_nil_r.
  - rewrite IH, init_body_cum, init_body_x, <- app_assoc. reflexivity.
Qed.

Lemma init_loop_x glyphs : forall y i s,
  x (init_loop y i glyphs s) = fold_left Z.add (map advance glyphs) (x s).
Proof.
  induction glyphs as [|g rest IH]; intros y i s; simpl; [reflexivity|].
  now rewrite IH, init_body_x.
Qed.

Lemma init_loop_lst glyphs : forall y i s,
  length (lst (init_loop y i glyphs s))
  = (length (lst s) + 20 * length glyphs)%nat.
Proof.
  induction glyphs as [|g rest IH]; intros y i s; simpl; [lia|].
  rewrite IH, init_body_lst. lia.
Qed.

Lemma cumulative_advance_running text glyphs x0 y :
  cumulative_advance (__init__ text glyphs x0 y)
  = running x0 (map advance glyphs).
Proof. unfold __init__. simpl. now rewrite init_loop_cum. Qed.

Lemma running_length advs : forall x0, length (running x0 advs) = length advs.
Proof. induction advs; intros; simpl; [|rewrite IHadvs]; reflexivity. Qed.

Lemma running_lower advs : forall x0 k a,
  Forall (fun d => 0 <= d) advs ->
  nth_error (running x0 advs) k = Some a -> x0 <= a.
Proof.
  induction advs as [|d rest IH]; intros x0 k a Hpos Hk.
  - destruct k; discriminate.
  - inversion Hpos; subst. destruct k as [|k]; simpl in Hk.
    + inversion Hk. lia.
    + apply IH in Hk; [lia | assumption].
Qed.

Lemma running_nondecreasing advs : forall x0,
  Forall (fun d => 0 <= d) advs -> nondecreasing (running x0 advs).
Proof.
  induction advs as [|d rest IH]; intros x0 Hpos i j a b Hij Hi Hj.
  - destruct i; discriminate.
  - inversion Hpos; subst. destruct i as [|i], j as [|j]; simpl in *.
    + inversion Hi; inversion Hj; lia.
    + inversion Hi; subst. now apply running_lower in Hj.
    + lia.
    + apply (IH (x0 + d) ltac:(assumption) i j a b); [lia | exact Hi | exact Hj].
Qed.

Lemma running_last advs : forall x0,
  advs <> [] ->
  getitem (running x0 advs) (-1) = Ok (fold_left Z.add advs x0).
Proof.
  induction advs as [|d rest IH] using rev_ind; intros x0 Hne; [congruence|].
  assert (Hsnoc : forall l x1, running x1 (l ++ [d])
                     = running x1 l ++ [fold_left Z.add (l ++ [d]) x1]).
  { induction l as [|e l IHl]; intros x1; simpl; [reflexivity|].
    now rewrite IHl. }
  rewrite Hsnoc. apply getitem_last.
Qed.

Lemma getitem_top {A : Type} (l : list A) :
  l <> [] -> getitem l (Z.of_nat (length l) - 1) = getitem l (-1).
Proof.
  intros Hne. destruct l as [|a l]; [congruence|].
  unfold getitem. set (n := Z.of_nat (length (a :: l))).
  assert (0 < n) by (subst n; simpl length; lia).
  destruct (Z.ltb_spec (n - 1) 0); [lia|].
  destruct (Z.ltb_spec (-1) 0); [|lia].
  now replace (-1 + n) with (n - 1) by lia.
Qed.

(** The scenario of the specification: advances 10 and 12 on one
    texture. *)
Example AB_scenario :
  cumulative_advance AB = [10; 22] /\ states AB = [(0, 2, Some 7)]%nat
  /\ width AB = 22 /\ length (array AB) = 40%nat.
Proof. repeat split; reflexivity. Qed.

(** C6. When the advances of the glyphs are non-negative (and there is
    one glyph per character), [cumulative_advance] is non-decreasing, is
    as long as the text, ends with the stored [width], and
    [get_subwidth(0, len(text))] is that [width] for a non-empty text. *)
Theorem cumulative_advance_invariant text glyphs x0 y :
  Forall (fun g => 0 <= advance g) glyphs ->
  length glyphs = length text ->
  let gs := __init__ text glyphs x0 y in
  nondecreasing (cumulative_advance gs)
  /\ length (cumulative_advance gs) = length (GlyphString.text gs)
  /\ (text <> [] -> getitem (cumulative_advance gs) (-1) = Ok (width gs))
  /\ (text <> [] -> get_subwidth gs 0 (length text) = Ok (width gs)).
Proof.
  intros Hpos Hlen gs.
  assert (Hcum : cumulative_advance gs = running x0 (map advance glyphs))
    by apply cumulative_advance_running.
  assert (Hw : width gs = fold_left Z.add (map advance glyphs) x0)
    by (unfold gs, __init__; simpl; now rewrite init_loop_x).
  assert (Hlast : text <> [] ->
            getitem (cumulative_advance gs) (-1) = Ok (width gs)).
  { intros Hne. rewrite Hcum, Hw. apply running_last.
    destruct glyphs; [destruct text; simpl in *; congruence | discriminate]. }
  assert (Hsize : length (cumulative_advance gs) = length text)
    by (rewrite Hcum, running_length, length_map; exact Hlen).
  repeat split.
  - rewrite Hcum. apply running_nondecreasing.
    rewrite Forall_map. exact Hpos.
  - exact Hsize.
  - exact Hlast.
  - intros Hne. unfold get_subwidth. rewrite <- Hsize.
    rewrite getitem_top, (Hlast Hne); [reflexivity|].
    intros E. rewrite E in Hsize. destruct text; simpl in *; congruence.
Qed.

Lemma cumulative_advance_invariant_witness :
  nondecreasing (cumulative_advance AB)
  /\ length (cumulative_advance AB) = length (GlyphString.text AB)
  /\ getitem (cumulative_advance AB) (-1) = Ok (width AB)
  /\ get_subwidth AB 0 2 = Ok (width AB).
Proof.
  destruct (cumulative_advance_invariant [65; 66]%N
    [mkGlyph 10 (0, 0, 8, 12) ((0, 0), (1, 0), (1, 1), (0, 1)) (Some 7%nat);
     mkGlyph 12 (0, 0, 9, 12) ((1, 0), (2, 0), (2, 1), (1, 1)) (Some 7%nat)]
    0 0) as (H1 & H2 & H3 & H4).
  - repeat constructor; simpl; lia.
  - reflexivity.
  - split; [exact H1 | split; [exact H2 | split; [apply H3 | apply H4]]];
      discriminate.
Defined.

(** *** The texture runs *)

Lemma tiles_app a l b : tiles a l b -> forall l' c,
  tiles b l' c -> tiles a (l ++ l') c.
Proof.
  induction 1 as [a | a n tex rest b _ IH]; intros l' c H'; simpl.
  - exact H'.
  - constructor. now apply IH.
Qed.

Lemma tiles_bounds a l b : tiles a l b ->
  (a <= b)%nat /\ Forall (fun st => (a <= run_start st)%nat) l.
Proof.
  induction 1 as [a | a n tex rest b _ [IHle IHall]].
  - split; [lia | constructor].
  - split; [lia|]. constructor; [unfold run_start; simpl; lia|].
    eapply Forall_impl; [|exact IHall]. simpl. intros; lia.
Qed.

Lemma tiles_cover a l b : tiles a l b ->
  concat (map run_glyphs l) = seq a (b - a).
Proof.
  induction 1 as [a | a n tex rest b H IH]; simpl.
  - now rewrite Nat.sub_diag.
  - apply tiles_bounds in H as [Hle _].
    rewrite IH. replace (b - a)%nat with (n + (b - (a + n)))%nat by lia.
    now rewrite seq_app.
Qed.

Lemma tiles_ordered a l b : tiles a l b ->
  Forall (fun st => (0 < run_length st)%nat) (removelast l) ->
  StronglySorted lt (map run_start l).
Proof.
  induction 1 as [a | a n tex rest b H IH]; intros Hpos; simpl.
  - constructor.
  - destruct rest as [|st rest'].
    + repeat constructor.
    + change (removelast ((a, n, tex) :: st :: rest'))
        with ((a, n, tex) :: removelast (st :: rest')) in Hpos.
      inversion Hpos as [|? ? Hn Hrest]; subst. unfold run_length in Hn.
      simpl in Hn. constructor; [now apply IH|].
      apply tiles_bounds in H as [_ Hall]. rewrite Forall_map.
      eapply Forall_impl; [|exact Hall]. unfold run_start. simpl. intros; lia.
Qed.

Lemma init_body_runs y i g s :
  runs_inv i s -> runs_inv (S i) (init_body y i g s).
Proof.
  intros (Ht & Hi & Hpos). unfold runs_inv, init_body.
  destruct (negb (owner_eqb (owner g) (texture s))); simpl.
  - unfold truthy. destruct (Nat.eqb_spec (state_length s) 0) as [E|E]; simpl.
    + replace i with (state_from s) by lia. repeat split; [exact Ht | lia | exact Hpos].
    + repeat split; [|lia|].
      * rewrite <- Hi. eapply tiles_app; [exact Ht|].
        constructor. constructor.
      * apply Forall_app. split; [exact Hpos|].
        constructor; [unfold run_length; simpl; lia | constructor].
  - repeat split; [exact Ht | lia | exact Hpos].
Qed.

Lemma init_loop_runs glyphs : forall y i s,
  runs_inv i s -> runs_inv (i + length glyphs) (init_loop y i glyphs s).
Proof.
  induction glyphs as [|g rest IH]; intros y i s H; simpl.
  - now rewrite Nat.add_0_r.
  - replace (i + S (length rest))%nat with (S i + length rest)%nat by lia.
    apply IH. now apply init_body_runs.
Qed.

(** C7. The texture runs of a glyph string tile the glyph indices: each
    starts where the one before it stops, the first at 0 and the last
    stopping at [len(glyphs)]; listed one after the other their glyphs are
    0, 1, ..., len(glyphs) - 1, each once; their starts increase; and the
    vertex array has 20 entries for each glyph. No assumption is made on
    the glyphs, which may be none at all. *)
Theorem states_partition text glyphs x0 y :
  let gs := __init__ text glyphs x0 y in
  let n := length glyphs in
  tiles 0 (states gs) n
  /\ concat (map run_glyphs (states gs)) = seq 0 n
  /\ StronglySorted lt (map run_start (states gs))
  /\ length (array gs) = (20 * n)%nat.
Proof.
  intros gs n.
  pose (s := init_loop y 0 glyphs (mkLocals [] None [] [] 0 0 x0)).
  assert (Hinv : runs_inv n s).
  { apply (init_loop_runs glyphs y 0%nat).
    repeat split; simpl; constructor. }
  destruct Hinv as (Ht & Hn & Hpos).
  assert (Htiles : tiles 0 (states gs) n).
  { unfold gs, __init__. simpl. fold s. eapply tiles_app; [exact Ht|].
    rewrite <- Hn. constructor. constructor. }
  repeat split.
  - exact Htiles.
  - rewrite (tiles_cover _ _ _ Htiles). now rewrite Nat.sub_0_r.
  - apply (tiles_ordered _ _ _ Htiles).
    unfold gs, __init__. simpl. fold s. now rewrite removelast_last.
  - unfold gs, __init__. simpl. rewrite init_loop_lst. simpl. reflexivity.
Qed.

(** Without glyphs there is the one, empty run that [__init__] closes
    after its loop. *)
Example states_of_nothing text x0 y :
  states (__init__ text [] x0 y) = [(0, 0, None)]%nat.
Proof. reflexivity. Qed.

(** *** The break search *)

Lemma within_tail limit p l k :
  within limit (p :: l) (S k) -> within limit l k.
Proof.
  intros H m c w Hm Hn. apply (H (S m) c w); [lia | exact Hn].
Qed.

Lemma within_cons limit c w l k :
  w <= limit -> within limit l k -> within limit ((c, w) :: l) (S k).
Proof.
  intros Hw H m c' w' Hm Hn. destruct m as [|m]; simpl in Hn.
  - inversion Hn; subst. exact Hw.
  - apply (H m c' w'); [lia | exact Hn].
Qed.

Lemma within_head limit c w l k :
  within limit ((c, w) :: l) k -> w <= limit.
Proof. intros H. apply (H 0%nat c w); [lia | reflexivity]. Qed.

Lemma break_loop_outcome from_index limit l : forall to_index i,
  outcome from_index limit l to_index i
          (break_loop from_index limit to_index i l).
Proof.
  induction l as [|[c w] rest IH]; intros to_index i; simpl.
  - apply no_break; [reflexivity|]. intros [|k]; discriminate.
  - destruct (Z.ltb_spec limit w) as [Hover|Hfit].
    { apply no_break; [reflexivity|]. intros k c' w' _ Hk.
      apply within_head in Hk. lia. }
    assert (H0 : within limit ((c, w) :: rest) 0).
    { intros [|m] c' w' Hm Hn; [|lia]. inversion Hn; subst; exact Hfit. }
    destruct (N.eqb_spec c NEWLINE) as [Hnl|Hnl].
    { apply (break_at _ _ _ _ _ _ 0%nat c w);
        [reflexivity | exact H0 | | lia | intros; lia | congruence].
      unfold is_break. subst c. reflexivity. }
    destruct (is_space c) eqn:Hsp.
    + destruct (IH (i + from_index + 1)%nat (S i))
        as [Hr Hnone | k c1 w1 Hk Hin Hbr Hr Hbefore Hafter].
      * apply (break_at _ _ _ _ _ _ 0%nat c w);
          [reflexivity | exact H0 | | lia | intros; lia | ].
        -- unfold is_break. now rewrite Hsp, orb_true_r.
        -- intros _ [|m] c' w' Hm Hn Hw; [lia|]. simpl in Hn.
           apply (Hnone m c' w' Hn). now apply within_tail in Hw.
      * apply (break_at _ _ _ _ _ _ (S k) c1 w1);
          [exact Hk | now apply within_cons | exact Hbr | lia | | ].
        -- intros [|m] c' w' Hm Hn; simpl in Hn.
           ++ inversion Hn; subst; exact Hnl.
           ++ apply (Hbefore m c' w'); [lia | exact Hn].
        -- intros Hc [|m] c' w' Hm Hn Hw; [lia|]. simpl in Hn.
           apply (Hafter Hc m c' w'); [lia | exact Hn |].
           now apply within_tail in Hw.
    + assert (Hc : is_break c = false).
      { unfold is_break. rewrite Hsp.
        destruct (N.eqb_spec c NEWLINE); [contradiction | reflexivity]. }
      destruct (IH to_index (S i))
        as [Hr Hnone | k c1 w1 Hk Hin Hbr Hr Hbefore Hafter].
      * apply no_break; [exact Hr|]. intros [|k] c' w' Hn Hw; simpl in Hn.
        -- inversion Hn; subst; exact Hc.
        -- apply (Hnone k c' w' Hn). now apply within_tail in Hw.
      * apply (break_at _ _ _ _ _ _ (S k) c1 w1);
          [exact Hk | now apply within_cons | exact Hbr | lia | | ].
        -- intros [|m] c' w' Hm Hn; simpl in Hn.
           ++ inversion Hn; subst; exact Hnl.
           ++ apply (Hbefore m c' w'); [lia | exact Hn].
        -- intros Hc1 [|m] c' w' Hm Hn Hw; [lia|]. simpl in Hn.
           apply (Hafter Hc1 m c' w'); [lia | exact Hn |].
           now apply within_tail in Hw.
Qed.

Lemma nth_error_combine {A B : Type} (l1 : list A) : forall (l2 : list B) k a b,
  nth_error (combine l1 l2) k = Some (a, b)
  <-> nth_error l1 k = Some a /\ nth_error l2 k = Some b.
Proof.
  induction l1 as [|a1 l1 IH]; intros [|b1 l2] [|k] a b; simpl;
    try (split; [discriminate | intros [? ?]; discriminate]).
  - split; [intros H; inversion H; auto | intros [H1 H2]; congruence].
  - apply IH.
Qed.

Lemma zipped_nth gs from_index k c w :
  nth_error (zipped gs from_index) k = Some (c, w)
  <-> nth_error (text gs) (from_index + k) = Some c
      /\ nth_error (cumulative_advance gs) (from_index + k) = Some w.
Proof.
  unfold zipped. rewrite nth_error_combine, !nth_error_skipn. reflexivity.
Qed.

Lemma get_break_index_eq gs from_index width :
  get_break_index gs from_index width
  = if (length (text gs) <=? from_index)%nat then Ok from_index
    else let? b := base gs from_index in
         Ok (break_loop from_index (width + b) from_index 0
                        (zipped gs from_index)).
Proof.
  unfold get_break_index, base, zipped.
  destruct (length (text gs) <=? from_index)%nat; [reflexivity|].
  destruct (truthy from_index); simpl.
  - destruct (getitem _ _); reflexivity.
  - now rewrite Z.add_0_r.
Qed.

Lemma get_subwidth_eq gs from_index to_index :
  get_subwidth gs from_index to_index
  = let? w := getitem (cumulative_advance gs) (Z.of_nat to_index - 1) in
    let? b := base gs from_index in Ok (w - b).
Proof.
  unfold get_subwidth, base.
  destruct (getitem _ (Z.of_nat to_index - 1)); simpl; [|reflexivity].
  destruct (truthy from_index); simpl; [reflexivity|].
  now rewrite Z.sub_0_r.
Qed.

(** The width up to and including the character at [m]. *)
Lemma get_subwidth_upto gs from_index m w b :
  nth_error (cumulative_advance gs) m = Some w ->
  base gs from_index = Ok b ->
  get_subwidth gs from_index (S m) = Ok (w - b).
Proof.
  intros Hw Hb. rewrite get_subwidth_eq.
  replace (Z.of_nat (S m) - 1) with (Z.of_nat m) by lia.
  rewrite (getitem_nat _ _ _ Hw). simpl. now rewrite Hb.
Qed.

Lemma get_break_index_cases gs from_index width r :
  get_break_index gs from_index width = Ok r ->
  ((length (text gs) <= from_index)%nat /\ r = from_index)
  \/ ((from_index < length (text gs))%nat
      /\ exists b, base gs from_index = Ok b
           /\ outcome from_index (width + b) (zipped gs from_index)
                      from_index 0 r).
Proof.
  rewrite get_break_index_eq.
  destruct (Nat.leb_spec (length (text gs)) from_index) as [Hle|Hlt].
  - intros H. left. split; [exact Hle | congruence].
  - destruct (base gs from_index) as [b|e] eqn:Hb; simpl; [|discriminate].
    intros H. inversion H. right. split; [exact Hlt|].
    exists b. split; [reflexivity|]. apply break_loop_outcome.
Qed.

(** The scenario of the specification: each character advances by 10 and
    the space is at index 5. *)
Example hello_world_scenario :
  get_break_index hello_world 0 15 = Ok 0%nat
  /\ get_break_index hello_world 0 59 = Ok 0%nat
  /\ get_break_index hello_world 0 60 = Ok 6%nat
  /\ get_break_index hello_world 0 1000 = Ok 6%nat
  /\ get_break_index hello_world 11 15 = Ok 11%nat.
Proof. repeat split; reflexivity. Qed.

(** C2 as stated fails: the index returned need not be the largest one
    whose substring fits. All of "ab" is 20 wide and fits 100, yet the
    search returns 0 since no break character was met. *)
Lemma get_break_index_not_largest_fit :
  ~ (forall gs i W r, get_break_index gs i W = Ok r ->
       forall j w, (i <= j <= length (text gs))%nat ->
                   get_subwidth gs i j = Ok w -> w <= W -> (j <= r)%nat).
Proof.
  intros H.
  assert (Habs : (2 <= 0)%nat).
  { apply (H ab 0%nat 100 0%nat eq_refl 2%nat 20).
    - simpl. lia.
    - reflexivity.
    - lia. }
  lia.
Qed.

(** *** Widths of slices *)

(** C5 as stated fails: [get_subwidth(0, 0)] on the non-empty "AB"
    raises nothing and returns the full width, and [get_subwidth(2, 1)]
    returns a negative width. *)
Lemma get_subwidth_accepts_empty_range :
  get_subwidth AB 0 0 = Ok 22 /\ get_subwidth AB 2 1 = Ok (-12).
Proof. split; reflexivity. Qed.

Example get_subwidth_of_nothing text x0 y from_index :
  get_subwidth (__init__ text [] x0 y) from_index 0 = Raise IndexError.
Proof. reflexivity. Qed.

(** *** Calls that cannot fail *)

Lemma getitem_defined {A : Type} (l : list A) (z : Z) :
  - Z.of_nat (length l) <= z < Z.of_nat (length l) ->
  exists a, getitem l z = Ok a.
Proof.
  intros Hz. unfold getitem.
  set (j := if z <? 0 then z + Z.of_nat (length l) else z).
  assert (Hj : 0 <= j < Z.of_nat (length l))
    by (subst j; destruct (Z.ltb_spec z 0); lia).
  destruct (Z.leb_spec 0 j); [|lia].
  destruct (Z.ltb_spec j (Z.of_nat (length l))); [|lia]. simpl.
  destruct (nth_error l (Z.to_nat j)) as [a|] eqn:E; [eauto|].
  apply nth_error_None in E. lia.
Qed.

Lemma base_defined gs from_index :
  (from_index <= length (cumulative_advance gs))%nat ->
  exists b, base gs from_index = Ok b.
Proof.
  intros H. unfold base, truthy.
  destruct (Nat.eqb_spec from_index 0); simpl; [eauto|].
  apply getitem_defined. lia.
Qed.

Lemma get_subwidth_defined gs from_index to_index :
  cumulative_advance gs <> [] ->
  (from_index <= length (cumulative_advance gs))%nat ->
  (to_index <= length (cumulative_advance gs))%nat ->
  exists w, get_subwidth gs from_index to_index = Ok w.
Proof.
  intros Hne Hf Ht. rewrite get_subwidth_eq.
  destruct (getitem_defined (cumulative_advance gs) (Z.of_nat to_index - 1))
    as [w Hw].
  { destruct (cumulative_advance gs); [congruence | simpl length in *; lia]. }
  destruct (base_defined gs from_index Hf) as [b Hb].
  rewrite Hw, Hb. simpl. eauto.
Qed.

Lemma get_break_index_defined gs i W :
  length (cumulative_advance gs) = length (text gs) ->
  exists r, get_break_index gs i W = Ok r
            /\ (i <= r)%nat /\ ((i < r)%nat -> (r <= length (text gs))%nat).
Proof.
  intros Hsize. rewrite get_break_index_eq.
  destruct (Nat.leb_spec (length (text gs)) i) as [Hle|Hlt].
  { exists i. repeat split; lia. }
  destruct (base_defined gs i ltac:(lia)) as [b Hb]. rewrite Hb. simpl.
  eexists. split; [reflexivity|].
  destruct (break_loop_outcome i (W + b) (zipped gs i) i 0)
    as [Hr _ | k c w Hk _ _ Hr _ _]; rewrite Hr.
  - split; [lia | intros; lia].
  - apply zipped_nth in Hk as [Hc _].
    assert (i + k < length (text gs))%nat by (apply nth_error_Some; congruence).
    split; [lia | intros; lia].
Qed.

(** *** What [draw] sends to OpenGL *)

Lemma emits_ret {A : Type} (a : A) : emits (ret a).
Proof.
  exists (Ok a), []. split; [|constructor].
  intros log. unfold ret. now rewrite app_nil_r.
Qed.

Lemma emits_lift {A : Type} (r : result A) : emits (lift r).
Proof.
  exists r, []. split; [|constructor].
  intros log. unfold lift. now rewrite app_nil_r.
Qed.

Lemma emits_gl e : is_get_glyphs e = false -> emits (gl e).
Proof.
  intros He. exists (Ok tt), [e]. split; [reflexivity|].
  constructor; [exact He | constructor].
Qed.

Lemma emits_bind {A B : Type} (m : prog (list event) A) (k : A -> prog (list event) B) :
  emits m -> (forall a, emits (k a)) -> emits (bind m k).
Proof.
  intros (r & g & Hm & Hg) Hk. destruct r as [a|e].
  - destruct (Hk a) as (r' & g' & Hk' & Hg').
    exists r', (g ++ g'). split; [|now apply Forall_app].
    intros log. unfold bind. now rewrite Hm, Hk', app_assoc.
  - exists (Raise e), g. split; [|exact Hg].
    intros log. unfold bind. now rewrite Hm.
Qed.

Lemma emits_when (b : bool) (m : prog (list event) unit) :
  emits m -> emits (when b m).
Proof. destruct b; simpl; [trivial | intros; apply emits_ret]. Qed.

Lemma draw_states_emits from_index to_index l :
  emits (draw_states from_index to_index l).
Proof.
  induction l as [|[[sf sl] tex] rest IH]; simpl; [apply emits_ret|].
  destruct (sf + sl <? from_index)%nat; [exact IH|].
  destruct (Z.min _ _ <=? 0); [apply emits_ret|].
  destruct tex as [id|]; [|apply emits_lift].
  apply emits_bind; [now apply emits_gl | intros _].
  apply emits_bind; [now apply emits_gl | intros _]. exact IH.
Qed.

Lemma draw_emits gs from_index to_index : emits (draw gs from_index to_index).
Proof.
  unfold draw. destruct (_ || _ || _); [apply emits_ret|].
  apply emits_bind; [apply emits_lift | intros st0].
  apply emits_bind.
  { destruct (snd st0); [now apply emits_gl | apply emits_lift]. }
  intros _. apply emits_bind.
  { apply emits_when. apply emits_bind; [now apply emits_gl | intros _].
    apply emits_bind; [apply emits_lift | intros c]. now apply emits_gl. }
  intros _. apply emits_bind; [now apply emits_gl | intros _].
  apply emits_bind; [now apply emits_gl | intros _].
  apply emits_bind; [apply draw_states_emits | intros _].
  apply emits_bind; [now apply emits_gl | intros _].
  apply emits_when. now apply emits_gl.
Qed.

End GlyphStringFacts.

(** ** GlyphString over any numbers *)

Module NumericFacts.

Import Numeric.

(** *** The integer case is the model of the class *)

Lemma integer_break_loop from_index width l : forall to_index i,
  GlyphString.break_loop from_index width to_index i l
  = break_loop (num := integer) from_index width to_index i l.
Proof.
  induction l as [|[c w] rest IH]; intros to_index i; simpl; [reflexivity|].
  now rewrite !IH.
Qed.

Lemma integer_get_break_index gs from_index width :
  GlyphString.get_break_index gs from_index width
  = get_break_index (num := integer) (GlyphString.text gs)
      (GlyphString.cumulative_advance gs) from_index width.
Proof.
  unfold GlyphString.get_break_index, get_break_index.
  destruct (length (GlyphString.text gs) <=? from_index)%nat; [reflexivity|].
  destruct (truthy from_index); simpl.
  - destruct (getitem _ _); simpl; [|reflexivity].
    now rewrite integer_break_loop.
  - now rewrite integer_break_loop.
Qed.

Lemma integer_get_subwidth gs from_index to_index :
  GlyphString.get_subwidth gs from_index to_index
  = get_subwidth (num := integer) (GlyphString.cumulative_advance gs)
      from_index to_index.
Proof. reflexivity. Qed.

Lemma integer_init_loop y glyphs : forall i s,
  GlyphString.l_cumulative_advance (GlyphString.init_loop y i glyphs s)
  = GlyphString.l_cumulative_advance s
    ++ cumulative (num := integer) (GlyphString.x s)
         (map GlyphString.advance glyphs).
Proof.
  induction glyphs as [|g rest IH]; intros i s; simpl.
  - now rewrite app_nil_r.
  - rewrite IH. unfold GlyphString.init_body.
    destruct (negb _); simpl; now rewrite <- app_assoc.
Qed.

Lemma integer_cumulative text glyphs x y :
  GlyphString.cumulative_advance (GlyphString.__init__ text glyphs x y)
  = cumulative (num := integer) x (map GlyphString.advance glyphs).
Proof. unfold GlyphString.__init__. simpl. now rewrite integer_init_loop. Qed.

Lemma integer_comparison : comparison_exact (num := integer).
Proof.
  intros a b c. simpl.
  destruct (Z.ltb_spec (b + c) a), (Z.ltb_spec b (a - c)); lia || reflexivity.
Qed.

Lemma integer_sums : sums_exact (num := integer).
Proof. repeat split; intros; simpl; lia. Qed.

Lemma getitem_raises {A : Type} (l : list A) (z : Z) (e : exc) :
  getitem l z = Raise e ->
  e = IndexError
  /\ (z < - Z.of_nat (length l) \/ Z.of_nat (length l) <= z).
Proof.
  unfold getitem. set (n := Z.of_nat (length l)).
  set (j := if z <? 0 then z + n else z).
  assert (Hj : j = z + n /\ z < 0 \/ j = z /\ 0 <= z)
    by (subst j; destruct (Z.ltb_spec z 0); lia).
  destruct (Z.leb_spec 0 j); destruct (Z.ltb_spec j n); cbn [andb].
  - destruct (nth_error l (Z.to_nat j)) eqn:E; [discriminate|].
    apply nth_error_None in E. lia.
  - intros He. inversion He. split; [reflexivity | lia].
  - intros He. inversion He. split; [reflexivity | lia].
  - intros He. inversion He. split; [reflexivity | lia].
Qed.

Section WithNumber.

Context {R : Type} {num : Number R}.

(** *** The table *)

Lemma cumulative_length (advances : list R) : forall x,
  length (cumulative x advances) = length advances.
Proof.
  induction advances as [|a rest IH]; intros x; simpl; [reflexivity|].
  now rewrite IH.
Qed.

(** *** The break search *)

Lemma within_rest l0 p (l : list (char * R)) k :
  within l0 (p :: l) (S k) -> within l0 l k.
Proof.
  intros H m c w Hm Hn. apply (H (S m) c w); [lia | exact Hn].
Qed.

Lemma within_more l0 c w (l : list (char * R)) k :
  greater w l0 = false -> within l0 l k -> within l0 ((c, w) :: l) (S k).
Proof.
  intros Hw H m c' w' Hm Hn. destruct m as [|m]; simpl in Hn.
  - inversion Hn; subst. exact Hw.
  - apply (H m c' w'); [lia | exact Hn].
Qed.

Lemma within_first l0 c w (l : list (char * R)) k :
  within l0 ((c, w) :: l) k -> greater w l0 = false.
Proof. intros H. apply (H 0%nat c w); [lia | reflexivity]. Qed.

Lemma loop_outcome from_index l0 (l : list (char * R)) : forall to_index i,
  outcome from_index l0 l to_index i
          (break_loop from_index l0 to_index i l).
Proof.
  induction l as [|[c w] rest IH]; intros to_index i; simpl.
  - apply no_break; [reflexivity|]. intros [|k]; discriminate.
  - destruct (greater w l0) eqn:Hfit.
    { apply no_break; [reflexivity|]. intros k c' w' _ Hk.
      apply within_first in Hk. congruence. }
    assert (H0 : within l0 ((c, w) :: rest) 0).
    { intros [|m] c' w' Hm Hn; [|lia]. inversion Hn; subst; exact Hfit. }
    destruct (N.eqb_spec c NEWLINE) as [Hnl|Hnl].
    { apply (break_at _ _ _ _ _ _ 0%nat c w);
        [reflexivity | exact H0 | | lia | intros; lia | congruence].
      unfold GlyphString.is_break. subst c. reflexivity. }
    destruct (GlyphString.is_space c) eqn:Hsp.
    + destruct (IH (i + from_index + 1)%nat (S i))
        as [Hr Hnone | k c1 w1 Hk Hin Hbr Hr Hbefore Hafter].
      * apply (break_at _ _ _ _ _ _ 0%nat c w);
          [reflexivity | exact H0 | | lia | intros; lia | ].
        -- unfold GlyphString.is_break. now rewrite Hsp, orb_true_r.
        -- intros _ [|m] c' w' Hm Hn Hw; [lia|]. simpl in Hn.
           apply (Hnone m c' w' Hn). now apply within_rest in Hw.
      * apply (break_at _ _ _ _ _ _ (S k) c1 w1);
          [exact Hk | now apply within_more | exact Hbr | lia | | ].
        -- intros [|m] c' w' Hm Hn; simpl in Hn.
           ++ inversion Hn; subst; exact Hnl.
           ++ apply (Hbefore m c' w'); [lia | exact Hn].
        -- intros Hc [|m] c' w' Hm Hn Hw; [lia|]. simpl in Hn.
           apply (Hafter Hc m c' w'); [lia | exact Hn |].
           now apply within_rest in Hw.
    + assert (Hc : GlyphString.is_break c = false).
      { unfold GlyphString.is_break. rewrite Hsp.
        destruct (N.eqb_spec c NEWLINE); [contradiction | reflexivity]. }
      destruct (IH to_index (S i))
        as [Hr Hnone | k c1 w1 Hk Hin Hbr Hr Hbefore Hafter].
      * apply no_break; [exact Hr|]. intros [|k] c' w' Hn Hw; simpl in Hn.
        -- inversion Hn; subst; exact Hc.
        -- apply (Hnone k c' w' Hn). now apply within_rest in Hw.
      * apply (break_at _ _ _ _ _ _ (S k) c1 w1);
          [exact Hk | now apply within_more | exact Hbr | lia | | ].
        -- intros [|m] c' w' Hm Hn; simpl in Hn.
           ++ inversion Hn; subst; exact Hnl.
           ++ apply (Hbefore m c' w'); [lia | exact Hn].
        -- intros Hc1 [|m] c' w' Hm Hn Hw; [lia|]. simpl in Hn.
           apply (Hafter Hc1 m c' w'); [lia | exact Hn |].
           now apply within_rest in Hw.
Qed.

Lemma zipped_at text (cum : list R) from_index k c w :
  nth_error (zipped text cum from_index) k = Some (c, w)
  <-> nth_error text (from_index + k) = Some c
      /\ nth_error cum (from_index + k) = Some w.
Proof.
  unfold zipped.
  rewrite GlyphStringFacts.nth_error_combine, !nth_error_skipn. reflexivity.
Qed.

Lemma get_break_index_limit text (cum : list R) from_index width :
  get_break_index text cum from_index width
  = if (length text <=? from_index)%nat then Ok from_index
    else let? l := limit cum from_index width in
         Ok (break_loop from_index l from_index 0
                        (zipped text cum from_index)).
Proof. reflexivity. Qed.

Lemma get_break_index_outcome text (cum : list R) from_index width r :
  get_break_index text cum from_index width = Ok r ->
  ((length text <= from_index)%nat /\ r = from_index)
  \/ ((from_index < length text)%nat
      /\ exists l, limit cum from_index width = Ok l
           /\ outcome from_index l (zipped text cum from_index)
                      from_index 0 r).
Proof.
  rewrite get_break_index_limit.
  destruct (Nat.leb_spec (length text) from_index) as [Hle|Hlt].
  - intros H. left. split; [exact Hle | congruence].
  - destruct (limit cum from_index width) as [l|e] eqn:Hl; simpl;
      [|discriminate].
    intros H. inversion H. right. split; [exact Hlt|].
    exists l. split; [reflexivity|]. apply loop_outcome.
Qed.

Lemma limit_defined (cum : list R) from_index width :
  (from_index <= length cum)%nat ->
  exists l, limit cum from_index width = Ok l.
Proof.
  intros Hle. unfold limit, truthy.
  destruct (Nat.eqb_spec from_index 0); simpl; [eauto|].
  destruct (nth_error cum (from_index - 1)) as [b|] eqn:E.
  - exists (plus width b).
    now rewrite (getitem_pred cum from_index b ltac:(lia) E).
  - apply nth_error_None in E. lia.
Qed.

(** Pairs within the limit are characters that pass the test of the
    loop, and the other way round. *)
Lemma within_not_exceeds text (cum : list R) from_index width l k c w :
  limit cum from_index width = Ok l ->
  nth_error (zipped text cum from_index) k = Some (c, w) ->
  within l (zipped text cum from_index) k ->
  forall m, (from_index <= m <= from_index + k)%nat ->
            ~ exceeds cum from_index width m.
Proof.
  intros Hl Hk Hin m Hm (w' & l' & Hw' & Hl' & Hgt).
  rewrite Hl in Hl'. inversion Hl'; subst l'.
  assert (Hlen : (k < length (zipped text cum from_index))%nat)
    by (apply nth_error_Some; congruence).
  destruct (nth_error (zipped text cum from_index) (m - from_index))
    as [[c1 w1]|] eqn:E.
  - assert (Hle : greater w1 l = false)
      by (apply (Hin (m - from_index)%nat c1 w1); [lia | exact E]).
    apply zipped_at in E as [_ Hw1].
    replace (from_index + (m - from_index))%nat with m in Hw1 by lia.
    congruence.
  - apply nth_error_None in E. lia.
Qed.

Lemma not_exceeds_within text (cum : list R) from_index width l k :
  limit cum from_index width = Ok l ->
  (forall m, (from_index <= m <= from_index + k)%nat ->
             ~ exceeds cum from_index width m) ->
  within l (zipped text cum from_index) k.
Proof.
  intros Hl Hno m c w Hm Hn. apply zipped_at in Hn as [_ Hw].
  destruct (greater w l) eqn:Hgt; [|reflexivity].
  exfalso. apply (Hno (from_index + m)%nat); [lia|].
  exists w, l. now repeat split.
Qed.

(** *** Widths of slices *)

(** The width up to and including the character at [m], measured from
    the start and from an index beyond it. *)
Lemma get_subwidth_to (cum : list R) m w :
  nth_error cum m = Some w ->
  get_subwidth cum 0 (S m) = Ok w.
Proof.
  intros Hw. unfold get_subwidth.
  replace (Z.of_nat (S m) - 1) with (Z.of_nat m) by lia.
  now rewrite (getitem_nat _ _ _ Hw).
Qed.

Lemma get_subwidth_between (cum : list R) from_index m w b :
  (0 < from_index)%nat ->
  nth_error cum m = Some w ->
  nth_error cum (from_index - 1) = Some b ->
  get_subwidth cum from_index (S m) = Ok (minus w b).
Proof.
  intros Hpos Hw Hb. unfold get_subwidth, truthy.
  replace (Z.of_nat (S m) - 1) with (Z.of_nat m) by lia.
  rewrite (getitem_nat _ _ _ Hw). simpl.
  destruct (Nat.eqb_spec from_index 0); [lia|]. simpl.
  now rewrite (getitem_pred cum from_index b Hpos Hb).
Qed.

Lemma total_append (l1 l2 : list R) :
  sums_exact -> l1 <> [] ->
  total (l1 ++ l2) = plus (total l1) (total l2).
Proof.
  intros (Hassoc & Hzero & _) Hne.
  induction l1 as [|a l1 IH]; [congruence|].
  destruct l1 as [|a' l1].
  - simpl. now rewrite Hzero.
  - change (plus a (total ((a' :: l1) ++ l2))
            = plus (plus a (total (a' :: l1))) (total l2)).
    rewrite IH by discriminate. now rewrite Hassoc.
Qed.

(** The entry at [m] of the table is the origin plus the advances up to
    and including the one at [m]. *)
Lemma cumulative_nth (advances : list R) :
  sums_exact ->
  forall x m, (m < length advances)%nat ->
  nth_error (cumulative x advances) m
  = Some (plus x (total (firstn (S m) advances))).
Proof.
  intros (Hassoc & Hzero & Hcancel).
  induction advances as [|a rest IH]; intros x m Hm; simpl in Hm; [lia|].
  destruct m as [|m].
  - simpl. now rewrite Hzero.
  - change (nth_error (cumulative (plus x a) rest) m
            = Some (plus x (plus a (total (firstn (S m) rest))))).
    rewrite IH by lia. now rewrite Hassoc.
Qed.

(** *** The claims about widths *)

(** C1, amended. An index that [get_break_index(i, W)] returns beyond
    [i] ends a substring none of whose characters has a cumulative
    advance greater than [W + cumulative_advance[i-1]] ([W] itself when
    [i] is 0), which is what the loop compares. When [i] is 0, or when
    moving a term across the comparison changes nothing, as with
    integers, the width of that substring as [get_subwidth] measures it
    is then not greater than [W]. And when no space, zero-width space or
    newline comes before the first character that fails the comparison,
    the index returned is [i]. *)
Theorem get_break_index_within text cum i W r :
  get_break_index text cum i W = Ok r ->
  ((i < r)%nat ->
   (forall m, (i <= m < r)%nat -> ~ exceeds cum i W m)
   /\ (i = 0%nat \/ comparison_exact ->
       exists w, get_subwidth cum i r = Ok w /\ greater w W = false))
  /\ ((forall k c, (i <= k)%nat -> nth_error text k = Some c ->
         (forall m, (i <= m <= k)%nat -> ~ exceeds cum i W m) ->
         GlyphString.is_break c = false) ->
      r = i).
Proof.
  intros H. apply get_break_index_outcome in H.
  destruct H as [[Hlen Hr] | (Hlt & l & Hl & Hout)].
  { split; [intros; lia | intros; exact Hr]. }
  destruct Hout as [Hr Hnone | k c w Hk Hin Hbr Hr Hbefore Hafter].
  { split; [intros; lia | intros; exact Hr]. }
  pose proof Hk as Hk'. apply zipped_at in Hk' as [Hc Hw].
  pose proof (Hin k c w (Nat.le_refl k) Hk) as Hfit.
  split.
  - intros _. split.
    + intros m Hm.
      apply (within_not_exceeds text cum i W l k c w Hl Hk Hin). lia.
    + subst r. replace (0 + k + i + 1)%nat with (S (i + k)) by lia.
      unfold limit, truthy in Hl.
      destruct (Nat.eqb_spec i 0) as [E|E]; simpl in Hl.
      * intros _. inversion Hl; subst l. exists w. split; [|exact Hfit].
        subst i. now apply get_subwidth_to.
      * intros [E0 | Hexact]; [contradiction|].
        destruct (getitem cum (Z.of_nat i - 1)) as [b|e] eqn:Hb;
          simpl in Hl; [|discriminate].
        inversion Hl; subst l.
        apply getitem_pred_inv in Hb; [|lia].
        exists (minus w b). split.
        -- apply get_subwidth_between; [lia | exact Hw | exact Hb].
        -- now rewrite <- Hexact.
  - intros Hyp. exfalso.
    assert (Hno : GlyphString.is_break c = false).
    { apply (Hyp (i + k)%nat c); [lia | exact Hc |].
      eapply within_not_exceeds; eauto. }
    congruence.
Qed.

(** C2, amended. With one cumulative advance per character the search
    returns an index [r >= i], and [i] itself past the end of the text.
    When [r > i], [r] is just after a space, zero-width space or newline,
    no character of [i, r) has a cumulative advance greater than
    [W + cumulative_advance[i-1]] ([W] when [i] is 0) and none before
    [r - 1] is a newline. And [r] is the last such break: an index
    [j > r] just after a break character with no such character in
    [i, j) exists only when [r] is just after a newline, where the search
    stops at once. *)
Theorem get_break_index_break_point text cum i W :
  length cum = length text ->
  exists r,
    get_break_index text cum i W = Ok r
    /\ ((length text <= i)%nat -> r = i)
    /\ (i <= r)%nat
    /\ ((i < r)%nat ->
        (r <= length text)%nat
        /\ (exists c, nth_error text (r - 1) = Some c
                      /\ GlyphString.is_break c = true)
        /\ (forall m, (i <= m < r)%nat -> ~ exceeds cum i W m)
        /\ (forall m, (i <= m < r - 1)%nat ->
                      nth_error text m <> Some NEWLINE))
    /\ (forall j c, (r < j)%nat ->
          nth_error text (j - 1) = Some c ->
          GlyphString.is_break c = true ->
          (forall m, (i <= m < j)%nat -> ~ exceeds cum i W m) ->
          (i < r)%nat /\ nth_error text (r - 1) = Some NEWLINE).
Proof.
  intros Hsize.
  assert (Hcum : forall m c, nth_error text m = Some c ->
            exists w, nth_error cum m = Some w).
  { intros m c Hm.
    destruct (nth_error cum m) as [w|] eqn:E; [eauto|].
    apply nth_error_None in E.
    assert (m < length text)%nat by (apply nth_error_Some; congruence).
    lia. }
  destruct (Nat.leb_spec (length text) i) as [Hle|Hlt].
  { exists i. rewrite get_break_index_limit.
    destruct (Nat.leb_spec (length text) i); [|lia].
    split; [reflexivity|]. split; [intros; lia|]. split; [lia|].
    split; [intros; lia|].
    intros j c Hj Hc. exfalso.
    assert (j - 1 < length text)%nat by (apply nth_error_Some; congruence).
    lia. }
  destruct (limit_defined cum i W ltac:(lia)) as [l Hl].
  assert (Hget : get_break_index text cum i W
                 = Ok (break_loop i l i 0 (zipped text cum i))).
  { rewrite get_break_index_limit.
    destruct (Nat.leb_spec (length text) i); [lia|].
    now rewrite Hl. }
  exists (break_loop i l i 0 (zipped text cum i)).
  split; [exact Hget|].
  destruct (loop_outcome i l (zipped text cum i) i 0)
    as [Hr Hnone | k c w Hk Hin Hbr Hr Hbefore Hafter].
  - rewrite Hr. split; [intros; lia|]. split; [lia|].
    split; [intros; lia|].
    intros j c Hj Hc Hbr Hno. exfalso.
    destruct (Hcum _ _ Hc) as [w Hw].
    assert (Hz : nth_error (zipped text cum i) (j - 1 - i) = Some (c, w)).
    { apply zipped_at.
      replace (i + (j - 1 - i))%nat with (j - 1)%nat by lia. now split. }
    assert (Hfalse : GlyphString.is_break c = false).
    { apply (Hnone _ _ _ Hz).
      apply (not_exceeds_within text cum i W l); [exact Hl|].
      intros m Hm. apply Hno. lia. }
    congruence.
  - pose proof Hk as Hk'. apply zipped_at in Hk' as [Hc Hw].
    assert (Hklen : (i + k < length text)%nat)
      by (apply nth_error_Some; congruence).
    rewrite Hr. split; [intros; lia|]. split; [lia|]. split.
    + intros _. split; [lia|]. split; [|split].
      * exists c. replace (0 + k + i + 1 - 1)%nat with (i + k)%nat by lia.
        now split.
      * intros m Hm.
        apply (within_not_exceeds text cum i W l k c w Hl Hk Hin). lia.
      * intros m Hm Hnl.
        destruct (Hcum _ _ Hnl) as [w' Hw'].
        apply (Hbefore (m - i)%nat NEWLINE w'); [lia | | reflexivity].
        apply zipped_at.
        replace (i + (m - i))%nat with m by lia. now split.
    + intros j c' Hj Hc' Hbr' Hno.
      split; [lia|].
      replace (0 + k + i + 1 - 1)%nat with (i + k)%nat by lia.
      destruct (N.eq_dec c NEWLINE) as [E|E]; [now rewrite <- E|].
      exfalso.
      destruct (Hcum _ _ Hc') as [w' Hw'].
      assert (Hfalse : GlyphString.is_break c' = false).
      { apply (Hafter E (j - 1 - i)%nat c' w'); [lia | |].
        - apply zipped_at.
          replace (i + (j - 1 - i))%nat with (j - 1)%nat by lia. now split.
        - apply (not_exceeds_within text cum i W l); [exact Hl|].
          intros m Hm. apply Hno. lia. }
      congruence.
Qed.

(** C5, amended. [get_subwidth] does not check the order of its
    indices: with [0 < to_index <= from_index] and both within the table
    it returns the cumulative advance at [to_index - 1] less the one at
    [from_index - 1]. When it raises, the exception is the [IndexError]
    of a subscript, and unless [to_index] is 0 one of the indices is
    then greater than the number of glyphs. *)
Theorem get_subwidth_unvalidated cum from_index to_index :
  ((0 < to_index <= from_index)%nat -> (from_index <= length cum)%nat ->
   exists w b, nth_error cum (to_index - 1) = Some w
               /\ nth_error cum (from_index - 1) = Some b
               /\ get_subwidth cum from_index to_index = Ok (minus w b))
  /\ (forall e, get_subwidth cum from_index to_index = Raise e ->
        e = IndexError
        /\ (to_index = 0%nat \/ (length cum < to_index)%nat
            \/ (length cum < from_index)%nat)).
Proof.
  split.
  - intros Hto Hfrom.
    destruct (nth_error cum (to_index - 1)) as [w|] eqn:Ew.
    2:{ apply nth_error_None in Ew. lia. }
    destruct (nth_error cum (from_index - 1)) as [b|] eqn:Eb.
    2:{ apply nth_error_None in Eb. lia. }
    exists w, b. split; [reflexivity|]. split; [reflexivity|].
    replace to_index with (S (to_index - 1)) at 1 by lia.
    apply get_subwidth_between; [lia | exact Ew | exact Eb].
  - intros e. unfold get_subwidth.
    destruct (getitem cum (Z.of_nat to_index - 1)) as [w|e1] eqn:Ew; simpl.
    + unfold truthy. destruct (Nat.eqb_spec from_index 0); simpl;
        [discriminate|].
      destruct (getitem cum (Z.of_nat from_index - 1)) as [b|e2] eqn:Eb;
        simpl; [discriminate|].
      intros H. inversion H; subst e2. clear H.
      apply getitem_raises in Eb as [-> Hout]. split; [reflexivity|].
      right. right. lia.
    + intros H. inversion H; subst e1. clear H.
      apply getitem_raises in Ew as [-> Hout]. split; [reflexivity|].
      destruct to_index; [now left | right; left; lia].
Qed.

(** X1. When sums are exact, as with integers, the width of the slice
    from [from_index] to a greater [to_index] of a glyph string is the
    sum of the advances of its glyphs; measured from index 0 it also
    holds the origin [x] that the constructor was given. *)
Theorem get_subwidth_sum x advances from_index to_index :
  sums_exact ->
  (from_index < to_index <= length advances)%nat ->
  get_subwidth (cumulative x advances) from_index to_index
  = Ok (if Nat.eqb from_index 0
        then plus x (total (firstn to_index advances))
        else total (GlyphString.slice advances from_index to_index)).
Proof.
  intros Hexact Hrange.
  assert (Hto : nth_error (cumulative x advances) (to_index - 1)
                = Some (plus x (total (firstn to_index advances)))).
  { rewrite (cumulative_nth advances Hexact) by lia.
    now replace (S (to_index - 1)) with to_index by lia. }
  replace to_index with (S (to_index - 1)) at 1 by lia.
  destruct (Nat.eqb_spec from_index 0) as [E|E].
  - subst from_index. now apply get_subwidth_to.
  - assert (Hfrom : nth_error (cumulative x advances) (from_index - 1)
                    = Some (plus x (total (firstn from_index advances)))).
    { rewrite (cumulative_nth advances Hexact) by lia.
      now replace (S (from_index - 1)) with from_index by lia. }
    rewrite (get_subwidth_between _ from_index _ _ _ ltac:(lia) Hto Hfrom).
    f_equal.
    assert (Hsplit : firstn to_index advances
                     = firstn from_index advances
                       ++ GlyphString.slice advances from_index to_index).
    { unfold GlyphString.slice.
      rewrite <- (firstn_skipn from_index (firstn to_index advances)) at 1.
      rewrite firstn_firstn, Nat.min_l by lia.
      now rewrite skipn_firstn_comm. }
    rewrite Hsplit, total_append; [|exact Hexact|].
    + destruct Hexact as (Hassoc & _ & Hcancel).
      now rewrite <- Hassoc, Hcancel.
    + intros Hnil. apply (f_equal (@length R)) in Hnil.
      rewrite length_firstn in Hnil. simpl in Hnil. lia.
Qed.

(** *** The vertex array, glyph by glyph *)

Lemma quad_size x y (g : Glyph) : length (quad x y g) = 20%nat.
Proof.
  unfold quad. destruct (vertices g) as [[[v0 v1] v2] v3].
  destruct (tex_coords g) as [[[t0 t1] t2] t3]. reflexivity.
Qed.

(** X3. The vertex array holds 20 C floats for each glyph: the numbers
    of its quad, converted one by one. The quad of the first glyph is
    placed at the origin [x] and that of each next one at the cumulative
    advance of the glyph before it, so the 20 entries from [20 * k] on
    are the converted quad of glyph [k] at its pen position. *)
Theorem array_quads {F : Type} (c_float : R -> F) x y glyphs :
  length (array c_float x y glyphs) = (20 * length glyphs)%nat
  /\ forall k pen g,
       nth_error (x :: cumulative x (map advance glyphs)) k = Some pen ->
       nth_error glyphs k = Some g ->
       GlyphString.slice (array c_float x y glyphs) (20 * k) (20 * k + 20)
       = map c_float (quad pen y g).
Proof.
  unfold array. split.
  - revert x. induction glyphs as [|g0 rest IH]; intros x; [reflexivity|].
    simpl vertex_list. rewrite map_app, length_app, !length_map, quad_size.
    rewrite <- (length_map c_float), IH. simpl length. lia.
  - revert x. induction glyphs as [|g0 rest IH]; intros x k pen g Hpen Hg.
    + destruct k; discriminate.
    + simpl vertex_list. rewrite map_app. unfold GlyphString.slice.
      assert (Hsize : length (map c_float (quad x y g0)) = 20%nat)
        by (rewrite length_map; apply quad_size).
      destruct k as [|k].
      * simpl in Hpen, Hg. inversion Hpen; subst pen.
        inversion Hg; subst g0.
        replace (20 * 0 + 20 - 20 * 0)%nat with (20 + 0)%nat by lia.
        replace (20 * 0)%nat with 0%nat by lia. rewrite skipn_O.
        rewrite <- Hsize at 1.
        now rewrite firstn_app_2, firstn_O, app_nil_r.
      * replace (20 * S k)%nat with (20 + 20 * k)%nat by lia.
        rewrite skipn_app, skipn_all2 by lia. cbn [app].
        rewrite Hsize.
        replace (20 + 20 * k - 20)%nat with (20 * k)%nat by lia.
        replace (20 + 20 * k + 20 - (20 + 20 * k))%nat
          with (20 * k + 20 - 20 * k)%nat by lia.
        apply (IH (plus x (advance g0)) k pen g); [exact Hpen | exact Hg].
Qed.

End WithNumber.

(** *** On integers and on floats *)

(** C1 as stated fails on floats. In "aab c" with the advances 100, 10,
    10, 9 and 50, the search from index 1 for the width [0.29 * 100]
    compares with [28.999999999999996 + 100], which is 129.0: the space,
    at 129, is within it, and the break is at 4. The width of the slice
    from 1 to 4 is 129 - 100 = 29, greater than the width given. *)
Lemma get_break_index_rounds :
  let cum := cumulative (num := double) (float_of 0) aab_c_advances in
  get_break_index (num := double) aab_c cum 1 twenty_nine_or_so = Ok 4%nat
  /\ get_subwidth (num := double) cum 1 4 = Ok (float_of 29)
  /\ greater (Number := double) (float_of 29) twenty_nine_or_so = true.
Proof. vm_compute. repeat split. Qed.

Lemma get_break_index_within_witness :
  let cum := cumulative (num := double) (float_of 0) aab_c_advances in
  ((1 < 4)%nat ->
   (forall m, (1 <= m < 4)%nat ->
              ~ exceeds (num := double) cum 1 twenty_nine_or_so m)
   /\ (1%nat = 0%nat \/ comparison_exact (num := double) ->
       exists w,
         get_subwidth (num := double) cum 1 4 = Ok w
         /\ greater (Number := double) w twenty_nine_or_so = false))
  /\ ((forall k c, (1 <= k)%nat -> nth_error aab_c k = Some c ->
         (forall m, (1 <= m <= k)%nat ->
                    ~ exceeds (num := double) cum 1 twenty_nine_or_so m) ->
         GlyphString.is_break c = false) ->
      4%nat = 1%nat).
Proof.
  intros cum.
  apply (get_break_index_within (num := double) aab_c cum
           1 twenty_nine_or_so 4).
  vm_compute. reflexivity.
Defined.

Lemma get_break_index_break_point_witness :
  exists r,
    get_break_index (num := integer) (GlyphString.text GlyphString.hello_world)
      (GlyphString.cumulative_advance GlyphString.hello_world) 0 1000 = Ok r
    /\ (0 <= r)%nat.
Proof.
  destruct (get_break_index_break_point (num := integer)
              (GlyphString.text GlyphString.hello_world)
              (GlyphString.cumulative_advance GlyphString.hello_world)
              0 1000 eq_refl)
    as (r & Hr & _ & Hle & _).
  exists r. split; [exact Hr | exact Hle].
Defined.

Lemma get_subwidth_unvalidated_witness :
  exists w b,
    nth_error (GlyphString.cumulative_advance GlyphString.AB) (1 - 1) = Some w
    /\ nth_error (GlyphString.cumulative_advance GlyphString.AB) (2 - 1)
       = Some b
    /\ get_subwidth (num := integer)
         (GlyphString.cumulative_advance GlyphString.AB) 2 1
       = Ok (minus (Number := integer) w b).
Proof.
  apply (proj1 (get_subwidth_unvalidated (num := integer)
                  (GlyphString.cumulative_advance GlyphString.AB) 2 1)).
  - lia.
  - simpl. lia.
Defined.

Lemma get_subwidth_sum_witness :
  get_subwidth (num := integer) (cumulative (num := integer) 5 [10; 12; 7; 9]) 1 3
  = Ok (if Nat.eqb 1 0
        then plus (Number := integer) 5
               (total (num := integer) (firstn 3 [10; 12; 7; 9]))
        else total (num := integer) (GlyphString.slice [10; 12; 7; 9] 1 3)).
Proof.
  apply (get_subwidth_sum (num := integer) 5 [10; 12; 7; 9] 1 3).
  - exact integer_sums.
  - simpl. lia.
Defined.

(** On floats the sums round: from the origin 0.1, two glyphs that
    advance by 10 each make a table whose entries are 10.1 and 20.1, and
    the width of the second glyph alone comes out greater than 10. *)
Example get_subwidth_of_floats :
  let tenth := PrimFloat.div (float_of 1) (float_of 10) in
  exists w,
    get_subwidth (num := double)
      (cumulative (num := double) tenth [float_of 10; float_of 10]) 1 2 = Ok w
    /\ greater (Number := double) w (float_of 10) = true.
Proof. eexists. vm_compute. split; reflexivity. Qed.

End NumericFacts.

(** ** Text *)

Module TextFacts.

Import Text.

Lemma lines_append_run gs t log line :
  ready gs t ->
  exists t', lines_append line (t, log) = (Ok tt, (t', log)) /\ ready gs t'.
Proof.
  intros [Hg Hl]. destruct (lines t) as [ls|] eqn:E; [|congruence].
  exists (set_lines (Some (ls ++ [line])) t). split.
  - unfold lines_append, bind, self, gets, attr, assign, modify, ret. simpl.
    now rewrite E.
  - split; simpl; [exact Hg | discriminate].
Qed.

Lemma widen_run gs t log i e :
  ready gs t ->
  GlyphString.cumulative_advance gs <> [] ->
  (i <= length (GlyphString.cumulative_advance gs))%nat ->
  (e <= length (GlyphString.cumulative_advance gs))%nat ->
  exists t', widen i e (t, log) = (Ok tt, (t', log)) /\ ready gs t'.
Proof.
  intros [Hg Hl] Hne Hi He.
  destruct (GlyphStringFacts.get_subwidth_defined gs i e Hne Hi He) as [w Hw].
  exists (set_text_width (Z.max (_text_width t) w) t). split.
  - unfold widen, bind, self, gets, attr, assign, modify, ret, lift. simpl.
    rewrite Hg. simpl. now rewrite Hw.
  - split; simpl; assumption.
Qed.

Lemma index_from_found (c : char) (l : text_t) :
  existsb (N.eqb c) l = true ->
  exists k, index_from c l = Some k /\ (k < length l)%nat.
Proof.
  induction l as [|a l IH]; simpl; [discriminate|].
  destruct (N.eqb_spec a c) as [E|E].
  - intros _. exists 0%nat. split; [reflexivity | lia].
  - destruct (N.eqb_spec c a) as [E'|_]; [congruence|]. simpl.
    intros H. destruct (IH H) as (k & Hk & Hlt).
    exists (S k). rewrite Hk. split; [reflexivity | lia].
Qed.

Lemma str_index_found (text : text_t) i :
  existsb (N.eqb NEWLINE) (skipn i text) = true ->
  exists e, str_index text NEWLINE i = Ok e /\ (i <= e < length text)%nat.
Proof.
  intros H. destruct (index_from_found _ _ H) as (k & Hk & Hlt).
  rewrite length_skipn in Hlt. exists (i + k)%nat.
  unfold str_index. rewrite Hk. split; [reflexivity | lia].
Qed.

Lemma newline_loop_runs gs (text : text_t) :
  length (GlyphString.cumulative_advance gs) = length text ->
  forall fuel i t log,
    (length text - i <= fuel)%nat -> (i <= length text)%nat -> ready gs t ->
    exists i' t', newline_loop fuel text i (t, log) = (Ok i', (t', log))
                  /\ (i' <= length text)%nat /\ ready gs t'.
Proof.
  intros Hsize. induction fuel as [|fuel IH];
    intros i t log Hfuel Hi Hready; simpl.
  - destruct (existsb _ _) eqn:E.
    + apply str_index_found in E as (e & _ & He). lia.
    + exists i, t. split; [reflexivity | split; [exact Hi | exact Hready]].
  - destruct (existsb _ _) eqn:E.
    + apply str_index_found in E as (e & Hidx & He).
      rewrite (bind_run _ _ _ e (t, log)) by (unfold lift; now rewrite Hidx).
      destruct (lines_append_run gs t log (i, e) Hready) as (t1 & H1 & Hr1).
      rewrite (bind_run _ _ _ _ _ H1).
      destruct (widen_run gs t1 log i e Hr1) as (t2 & H2 & Hr2);
        [destruct (GlyphString.cumulative_advance gs);
           [simpl in Hsize; lia | discriminate] | lia | lia |].
      rewrite (bind_run _ _ _ _ _ H2).
      apply IH; [lia | lia | exact Hr2].
    + exists i, t. split; [reflexivity | split; [exact Hi | exact Hready]].
Qed.

Lemma wrap_loop_runs gs width :
  length (GlyphString.cumulative_advance gs) = length (GlyphString.text gs) ->
  forall fuel i bp t log,
    (length (GlyphString.text gs) - i <= fuel)%nat ->
    ((i < bp)%nat -> (bp <= length (GlyphString.text gs))%nat) ->
    ready gs t ->
    exists i' t',
      wrap_loop fuel (GlyphString.text gs) width i bp (t, log)
      = (Ok i', (t', log)) /\ ready gs t'.
Proof.
  intros Hsize. induction fuel as [|fuel IH];
    intros i bp t log Hfuel Hbp Hready; simpl.
  - destruct (Nat.ltb_spec i (length (GlyphString.text gs))); simpl; [lia|].
    exists i, t. split; [reflexivity | exact Hready].
  - destruct (Nat.ltb_spec i (length (GlyphString.text gs))); simpl;
      [|exists i, t; split; [reflexivity | exact Hready]].
    destruct (Nat.ltb_spec i bp);
      [|exists i, t; split; [reflexivity | exact Hready]].
    destruct (GlyphStringFacts.getitem_defined (GlyphString.text gs)
                (Z.of_nat bp - 1))
      as [c Hc]; [lia|].
    rewrite (bind_run _ _ _ c (t, log)) by (unfold lift; now rewrite Hc).
    assert (Happ : exists t1,
              (if N.eqb c NEWLINE then lines_append (i, (bp - 1)%nat)
               else lines_append (i, bp)) (t, log) = (Ok tt, (t1, log))
              /\ ready gs t1)
      by (destruct (N.eqb c NEWLINE); now apply lines_append_run).
    destruct Happ as (t1 & H1 & [Hg1 Hl1]).
    rewrite (bind_run _ _ _ _ _ H1).
    rewrite (bind_run _ _ _ t1 (t1, log)) by reflexivity.
    rewrite (bind_run _ _ _ gs (t1, log)) by (unfold attr; now rewrite Hg1).
    destruct (GlyphStringFacts.get_break_index_defined gs bp width Hsize)
      as (bp' & Hbp' & _ & Hle').
    rewrite (bind_run _ _ _ bp' (t1, log)) by (unfold lift; now rewrite Hbp').
    apply IH; [lia | exact Hle' | now split].
Qed.

(** *** The loops stay within their bound *)

Lemma get_subwidth_finishes gs i e :
  GlyphString.get_subwidth gs i e <> Raise Unfinished.
Proof.
  unfold GlyphString.get_subwidth.
  pose proof (getitem_finishes (GlyphString.cumulative_advance gs)
                (Z.of_nat e - 1)) as H1.
  pose proof (getitem_finishes (GlyphString.cumulative_advance gs)
                (Z.of_nat i - 1)) as H2.
  destruct (getitem _ (Z.of_nat e - 1)); simpl; [|exact H1].
  destruct (truthy i); [|discriminate].
  destruct (getitem _ (Z.of_nat i - 1)); simpl; [discriminate | exact H2].
Qed.

Lemma get_break_index_finishes gs i width :
  GlyphString.get_break_index gs i width <> Raise Unfinished.
Proof.
  unfold GlyphString.get_break_index.
  pose proof (getitem_finishes (GlyphString.cumulative_advance gs)
                (Z.of_nat i - 1)) as H.
  destruct (_ <=? _)%nat; [discriminate|].
  destruct (truthy i); simpl; [|discriminate].
  destruct (getitem _ _); simpl; [discriminate|].
  intros E. apply H. inversion E. reflexivity.
Qed.

Lemma attr_finishes {A : Type} (o : option A) : finishes (attr o).
Proof.
  destruct o; [apply finishes_ret | apply finishes_lift; discriminate].
Qed.

Lemma lines_append_finishes line : finishes (lines_append line).
Proof.
  unfold lines_append.
  apply finishes_bind; [apply finishes_gets | intros s].
  apply finishes_bind; [apply attr_finishes | intros ls].
  apply finishes_modify.
Qed.

Lemma widen_finishes i e : finishes (widen i e).
Proof.
  unfold widen.
  apply finishes_bind; [apply finishes_gets | intros s].
  apply finishes_bind; [apply attr_finishes | intros gs].
  apply finishes_bind;
    [apply finishes_lift, get_subwidth_finishes | intros w].
  apply finishes_modify.
Qed.

Lemma newline_loop_finishes (text : text_t) : forall fuel i,
  (length text - i <= fuel)%nat -> finishes (newline_loop fuel text i).
Proof.
  induction fuel as [|fuel IH]; intros i Hfuel; simpl.
  - destruct (existsb _ _) eqn:E; [|apply finishes_ret].
    apply str_index_found in E as (e & _ & He). lia.
  - destruct (existsb _ _) eqn:E; [|apply finishes_ret].
    apply str_index_found in E as (e & Hidx & He).
    apply finishes_bind_lift; [rewrite Hidx; discriminate|].
    intros e' He'. rewrite Hidx in He'. inversion He'; subst e'.
    apply finishes_bind; [apply lines_append_finishes | intros _].
    apply finishes_bind; [apply widen_finishes | intros _].
    apply IH. lia.
Qed.

Lemma wrap_loop_finishes (text : text_t) width : forall fuel i bp,
  (length text - i <= fuel)%nat -> finishes (wrap_loop fuel text width i bp).
Proof.
  induction fuel as [|fuel IH]; intros i bp Hfuel; simpl.
  - destruct (Nat.ltb_spec i (length text)); simpl; [lia | apply finishes_ret].
  - destruct (Nat.ltb_spec i (length text)); simpl; [|apply finishes_ret].
    destruct (Nat.ltb_spec i bp); [|apply finishes_ret].
    apply finishes_bind;
      [apply finishes_lift, getitem_finishes | intros c].
    apply finishes_bind;
      [destruct (N.eqb c NEWLINE); apply lines_append_finishes | intros _].
    apply finishes_bind; [apply finishes_gets | intros s].
    apply finishes_bind; [apply attr_finishes | intros gs].
    apply finishes_bind;
      [apply finishes_lift, get_break_index_finishes | intros bp'].
    apply IH. lia.
Qed.

(** Whatever the font and the Text, [_clean] does not run out of turns:
    [len(text)] of them are enough for either loop. *)
Lemma clean_finishes {font : Font} : finishes _clean.
Proof.
  unfold _clean.
  apply finishes_bind; [apply finishes_gets | intros s].
  apply finishes_bind; [intros w; unfold call; simpl; discriminate | intros _].
  apply finishes_bind; [apply finishes_modify | intros _].
  apply finishes_bind; [apply finishes_modify | intros _].
  apply finishes_bind.
  { unfold layout_lines. destruct (_layout_width s) as [width|].
    - apply finishes_bind;
        [apply finishes_lift, get_break_index_finishes | intros bp].
      apply finishes_bind; [apply wrap_loop_finishes; lia | intros i].
      apply finishes_when, lines_append_finishes.
    - apply finishes_bind; [apply finishes_modify | intros _].
      apply finishes_bind; [apply newline_loop_finishes; lia | intros i].
      apply finishes_when.
      apply finishes_bind; [apply lines_append_finishes | intros _].
      apply widen_finishes. }
  intros _.
  apply finishes_bind; [apply finishes_gets | intros s'].
  apply finishes_bind; [apply finishes_modify | intros _].
  apply finishes_bind; [apply attr_finishes | intros ls].
  apply finishes_bind; [apply finishes_modify | intros _].
  apply finishes_modify.
Qed.

(** *** The lines of a text that is not wrapped *)

Lemma lines_append_eq t log ls line :
  lines t = Some ls ->
  lines_append line (t, log)
  = (Ok tt, (set_lines (Some (ls ++ [line])) t, log)).
Proof.
  intros E.
  unfold lines_append, bind, self, gets, attr, assign, modify, ret. simpl.
  now rewrite E.
Qed.

Lemma widen_eq t log gs i e w :
  _glyph_string t = Some gs ->
  GlyphString.get_subwidth gs i e = Ok w ->
  widen i e (t, log)
  = (Ok tt, (set_text_width (Z.max (_text_width t) w) t, log)).
Proof.
  intros Hg Hw.
  unfold widen, bind, self, gets, attr, assign, modify, ret, lift. simpl.
  rewrite Hg. simpl. now rewrite Hw.
Qed.

(** The loop over the newlines only adds lines, all within the text, and
    adds one whenever it moves [i]. *)
Lemma newline_loop_lines gs (text : text_t) :
  length (GlyphString.cumulative_advance gs) = length text ->
  forall fuel i t log ls,
    (length text - i <= fuel)%nat -> (i <= length text)%nat ->
    _glyph_string t = Some gs -> lines t = Some ls ->
    exists i' t' more,
      newline_loop fuel text i (t, log) = (Ok i', (t', log))
      /\ (i' <= length text)%nat
      /\ _glyph_string t' = Some gs
      /\ lines t' = Some (ls ++ more)
      /\ Forall (line_within (length text)) more
      /\ (more = [] -> i' = i)
      /\ _layout_width t' = _layout_width t
      /\ _halign t' = _halign t.
Proof.
  intros Hsize. induction fuel as [|fuel IH];
    intros i t log ls Hfuel Hi Hg Hl; simpl.
  - destruct (existsb _ _) eqn:E.
    + apply str_index_found in E as (e & _ & He). lia.
    + exists i, t, []. rewrite app_nil_r.
      repeat (split; [first [reflexivity | assumption | constructor]|]).
      reflexivity.
  - destruct (existsb _ _) eqn:E.
    + apply str_index_found in E as (e & Hidx & He).
      rewrite (bind_run _ _ _ e (t, log)) by (unfold lift; now rewrite Hidx).
      rewrite (bind_run _ _ _ _ _ (lines_append_eq t log ls (i, e) Hl)).
      destruct (GlyphStringFacts.get_subwidth_defined gs i e) as [w Hw];
        [destruct (GlyphString.cumulative_advance gs);
           [simpl in Hsize; lia | discriminate] | lia | lia |].
      rewrite (bind_run _ _ _ _ _
                 (widen_eq (set_lines (Some (ls ++ [(i, e)])) t) log gs i e w
                    Hg Hw)).
      destruct (IH (e + 1)%nat
                  (set_text_width
                     (Z.max (_text_width (set_lines (Some (ls ++ [(i, e)])) t)) w)
                     (set_lines (Some (ls ++ [(i, e)])) t))
                  log (ls ++ [(i, e)]))
        as (i' & t' & more & Hrun & Hi' & Hg' & Hl' & Hin & _ & Hw' & Ha');
        [lia | lia | exact Hg | reflexivity |].
      exists i', t', ((i, e) :: more).
      split; [exact Hrun|]. split; [exact Hi'|]. split; [exact Hg'|].
      split; [now rewrite Hl', <- app_assoc|].
      split; [constructor; [split; simpl; lia | exact Hin]|].
      split; [discriminate|]. split; [exact Hw' | exact Ha'].
    + exists i, t, []. rewrite app_nil_r.
      repeat (split; [first [reflexivity | assumption | constructor]|]).
      reflexivity.
Qed.

(** Without a wrap width there is a first line, and it is within the
    text. *)
Lemma layout_lines_unwrapped gs (text : text_t) t log :
  length (GlyphString.cumulative_advance gs) = length text ->
  text <> [] ->
  _glyph_string t = Some gs -> lines t = Some [] ->
  exists t' line rest,
    layout_lines text gs None (t, log) = (Ok tt, (t', log))
    /\ _glyph_string t' = Some gs
    /\ lines t' = Some (line :: rest)
    /\ line_within (length text) line
    /\ _layout_width t' = _layout_width t
    /\ _halign t' = _halign t.
Proof.
  intros Hsize Hne Hg Hl. unfold layout_lines.
  assert (Hpos : (0 < length text)%nat)
    by (destruct text; [congruence | simpl; lia]).
  rewrite (bind_run _ _ _ tt (set_text_width 0 t, log)) by reflexivity.
  destruct (newline_loop_lines gs text Hsize (length text) 0%nat
              (set_text_width 0 t) log [])
    as (i & t1 & more & Hrun & Hi & Hg1 & Hl1 & Hin & Hmoved & Hw1 & Ha1);
    [lia | lia | exact Hg | exact Hl |].
  rewrite (bind_run _ _ _ _ _ Hrun). cbv zeta. simpl app in Hl1.
  destruct (Nat.eqb_spec (length text) i) as [E|E]; simpl.
  - destruct more as [|line rest]; [specialize (Hmoved eq_refl); lia|].
    exists t1, line, rest. inversion Hin; subst.
    repeat (split; [first [reflexivity | assumption]|]). assumption.
  - rewrite (bind_run _ _ _ _ _
               (lines_append_eq t1 log more (i, length text) Hl1)).
    destruct (GlyphStringFacts.get_subwidth_defined gs i (length text))
      as [w Hw];
      [destruct (GlyphString.cumulative_advance gs);
         [simpl in Hsize; lia | discriminate] | lia | lia |].
    rewrite (widen_eq (set_lines (Some (more ++ [(i, length text)])) t1) log
               gs i (length text) w Hg1 Hw).
    assert (Hlast : line_within (length text) (i, length text))
      by (split; simpl; lia).
    destruct more as [|line rest]; simpl.
    + eexists. exists (i, length text), [].
      repeat (split; [first [reflexivity | assumption]|]). assumption.
    + eexists. exists line, (rest ++ [(i, length text)]).
      inversion Hin; subst.
      repeat (split; [first [reflexivity | assumption]|]). assumption.
Qed.

Section WithFont.

Context {font : Font}.

(** The font hands back one glyph for each character. *)
Hypothesis glyph_per_char : forall s : text_t, length (get_glyphs s) = length s.

Lemma layout_size (text : text_t) :
  let gs := GlyphString.__init__ text (get_glyphs text) 0 0 in
  length (GlyphString.cumulative_advance gs) = length (GlyphString.text gs).
Proof.
  simpl. rewrite GlyphStringFacts.init_loop_cum. simpl.
  now rewrite GlyphStringFacts.running_length, length_map.
Qed.

(** The part of [_clean] that finds the lines, in either mode. *)
Lemma clean_lines_run (text : text_t) (width : option Z) t log :
  let gs := GlyphString.__init__ (text ++ [SPACE]) (get_glyphs (text ++ [SPACE])) 0 0 in
  ready gs t ->
  exists t',
    layout_lines (text ++ [SPACE]) gs width (t, log) = (Ok tt, (t', log))
    /\ ready gs t'.
Proof.
  intros gs Hready. unfold layout_lines.
  assert (Hsize : length (GlyphString.cumulative_advance gs)
                  = length (GlyphString.text gs)) by apply layout_size.
  assert (Htext : GlyphString.text gs = text ++ [SPACE]) by reflexivity.
  assert (Hne : GlyphString.cumulative_advance gs <> []).
  { intros E. rewrite E, Htext, length_app in Hsize. simpl in Hsize. lia. }
  destruct width as [width|].
  - destruct (GlyphStringFacts.get_break_index_defined gs 0 width Hsize)
      as (bp & Hbp & _ & Hle).
    rewrite (bind_run _ _ _ bp (t, log)) by (unfold lift; now rewrite Hbp).
    destruct (wrap_loop_runs gs width Hsize (length (text ++ [SPACE])) 0 bp
                t log) as (i & t1 & H1 & Hr1);
      [rewrite Htext; lia | exact Hle | exact Hready |].
    rewrite Htext in H1. rewrite (bind_run _ _ _ _ _ H1).
    destruct (_ <? _); simpl.
    + now apply lines_append_run.
    + exists t1. split; [reflexivity | exact Hr1].
  - rewrite (bind_run _ _ _ tt (set_text_width 0 t, log)) by reflexivity.
    assert (Hr0 : ready gs (set_text_width 0 t)) by (destruct Hready; now split).
    destruct (newline_loop_runs gs (text ++ [SPACE])
                ltac:(now rewrite <- Htext)
                (length (text ++ [SPACE])) 0%nat _ log
                ltac:(lia) ltac:(lia) Hr0) as (i & t1 & H1 & Hi & Hr1).
    rewrite (bind_run _ _ _ _ _ H1). cbv zeta.
    destruct (negb _); simpl.
    + destruct (lines_append_run gs t1 log (i, length (text ++ [SPACE])) Hr1)
        as (t2 & H2 & Hr2).
      rewrite (bind_run _ _ _ _ _ H2).
      apply (widen_run gs t2 log _ _ Hr2 Hne); rewrite Hsize, Htext; lia.
    + exists t1. split; [reflexivity | exact Hr1].
Qed.

(** [_clean] completes: it asks the font for the glyphs once and leaves
    the Text clean. *)
Lemma clean_runs t log :
  exists t',
    _clean (t, log)
    = (Ok tt, (t', log ++ [GlyphString.get_glyphs_call (_text t ++ [SPACE])]))
    /\ _dirty t' = false.
Proof.
  unfold _clean.
  rewrite (bind_run _ _ _ t (t, log)) by reflexivity. cbv zeta.
  set (text := _text t ++ [SPACE]).
  set (gs := GlyphString.__init__ text (get_glyphs text) 0 0).
  set (log' := log ++ [GlyphString.get_glyphs_call text]).
  rewrite (bind_run _ _ _ tt (t, log')) by reflexivity.
  rewrite (bind_run _ _ _ tt (set_glyph_string (Some gs) t, log'))
    by reflexivity.
  set (t2 := set_lines (Some []) (set_glyph_string (Some gs) t)).
  rewrite (bind_run _ _ _ tt (t2, log')) by reflexivity.
  destruct (clean_lines_run (_text t) (_layout_width t) t2 log')
    as (t3 & H3 & Hg3 & Hl3); [split; [reflexivity | discriminate]|].
  fold text in H3. fold gs in H3.
  rewrite (bind_run _ _ _ _ _ H3).
  rewrite (bind_run _ _ _ t3 (t3, log')) by reflexivity. cbv zeta.
  set (lh := ascent - descent + leading t3).
  rewrite (bind_run _ _ _ tt (set_line_height (Some lh) t3, log'))
    by reflexivity.
  destruct (lines t3) as [ls|] eqn:E; [|congruence].
  rewrite (bind_run _ _ _ ls (set_line_height (Some lh) t3, log'))
    by reflexivity.
  rewrite (bind_run _ _ _ tt
             (set_text_height (lh * Z.of_nat (length ls))
                (set_line_height (Some lh) t3), log')) by reflexivity.
  eexists. split; reflexivity.
Qed.

Lemma renders_ret t {A : Type} (a : A) : renders t (ret a).
Proof.
  exists (Ok a), []. split; [|constructor].
  intros log. unfold ret. now rewrite app_nil_r.
Qed.

Lemma renders_lift t {A : Type} (r : result A) : renders t (lift r).
Proof.
  exists r, []. split; [|constructor].
  intros log. unfold lift. now rewrite app_nil_r.
Qed.

Lemma renders_self t : renders t self.
Proof.
  exists (Ok t), []. split; [|constructor].
  intros log. unfold self, gets. simpl. now rewrite app_nil_r.
Qed.

Lemma renders_attr t {A : Type} (o : option A) : renders t (attr o).
Proof. destruct o; [apply renders_ret | apply renders_lift]. Qed.

Lemma renders_call t {A : Type} (m : prog (list GlyphString.event) A) :
  GlyphString.emits m -> renders t (call m).
Proof.
  intros (r & g & Hm & Hg). exists r, g. split; [|exact Hg].
  intros log. unfold call. simpl. now rewrite Hm.
Qed.

Lemma renders_bind t {A B : Type} (m : M A) (k : A -> M B) :
  renders t m -> (forall a, renders t (k a)) -> renders t (bind m k).
Proof.
  intros (r & g & Hm & Hg) Hk. destruct r as [a|e].
  - destruct (Hk a) as (r' & g' & Hk' & Hg').
    exists r', (g ++ g'). split; [|now apply Forall_app].
    intros log. unfold bind. now rewrite Hm, Hk', app_assoc.
  - exists (Raise e), g. split; [|exact Hg].
    intros log. unfold bind. now rewrite Hm.
Qed.

Ltac renders_gl :=
  apply renders_call; apply GlyphStringFacts.emits_gl; reflexivity.

Lemma get_height_renders t : _dirty t = false -> renders t _get_height.
Proof.
  intros Hd. unfold _get_height.
  exists (Ok (_text_height t)), []. split; [|constructor].
  intros log. unfold bind, self, gets. simpl. rewrite Hd. simpl.
  now rewrite app_nil_r.
Qed.

Lemma draw_line_renders t line : renders t (draw_line line).
Proof.
  destruct line as [start e]. unfold draw_line.
  apply renders_bind; [apply renders_self | intros s].
  apply renders_bind; [apply renders_attr | intros gs].
  apply renders_bind; [apply renders_lift | intros width].
  apply renders_bind.
  { destruct (align_eqb (_halign s) RIGHT).
    - apply renders_bind; [apply renders_lift | intros; apply renders_ret].
    - destruct (align_eqb (_halign s) CENTER); [|apply renders_ret].
      apply renders_bind; [apply renders_lift | intros; apply renders_ret]. }
  intros x1. apply renders_bind; [renders_gl | intros _].
  apply renders_bind;
    [apply renders_call, GlyphStringFacts.draw_emits | intros _].
  apply renders_bind; [apply renders_attr | intros lh]. renders_gl.
Qed.

Lemma draw_lines_renders t ls : renders t (draw_lines ls).
Proof.
  induction ls as [|line rest IH]; simpl; [apply renders_ret|].
  apply renders_bind; [apply draw_line_renders | intros _; exact IH].
Qed.

Lemma render_renders t : _dirty t = false -> renders t render.
Proof.
  intros Hd. unfold render.
  apply renders_bind; [apply renders_self | intros s].
  apply renders_bind.
  { destruct (align_eqb (_valign s) BOTTOM).
    - apply renders_bind; [now apply get_height_renders |].
      intros; apply renders_ret.
    - destruct (align_eqb (_valign s) CENTER).
      + apply renders_bind; [now apply get_height_renders |].
        intros; apply renders_ret.
      + destruct (align_eqb (_valign s) TOP); apply renders_ret. }
  intros y1.
  apply renders_bind; [renders_gl | intros _].
  apply renders_bind; [renders_gl | intros _].
  apply renders_bind; [renders_gl | intros _].
  apply renders_bind; [renders_gl | intros _].
  apply renders_bind; [renders_gl | intros _].
  apply renders_bind; [apply renders_self | intros s'].
  apply renders_bind; [apply renders_attr | intros ls].
  apply renders_bind; [apply draw_lines_renders | intros _].
  apply renders_bind; [renders_gl | intros _]. renders_gl.
Qed.

(** *** Aligning without a wrap width *)

Lemma clean_unwrapped t log :
  _layout_width t = None ->
  exists t' gs line rest w,
    _clean (t, log)
    = (Ok tt, (t', log ++ [GlyphString.get_glyphs_call (_text t ++ [SPACE])]))
    /\ _dirty t' = false
    /\ _glyph_string t' = Some gs
    /\ lines t' = Some (line :: rest)
    /\ GlyphString.get_subwidth gs (fst line) (snd line) = Ok w
    /\ _layout_width t' = None
    /\ _halign t' = _halign t.
Proof.
  intros Hnone. unfold _clean.
  rewrite (bind_run _ _ _ t (t, log)) by reflexivity. cbv zeta.
  set (text := _text t ++ [SPACE]).
  set (gs := GlyphString.__init__ text (get_glyphs text) 0 0).
  set (log' := log ++ [GlyphString.get_glyphs_call text]).
  rewrite (bind_run _ _ _ tt (t, log')) by reflexivity.
  rewrite (bind_run _ _ _ tt (set_glyph_string (Some gs) t, log'))
    by reflexivity.
  set (t2 := set_lines (Some []) (set_glyph_string (Some gs) t)).
  rewrite (bind_run _ _ _ tt (t2, log')) by reflexivity.
  assert (Hsize : length (GlyphString.cumulative_advance gs) = length text)
    by apply layout_size.
  rewrite Hnone.
  destruct (layout_lines_unwrapped gs text t2 log' Hsize)
    as (t3 & line & rest & H3 & Hg3 & Hl3 & [Ha Hb] & Hw3 & Ha3);
    [unfold text; now destruct (_text t) | reflexivity | reflexivity |].
  rewrite (bind_run _ _ _ _ _ H3).
  rewrite (bind_run _ _ _ t3 (t3, log')) by reflexivity. cbv zeta.
  set (lh := ascent - descent + leading t3).
  rewrite (bind_run _ _ _ tt (set_line_height (Some lh) t3, log'))
    by reflexivity.
  rewrite Hl3.
  rewrite (bind_run _ _ _ (line :: rest) (set_line_height (Some lh) t3, log'))
    by reflexivity.
  rewrite (bind_run _ _ _ tt
             (set_text_height (lh * Z.of_nat (length (line :: rest)))
                (set_line_height (Some lh) t3), log')) by reflexivity.
  destruct (GlyphStringFacts.get_subwidth_defined gs (fst line) (snd line))
    as [w Hw];
    [destruct (GlyphString.cumulative_advance gs);
       [unfold text in Hsize; rewrite length_app in Hsize; simpl in Hsize; lia
       | discriminate]
    | lia | lia |].
  eexists. exists gs, line, rest, w.
  split; [reflexivity|]. split; [reflexivity|]. split; [exact Hg3|].
  split; [exact Hl3|]. split; [exact Hw|]. split; [|exact Ha3].
  simpl. rewrite Hw3. exact Hnone.
Qed.

Lemma call_gl_run (t : Text.t) log e :
  call (GlyphString.gl e) (t, log) = (Ok tt, (t, log ++ [e])).
Proof. reflexivity. Qed.

(** The first line is as far as [draw] gets. *)
Lemma render_raises t log gs line rest w :
  _dirty t = false ->
  _glyph_string t = Some gs ->
  lines t = Some (line :: rest) ->
  GlyphString.get_subwidth gs (fst line) (snd line) = Ok w ->
  _layout_width t = None ->
  _halign t = RIGHT \/ _halign t = CENTER ->
  fst (render (t, log)) = Raise TypeError.
Proof.
  intros Hd Hg Hl Hw Hnone Halign. unfold render.
  rewrite (bind_run _ _ _ t (t, log)) by reflexivity. cbv zeta.
  assert (Hy : exists y1,
    (if align_eqb (_valign t) BOTTOM
     then h <- _get_height ;; ret (y t + (h - ascent))
     else if align_eqb (_valign t) CENTER
          then h <- _get_height ;; ret (y t + (h / 2 - ascent))
          else if align_eqb (_valign t) TOP
               then ret (y t - ascent) else ret (y t)) (t, log)
    = (Ok y1, (t, log))).
  { destruct (align_eqb (_valign t) BOTTOM);
      [|destruct (align_eqb (_valign t) CENTER);
        [|destruct (align_eqb (_valign t) TOP)]];
      unfold _get_height, bind, self, gets, ret; simpl; rewrite ?Hd; simpl;
      eexists; reflexivity. }
  destruct Hy as [y1 Hy]. rewrite (bind_run _ _ _ _ _ Hy).
  do 5 rewrite (bind_run _ _ _ _ _ (call_gl_run _ _ _)).
  match goal with
  | |- context [bind self _ (t, ?L)] =>
      rewrite (bind_run self _ (t, L) t (t, L)) by reflexivity;
      rewrite (bind_run (attr (lines t)) _ (t, L) (line :: rest) (t, L))
        by (now rewrite Hl);
      assert (Hline : draw_line line (t, L) = (Raise TypeError, (t, L)))
  end.
  { destruct line as [a b]. unfold draw_line.
    unfold bind, self, gets, attr, ret, lift. simpl.
    rewrite Hg. simpl in Hw. rewrite Hw. rewrite Hnone.
    destruct Halign as [E|E]; rewrite E; reflexivity. }
  simpl draw_lines.
  rewrite (bind_raise _ _ _ TypeError _
             (bind_raise _ _ _ TypeError _ Hline)).
  reflexivity.
Qed.

(** C4. With a font that hands back one glyph per character, [draw()] of
    a Text that has no wrap width and is right-aligned or centred does not
    succeed: the offset of its first line is computed from
    [self._layout_width], which is [None], not from the width of the line,
    and the subtraction, or the floor division, raises TypeError. *)
Theorem draw_aligned_without_width_raises t log :
  _dirty t = true ->
  _layout_width t = None ->
  _halign t = RIGHT \/ _halign t = CENTER ->
  fst (draw (t, log)) = Raise TypeError.
Proof.
  intros Hd Hnone Halign. unfold draw.
  rewrite (bind_run _ _ _ t (t, log)) by reflexivity.
  rewrite Hd. simpl when.
  destruct (clean_unwrapped t log Hnone)
    as (t' & gs & line & rest & w & Hc & Hd' & Hg & Hl & Hw & Hn' & Ha').
  rewrite (bind_run _ _ _ _ _ Hc).
  apply (render_raises t' _ gs line rest w Hd' Hg Hl Hw Hn').
  now rewrite Ha'.
Qed.

(** C9. With a font that hands back one glyph per character, a first
    [draw()] leaves the Text clean, having asked the font for glyphs only if
    the Text was dirty; a second [draw()] with nothing set in between ends
    the same way (returning, or raising the same exception), leaves every
    attribute, the line spans among them, as the first call left it, and
    sends OpenGL the same calls again, with none to the font. *)
Theorem draw_twice t log :
  exists r t1 recompute geometry,
    draw (t, log) = (r, (t1, log ++ recompute ++ geometry))
    /\ recompute
       = (if _dirty t then [GlyphString.get_glyphs_call (_text t ++ [SPACE])]
          else [])
    /\ _dirty t1 = false
    /\ draw (t1, log ++ recompute ++ geometry)
       = (r, (t1, (log ++ recompute ++ geometry) ++ geometry))
    /\ Forall (fun e => GlyphString.is_get_glyphs e = false) geometry.
Proof.
  assert (Hclean : forall t1 log1, _dirty t1 = false ->
            draw (t1, log1) = render (t1, log1)).
  { intros t1 log1 Hd. unfold draw.
    rewrite (bind_run _ _ _ t1 (t1, log1)) by reflexivity.
    rewrite Hd. reflexivity. }
  destruct (_dirty t) eqn:Hd.
  - destruct (clean_runs t log) as (t1 & Hc & Hd1).
    destruct (render_renders t1 Hd1) as (r & g & Hr & Hg).
    exists r, t1, [GlyphString.get_glyphs_call (_text t ++ [SPACE])], g.
    split; [|split; [reflexivity | split; [exact Hd1 | split; [|exact Hg]]]].
    + unfold draw. rewrite (bind_run _ _ _ t (t, log)) by reflexivity.
      rewrite Hd. simpl when. rewrite (bind_run _ _ _ _ _ Hc).
      now rewrite Hr, app_assoc.
    + now rewrite Hclean, Hr.
  - destruct (render_renders t Hd) as (r & g & Hr & Hg).
    exists r, t, [], g.
    split; [|split; [reflexivity | split; [exact Hd | split; [|exact Hg]]]].
    + now rewrite Hclean, Hr.
    + now rewrite Hclean, Hr.
Qed.

End WithFont.

Example wrapped_lines :
  lines (fst (snd (@draw mono (wrapped, []))))
  = Some [(0, 3); (3, 4); (5, 7)]%nat
  /\ fst (@draw mono (wrapped, [])) = Ok tt.
Proof. split; reflexivity. Qed.

Lemma draw_twice_witness :
  exists r t1 recompute geometry,
    @draw mono (wrapped, []) = (r, (t1, [] ++ recompute ++ geometry))
    /\ recompute
       = (if _dirty wrapped
          then [GlyphString.get_glyphs_call (_text wrapped ++ [SPACE])]
          else [])
    /\ _dirty t1 = false
    /\ @draw mono (t1, [] ++ recompute ++ geometry)
       = (r, (t1, ([] ++ recompute ++ geometry) ++ geometry))
    /\ Forall (fun e => GlyphString.is_get_glyphs e = false) geometry.
Proof.
  apply (@draw_twice mono).
  intros s. apply length_map.
Defined.

(** Right-aligned and centred, "a" without a width raises; left-aligned,
    or wrapped, it is drawn. What was laid out before the exception stays:
    the line spans, and no glyph was rendered. *)
Example draw_aligned_samples :
  fst (@draw mono (unwrapped RIGHT, [])) = Raise TypeError
  /\ fst (@draw mono (unwrapped CENTER, [])) = Raise TypeError
  /\ fst (@draw mono (unwrapped LEFT, [])) = Ok tt
  /\ fst (@draw mono (wrapped, [])) = Ok tt
  /\ lines (fst (snd (@draw mono (unwrapped RIGHT, [])))) = Some [(0, 2)]%nat
  /\ Forall (fun e => match e with
                      | GlyphString.glDrawArrays _ _ => False
                      | _ => True
                      end)
            (snd (snd (@draw mono (unwrapped RIGHT, [])))).
Proof.
  split; [reflexivity|]. split; [reflexivity|]. split; [reflexivity|].
  split; [reflexivity|]. split; [reflexivity|].
  vm_compute. repeat constructor.
Qed.

Lemma draw_aligned_without_width_raises_witness :
  fst (@draw mono (unwrapped RIGHT, [])) = Raise TypeError.
Proof.
  apply (@draw_aligned_without_width_raises mono).
  - intros s. apply length_map.
  - reflexivity.
  - reflexivity.
  - left. reflexivity.
Defined.

End TextFacts.

(** ** Caret *)

Module CaretFacts.

Import Caret.

(** *** What a method keeps *)

Section Keeps.

Context {X : Type} (f : t -> X).

Lemma keeps_ret {A : Type} (a : A) : keeps f (ret a).
Proof. intros w. reflexivity. Qed.

Lemma keeps_lift {A : Type} (r : result A) : keeps f (lift r).
Proof. intros w. reflexivity. Qed.

Lemma keeps_self : keeps f self.
Proof. intros w. reflexivity. Qed.

Lemma keeps_past : keeps f past.
Proof. intros w. reflexivity. Qed.

Lemma keeps_tell c : keeps f (tell c).
Proof. intros w. reflexivity. Qed.

Lemma keeps_assign (g : t -> t) :
  (forall s, f (g s) = f s) -> keeps f (assign g).
Proof. intros H w. simpl. apply H. Qed.

Lemma keeps_bind {A B : Type} (m : M A) (k : A -> M B) :
  keeps f m -> (forall a, keeps f (k a)) -> keeps f (bind m k).
Proof.
  intros Hm Hk w. unfold bind. specialize (Hm w).
  destruct (m w) as [[a|e] w']; simpl in *.
  - now rewrite Hk.
  - exact Hm.
Qed.

Lemma keeps_when (b : bool) (m : M unit) : keeps f m -> keeps f (when b m).
Proof. destruct b; simpl; [trivial | intros; apply keeps_ret]. Qed.

End Keeps.

Lemma reads_only_ret {A : Type} (a : A) : reads_only (ret a).
Proof. intros w. exists []. simpl. now rewrite app_nil_r. Qed.

Lemma reads_only_lift {A : Type} (r : result A) : reads_only (lift r).
Proof. intros w. exists []. simpl. now rewrite app_nil_r. Qed.

Lemma reads_only_self : reads_only self.
Proof. intros w. exists []. simpl. now rewrite app_nil_r. Qed.

Lemma reads_only_past : reads_only past.
Proof. intros w. exists []. simpl. now rewrite app_nil_r. Qed.

Lemma reads_only_assign g : reads_only (assign g).
Proof. intros w. exists []. simpl. now rewrite app_nil_r. Qed.

Lemma reads_only_tell c : is_edit c = false -> reads_only (tell c).
Proof.
  intros Hc w. exists [c]. simpl. split; [reflexivity|].
  constructor; [exact Hc | constructor].
Qed.

Lemma reads_only_bind {A B : Type} (m : M A) (k : A -> M B) :
  reads_only m -> (forall a, reads_only (k a)) -> reads_only (bind m k).
Proof.
  intros Hm Hk w. unfold bind. destruct (Hm w) as (c1 & H1 & F1).
  destruct (m w) as [[a|e] w']; simpl in *.
  - destruct (Hk a w') as (c2 & H2 & F2). exists (c1 ++ c2).
    rewrite H2, H1, app_assoc. split; [reflexivity | now apply Forall_app].
  - exists c1. now split.
Qed.

Lemma reads_only_when (b : bool) (m : M unit) :
  reads_only m -> reads_only (when b m).
Proof. destruct b; simpl; [trivial | intros; apply reads_only_ret]. Qed.

Lemma returns_ret {A : Type} (a : A) : returns (ret a).
Proof. intros w. now exists a. Qed.

Lemma returns_self : returns self.
Proof. intros w. now exists (fst w). Qed.

Lemma returns_past : returns past.
Proof. intros w. now exists (snd w). Qed.

Lemma returns_assign g : returns (assign g).
Proof. intros w. now exists tt. Qed.

Lemma returns_tell c : returns (tell c).
Proof. intros w. now exists tt. Qed.

Lemma returns_bind {A B : Type} (m : M A) (k : A -> M B) :
  returns m -> (forall a, returns (k a)) -> returns (bind m k).
Proof.
  intros Hm Hk w. unfold bind. destruct (Hm w) as [a Ha].
  destruct (m w) as [[a'|e] w']; simpl in *; [apply Hk | discriminate].
Qed.

Lemma returns_when (b : bool) (m : M unit) : returns m -> returns (when b m).
Proof. destruct b; simpl; [trivial | intros; apply returns_ret]. Qed.

Create HintDb caret.

#[local] Hint Resolve keeps_ret keeps_lift keeps_self keeps_past keeps_tell
  keeps_when reads_only_ret reads_only_lift reads_only_self reads_only_past
  reads_only_assign reads_only_when returns_ret returns_self returns_past
  returns_assign returns_tell returns_when : caret.

(** Walks through a method one bind at a time, splitting on the tests it
    meets. *)
Ltac walk :=
  repeat first
    [ apply keeps_bind; [|intros ?]
    | apply reads_only_bind; [|intros ?]
    | apply returns_bind; [|intros ?]
    | apply keeps_when
    | apply reads_only_when
    | apply returns_when
    | apply keeps_assign; intros ?; reflexivity
    | apply reads_only_tell; reflexivity
    | match goal with
      | |- context [if ?b then _ else _] => destruct b
      | |- context [match ?o with Some _ => _ | None => _ end] => destruct o
      | |- context [let '(_, _) := ?p in _] => destruct p
      end
    | solve [auto with caret] ].

Section WithLayout.

Context {layout : Layout} {patterns : WordPatterns}.

Lemma blink_keeps {X : Type} (f : t -> X) :
  (forall v s, f (set_blink_visible v s) = f s) ->
  (forall v s, f (set_colors v s) = f s) ->
  keeps f _blink.
Proof.
  intros H1 H2. unfold _blink, colors_setitem.
  repeat first [ apply keeps_bind; [|intros ?]
               | apply keeps_assign; intros ?; auto
               | solve [auto with caret] ].
Qed.

Lemma returns_run {A : Type} (m : M A) w :
  returns m -> exists a w', m w = (Ok a, w').
Proof.
  intros H. destruct (H w) as [a Ha]. destruct (m w) as [r w'].
  simpl in Ha. subst r. now exists a, w'.
Qed.

(** *** Showing and aiming the caret *)

Lemma nudge_keeps_position : keeps _position _nudge.
Proof. unfold _nudge, _set_visible, _blink, colors_setitem. walk. Qed.

Lemma nudge_keeps_mark : keeps _mark _nudge.
Proof. unfold _nudge, _set_visible, _blink, colors_setitem. walk. Qed.

Lemma nudge_keeps_click_count : keeps _click_count _nudge.
Proof. unfold _nudge, _set_visible, _blink, colors_setitem. walk. Qed.

Lemma nudge_keeps_click_time : keeps _click_time _nudge.
Proof. unfold _nudge, _set_visible, _blink, colors_setitem. walk. Qed.

Lemma nudge_reads_only : reads_only _nudge.
Proof. unfold _nudge, _set_visible, _blink, colors_setitem. walk. Qed.

Lemma update_keeps_position line b : keeps _position (_update line b).
Proof. unfold _update. walk. Qed.

Lemma update_keeps_mark line b : keeps _mark (_update line b).
Proof. unfold _update. walk. Qed.

Lemma update_keeps_click_count line b : keeps _click_count (_update line b).
Proof. unfold _update. walk. Qed.

Lemma update_keeps_click_time line b : keeps _click_time (_update line b).
Proof. unfold _update. walk. Qed.

Lemma update_reads_only line b : reads_only (_update line b).
Proof. unfold _update. walk. Qed.

Lemma update_returns line b : returns (_update line b).
Proof. unfold _update. walk. Qed.

Lemma set_mark_keeps_click_count mark : keeps _click_count (_set_mark mark).
Proof.
  unfold _set_mark.
  apply keeps_bind; [walk | intros ?].
  apply keeps_bind; [walk | intros ?].
  apply keeps_bind; [apply update_keeps_click_count | intros ?]. walk.
Qed.

Lemma set_mark_keeps_click_time mark : keeps _click_time (_set_mark mark).
Proof.
  unfold _set_mark.
  apply keeps_bind; [walk | intros ?].
  apply keeps_bind; [walk | intros ?].
  apply keeps_bind; [apply update_keeps_click_time | intros ?]. walk.
Qed.

Lemma set_mark_returns mark : returns (_set_mark mark).
Proof.
  unfold _set_mark.
  apply returns_bind; [walk | intros ?].
  apply returns_bind; [walk | intros ?].
  apply returns_bind; [apply update_returns | intros ?]. walk.
Qed.

(** *** Counting clicks *)

Lemma rapid_spec (d : Q) :
  negb (Qle_bool (1 # 4) d) = true <-> (d < 1 # 4)%Q.
Proof.
  destruct (Qle_bool (1 # 4) d) eqn:E; simpl.
  - apply Qle_bool_iff in E. split; [discriminate|].
    intros Hlt. exfalso. exact (Qlt_not_le _ _ Hlt E).
  - split; [|reflexivity]. intros _. apply Qnot_le_lt. intros Hle.
    apply Qle_bool_iff in Hle. congruence.
Qed.

Lemma count_click_run t t' c h :
  count_click t t' (c, h)
  = (Ok tt, (set_click_time t' (set_click_count (counted t c) c), h)).
Proof.
  unfold count_click, counted, bind, self, gets, assign, modify. simpl.
  destruct (negb _); reflexivity.
Qed.

Lemma dispatch_keeps_click_time x y (s : Caret.t) :
  keeps _click_time
    ((if _click_count s =? 1 then move_to_point x y
      else if _click_count s =? 2 then select_word x y
      else if _click_count s =? 3
           then select_paragraph x y ;; assign (set_click_count 0)
           else ret tt) ;; _nudge).
Proof.
  apply keeps_bind; [|intros; apply nudge_keeps_click_time].
  destruct (_ =? 1); [|destruct (_ =? 2); [|destruct (_ =? 3)]].
  - unfold move_to_point.
    repeat (apply keeps_bind; [|intros ?]);
      try apply update_keeps_click_time; walk.
  - unfold select_word.
    repeat (apply keeps_bind; [|intros ?]);
      try apply update_keeps_click_time;
      try apply set_mark_keeps_click_time; walk.
  - unfold select_paragraph.
    repeat (apply keeps_bind; [|intros ?]);
      try apply update_keeps_click_time;
      try apply set_mark_keeps_click_time; walk.
  - walk.
Qed.

Lemma move_to_point_keeps_click_count x y :
  keeps _click_count (move_to_point x y).
Proof.
  unfold move_to_point.
  repeat (apply keeps_bind; [|intros ?]);
    try apply update_keeps_click_count; walk.
Qed.

Lemma select_word_keeps_click_count x y :
  keeps _click_count (select_word x y).
Proof.
  unfold select_word.
  repeat (apply keeps_bind; [|intros ?]);
    try apply update_keeps_click_count;
    try apply set_mark_keeps_click_count; walk.
Qed.

Lemma select_paragraph_keeps_click_count x y :
  keeps _click_count (select_paragraph x y).
Proof.
  unfold select_paragraph.
  repeat (apply keeps_bind; [|intros ?]);
    try apply update_keeps_click_count;
    try apply set_mark_keeps_click_count; walk.
Qed.

Lemma select_paragraph_returns x y : returns (select_paragraph x y).
Proof.
  unfold select_paragraph.
  repeat (apply returns_bind; [|intros ?]);
    try apply update_returns; try apply set_mark_returns; walk.
Qed.

(** One press: the time kept is the second reading of the clock, and the
    count kept is the count arrived at, or 0 when that is 3. *)
Lemma press_run t t' x y b m c h :
  let c' := fst (snd (on_mouse_press t t' x y b m (c, h))) in
  _click_time c' = t'
  /\ _click_count c' = (if counted t c =? 3 then 0 else counted t c).
Proof.
  unfold on_mouse_press.
  rewrite (bind_run _ _ _ _ _ (count_click_run t t' c h)).
  set (c1 := set_click_time t' (set_click_count (counted t c) c)).
  rewrite (bind_run _ _ (c1, h) c1 (c1, h)) by reflexivity.
  split; [apply (dispatch_keeps_click_time x y c1 (c1, h))|].
  change (_click_count c1) with (counted t c).
  destruct (Z.eqb_spec (counted t c) 1) as [E1|E1].
  { rewrite (keeps_bind _click_count _ _ (move_to_point_keeps_click_count x y)
               (fun _ => nudge_keeps_click_count) (c1, h)).
    simpl. rewrite E1. reflexivity. }
  destruct (Z.eqb_spec (counted t c) 2) as [E2|E2].
  { rewrite (keeps_bind _click_count _ _ (select_word_keeps_click_count x y)
               (fun _ => nudge_keeps_click_count) (c1, h)).
    simpl. rewrite E2. reflexivity. }
  destruct (Z.eqb_spec (counted t c) 3) as [E3|E3].
  - destruct (returns_run (select_paragraph x y) (c1, h)
                (select_paragraph_returns x y)) as (a & w2 & H2).
    rewrite (bind_run _ _ (c1, h) tt
               (set_click_count 0 (fst w2), snd w2)).
    + apply (nudge_keeps_click_count (set_click_count 0 (fst w2), snd w2)).
    + rewrite (bind_run _ _ _ _ _ H2). destruct w2. reflexivity.
  - rewrite (bind_run _ _ (c1, h) tt (c1, h)) by reflexivity.
    apply (nudge_keeps_click_count (c1, h)).
Qed.

(** C3. A press keeps the time of its second clock reading; it adds one
    to the click count when less than 0.25 s passed since the time kept by
    the press before and sets it to 1 otherwise, and a count that reaches 3
    is put back to 0 once the paragraph is selected. So from a count of 0,
    presses each within 0.25 s of the one before leave the counts 1, 2 and
    0, the third having counted 3, and a fourth leaves 1. *)
Theorem click_counting :
  (forall c h t t' x y b m,
     let c' := fst (snd (on_mouse_press t t' x y b m (c, h))) in
     _click_time c' = t'
     /\ ((t - _click_time c < 1 # 4)%Q ->
         _click_count c'
         = if _click_count c + 1 =? 3 then 0 else _click_count c + 1)
     /\ (~ (t - _click_time c < 1 # 4)%Q -> _click_count c' = 1))
  /\ (forall w0 t1 t1' t2 t2' t3 t3' t4 t4' x1 y1 x2 y2 x3 y3 x4 y4 b m,
        _click_count (fst w0) = 0 ->
        (t2 - t1' < 1 # 4)%Q -> (t3 - t2' < 1 # 4)%Q ->
        (t4 - t3' < 1 # 4)%Q ->
        let w1 := snd (on_mouse_press t1 t1' x1 y1 b m w0) in
        let w2 := snd (on_mouse_press t2 t2' x2 y2 b m w1) in
        let w3 := snd (on_mouse_press t3 t3' x3 y3 b m w2) in
        let w4 := snd (on_mouse_press t4 t4' x4 y4 b m w3) in
        _click_count (fst w1) = 1
        /\ _click_count (fst w2) = 2
        /\ _click_count (fst (snd (count_click t3 t3' w2))) = 3
        /\ _click_count (fst w3) = 0
        /\ _click_count (fst w4) = 1).
Proof.
  assert (Hstep : forall c h t t' x y b m,
            let c' := fst (snd (on_mouse_press t t' x y b m (c, h))) in
            _click_time c' = t'
            /\ ((t - _click_time c < 1 # 4)%Q ->
                _click_count c'
                = if _click_count c + 1 =? 3 then 0 else _click_count c + 1)
            /\ (~ (t - _click_time c < 1 # 4)%Q -> _click_count c' = 1)).
  { intros c h t t' x y b m c'.
    destruct (press_run t t' x y b m c h) as [Htime Hcount].
    fold c' in Htime, Hcount. split; [exact Htime|].
    unfold counted in Hcount.
    destruct (negb (Qle_bool (1 # 4) (t - _click_time c))) eqn:E.
    - split; [intros _; exact Hcount|].
      intros Hslow. apply rapid_spec in E. contradiction.
    - split; [|intros _; exact Hcount].
      intros Hfast. apply rapid_spec in Hfast. congruence. }
  split; [exact Hstep|].
  intros [c0 h0] t1 t1' t2 t2' t3 t3' t4 t4' x1 y1 x2 y2 x3 y3 x4 y4 b m
    H0 H12 H23 H34 w1 w2 w3 w4.
  simpl in H0.
  assert (H1 : _click_time (fst w1) = t1' /\ _click_count (fst w1) = 1).
  { destruct (Hstep c0 h0 t1 t1' x1 y1 b m) as (Ht & Hf & Hs).
    split; [exact Ht|].
    destruct (Qlt_le_dec (t1 - _click_time c0) (1 # 4)) as [Hlt|Hle].
    - unfold w1. rewrite (Hf Hlt), H0. reflexivity.
    - apply Hs. apply Qle_not_lt. exact Hle. }
  destruct H1 as [Ht1 Hc1].
  assert (H2 : _click_time (fst w2) = t2' /\ _click_count (fst w2) = 2).
  { destruct (Hstep (fst w1) (snd w1) t2 t2' x2 y2 b m) as (Ht & Hf & _).
    rewrite <- surjective_pairing in Ht, Hf.
    split; [exact Ht|]. unfold w2. rewrite Hf, Hc1; [reflexivity|].
    now rewrite Ht1. }
  destruct H2 as [Ht2 Hc2].
  assert (Hfast3 : negb (Qle_bool (1 # 4) (t3 - _click_time (fst w2))) = true)
    by (apply rapid_spec; now rewrite Ht2).
  assert (H3 : _click_time (fst w3) = t3' /\ _click_count (fst w3) = 0).
  { destruct (Hstep (fst w2) (snd w2) t3 t3' x3 y3 b m) as (Ht & Hf & _).
    rewrite <- surjective_pairing in Ht, Hf.
    split; [exact Ht|]. unfold w3. rewrite Hf, Hc2; [reflexivity|].
    now rewrite Ht2. }
  destruct H3 as [Ht3 Hc3].
  split; [exact Hc1|]. split; [exact Hc2|]. split; [|split; [exact Hc3|]].
  - rewrite (surjective_pairing w2), count_click_run. simpl.
    unfold counted. now rewrite Hfast3, Hc2.
  - destruct (Hstep (fst w3) (snd w3) t4 t4' x4 y4 b m) as (_ & Hf & _).
    rewrite <- surjective_pairing in Hf.
    unfold w4. rewrite Hf, Hc3; [reflexivity|]. now rewrite Ht3.
Qed.

(** *** Moving left and right *)

Lemma set_position_position index w :
  _position (fst (snd (_set_position index w))) = index.
Proof.
  unfold _set_position.
  rewrite (bind_run _ _ w tt (set_position index (fst w), snd w))
    by reflexivity.
  rewrite (bind_run _ _ _ tt
             (set_next_attributes [] (set_position index (fst w)), snd w))
    by reflexivity.
  now rewrite update_keeps_position.
Qed.

Lemma set_position_returns index : returns (_set_position index).
Proof.
  unfold _set_position.
  apply returns_bind; [walk | intros ?].
  apply returns_bind; [walk | intros ?]. apply update_returns.
Qed.

(** Before it moves the caret left or right, [on_text_motion] at most
    drops the selection. *)
Lemma motion_edit_run motion select c h :
  motion = MOTION_LEFT \/ motion = MOTION_RIGHT ->
  motion_edit motion select (c, h)
  = (Ok tt, if is_some (_mark c) && negb select
            then (set_mark None c, h ++ [set_selection 0 0])
            else (c, h)).
Proof.
  intros [-> | ->];
    unfold motion_edit, document_length, bind, self, past, gets, ret,
      assign, tell, modify; simpl;
    destruct (is_some (_mark c) && negb select); reflexivity.
Qed.

Lemma moved_position motion select c h index :
  motion = MOTION_LEFT \/ motion = MOTION_RIGHT ->
  (forall w, motion_edit motion select (c, h) = (Ok tt, w) ->
             motion_move motion w = _set_position (index w) w) ->
  forall w, motion_edit motion select (c, h) = (Ok tt, w) ->
  _position (fst (snd (on_text_motion motion select (c, h)))) = index w.
Proof.
  intros Hm Hmove w Hedit. unfold on_text_motion.
  rewrite (bind_run _ _ _ _ _ Hedit).
  destruct (returns_run (_set_position (index w)) w
              (set_position_returns (index w))) as (a & w2 & H2).
  rewrite <- (Hmove w Hedit) in H2.
  rewrite (bind_run _ _ _ _ _ H2).
  rewrite (keeps_bind _position (assign (set_next_attributes [])) (fun _ => _nudge)).
  - rewrite (Hmove w Hedit) in H2.
    pose proof (set_position_position (index w) w) as Hp.
    now rewrite H2 in Hp.
  - walk.
  - intros _. apply nudge_keeps_position.
Qed.

(** C8. [on_text_motion] with LEFT leaves the position one lower, but not
    below 0; with RIGHT one higher, but not above the length of the
    document's text. A position within [0, len(text)] stays there, and
    LEFT at position 0 leaves position 0, whatever the mark. *)
Theorem left_right_motion c h select :
  let h1 := if is_some (_mark c) && negb select
            then h ++ [set_selection 0 0] else h in
  let n := Z.of_nat (length (document_text h1)) in
  let left := fst (snd (on_text_motion MOTION_LEFT select (c, h))) in
  let right := fst (snd (on_text_motion MOTION_RIGHT select (c, h))) in
  _position left = Z.max 0 (_position c - 1)
  /\ _position right = Z.min n (_position c + 1)
  /\ (0 < _position c -> _position left = _position c - 1)
  /\ (_position c < n -> _position right = _position c + 1)
  /\ (0 <= _position c <= n ->
      0 <= _position left <= n /\ 0 <= _position right <= n)
  /\ (_position c = 0 -> _mark c = None -> _position left = 0).
Proof.
  intros h1 n left right.
  assert (Hl : _position left = Z.max 0 (_position c - 1)).
  { pose proof (moved_position MOTION_LEFT select c h
                  (fun w => Z.max 0 (_position (fst w) - 1))
                  (or_introl eq_refl) ltac:(intros; reflexivity) _
                  (motion_edit_run _ _ _ _ (or_introl eq_refl))) as Hmoved.
    cbv beta in Hmoved. unfold left. etransitivity; [exact Hmoved|].
    destruct (is_some (_mark c) && negb select); reflexivity. }
  assert (Hr : _position right = Z.min n (_position c + 1)).
  { pose proof (moved_position MOTION_RIGHT select c h
                  (fun w => Z.min (Z.of_nat (length (document_text (snd w))))
                                  (_position (fst w) + 1))
                  (or_intror eq_refl) ltac:(intros; reflexivity) _
                  (motion_edit_run _ _ _ _ (or_intror eq_refl))) as Hmoved.
    cbv beta in Hmoved. unfold right. etransitivity; [exact Hmoved|].
    unfold n, h1. destruct (is_some (_mark c) && negb select); reflexivity. }
  rewrite Hl, Hr.
  split; [reflexivity|]. split; [reflexivity|].
  split; [intros; lia|]. split; [intros; lia|].
  split; [intros; lia | intros; lia].
Qed.

(** *** Typing *)

Lemma delete_selection_run c h m :
  _mark c = Some m ->
  _delete_selection (c, h)
  = (Ok tt,
     (set_mark None (set_position (Z.min (_position c) m) c),
      (h ++ [delete_text (Z.min m (_position c)) (Z.max m (_position c))])
        ++ [set_selection 0 0])).
Proof.
  intros H.
  unfold _delete_selection, bind, self, gets, ret, assign, tell, modify.
  simpl. rewrite H. reflexivity.
Qed.

Lemma replace_cr_spec (text : text_t) :
  length (replace_cr text) = length text
  /\ ~ In CR (replace_cr text)
  /\ forall i, nth_error (replace_cr text) i
               = option_map (fun c => if N.eqb c CR then NEWLINE else c)
                            (nth_error text i).
Proof.
  unfold replace_cr. split; [apply length_map|]. split.
  - intros H. apply in_map_iff in H as (c & Hc & _).
    destruct (N.eqb_spec c CR); [discriminate | congruence].
  - intros i. apply nth_error_map.
Qed.

(** What [on_text] does once the selection is out of the way. *)
Lemma insert_run text c h :
  let w' := snd ((s <- self ;;
                  tell (insert_text (_position s) text (_next_attributes s)) ;;
                  assign (set_position (_position s + Z.of_nat (length text))) ;;
                  _nudge ;;
                  _update None true) (c, h)) in
  (exists calls,
     snd w' = h ++ [insert_text (_position c) text (_next_attributes c)] ++ calls
     /\ Forall (fun k => is_edit k = false) calls)
  /\ _position (fst w') = _position c + Z.of_nat (length text)
  /\ _mark (fst w') = _mark c.
Proof.
  rewrite (bind_run _ _ (c, h) c (c, h)) by reflexivity.
  set (h1 := h ++ [insert_text (_position c) text (_next_attributes c)]).
  rewrite (bind_run _ _ (c, h) tt (c, h1)) by reflexivity.
  set (c1 := set_position (_position c + Z.of_nat (length text)) c).
  rewrite (bind_run _ _ (c, h1) tt (c1, h1)) by reflexivity.
  intros w'. split; [|split].
  - assert (Hq : reads_only (_nudge ;; _update None true)).
    { apply reads_only_bind; [apply nudge_reads_only|].
      intros _. apply update_reads_only. }
    destruct (Hq (c1, h1)) as (calls & Hcalls & Hquiet).
    exists calls. split; [|exact Hquiet].
    unfold w'. rewrite Hcalls. unfold h1. simpl snd.
    now rewrite <- app_assoc.
  - unfold w'.
    rewrite (keeps_bind _position _nudge (fun _ => _update None true)
               nudge_keeps_position
               (fun _ => update_keeps_position None true)).
    reflexivity.
  - unfold w'.
    rewrite (keeps_bind _mark _nudge (fun _ => _update None true)
               nudge_keeps_mark (fun _ => update_keeps_mark None true)).
    reflexivity.
Qed.

(** C10. [on_text(t)] first deletes the selection, if there is a mark,
    which puts the position at the start of the selection and clears the
    mark; it then inserts, at that position and with the pending style
    attributes, [t] with each carriage return replaced by a newline; and it
    leaves the position [len(t)] further. Nothing else edits the
    document. *)
Theorem on_text_inserts c h text :
  let start := match _mark c with
               | Some m => Z.min (_position c) m
               | None => _position c
               end in
  let deletion := match _mark c with
                  | Some m => [delete_text (Z.min m (_position c))
                                           (Z.max m (_position c));
                               set_selection 0 0]
                  | None => []
                  end in
  let w' := snd (on_text text (c, h)) in
  (exists calls,
     snd w' = h ++ deletion
                ++ [insert_text start (replace_cr text) (_next_attributes c)]
                ++ calls
     /\ Forall (fun k => is_edit k = false) calls)
  /\ _position (fst w') = start + Z.of_nat (length text)
  /\ _mark (fst w') = None
  /\ length (replace_cr text) = length text
  /\ ~ In CR (replace_cr text)
  /\ (forall i, nth_error (replace_cr text) i
                = option_map (fun c => if N.eqb c CR then NEWLINE else c)
                             (nth_error text i)).
Proof.
  intros start deletion w'.
  destruct (replace_cr_spec text) as (Hlen & Hcr & Hnth).
  assert (Hmain :
    (exists calls,
       snd w' = h ++ deletion
                  ++ [insert_text start (replace_cr text) (_next_attributes c)]
                  ++ calls
       /\ Forall (fun k => is_edit k = false) calls)
    /\ _position (fst w') = start + Z.of_nat (length (replace_cr text))
    /\ _mark (fst w') = None).
  { unfold w', on_text.
    rewrite (bind_run _ _ (c, h) c (c, h)) by reflexivity.
    unfold start, deletion. destruct (_mark c) as [m|] eqn:Hm.
    - rewrite (bind_run _ _ _ _ _ (delete_selection_run c h m Hm)).
      cbv zeta.
      destruct (insert_run (replace_cr text)
                  (set_mark None (set_position (Z.min (_position c) m) c))
                  ((h ++ [delete_text (Z.min m (_position c))
                                      (Z.max m (_position c))])
                     ++ [set_selection 0 0]))
        as ((calls & Hcalls & Hquiet) & Hpos & Hmark).
      split; [|split; [exact Hpos | exact Hmark]].
      exists calls. split; [|exact Hquiet].
      etransitivity; [exact Hcalls|]. simpl. now rewrite <- !app_assoc.
    - rewrite (bind_run _ _ (c, h) tt (c, h)) by reflexivity. cbv zeta.
      destruct (insert_run (replace_cr text) c h)
        as ((calls & Hcalls & Hquiet) & Hpos & Hmark).
      split; [|split; [exact Hpos | now rewrite Hmark]].
      exists calls. split; [exact Hcalls | exact Hquiet]. }
  destruct Hmain as (Hcalls & Hpos & Hmark). rewrite Hlen in Hpos.
  repeat split; assumption.
Qed.

End WithLayout.

Example typed_text :
  @document_text one_line (snd typed) = [104; 105; 10]%N
  /\ _position (fst typed) = 3 /\ _mark (fst typed) = None.
Proof. vm_compute. repeat split. Qed.

Lemma click_counting_witness :
  let w1 := snd (@on_mouse_press one_line no_words (10 # 1) (10 # 1) 0 0 1 0 typed) in
  let w2 := snd (@on_mouse_press one_line no_words (101 # 10) (101 # 10) 0 0 1 0 w1) in
  let w3 := snd (@on_mouse_press one_line no_words (102 # 10) (102 # 10) 0 0 1 0 w2) in
  let w4 := snd (@on_mouse_press one_line no_words (103 # 10) (103 # 10) 0 0 1 0 w3) in
  _click_count (fst w1) = 1
  /\ _click_count (fst w2) = 2
  /\ _click_count (fst (snd (count_click (102 # 10) (102 # 10) w2))) = 3
  /\ _click_count (fst w3) = 0
  /\ _click_count (fst w4) = 1.
Proof.
  refine (proj2 (@click_counting one_line no_words) typed
            (10 # 1) (10 # 1) (101 # 10) (101 # 10)
            (102 # 10) (102 # 10) (103 # 10) (103 # 10)
            0 0 0 0 0 0 0 0 1 0 _ _ _ _).
  - vm_compute. reflexivity.
  - vm_compute. reflexivity.
  - vm_compute. reflexivity.
  - vm_compute. reflexivity.
Defined.

Lemma left_right_motion_witness :
  let left := fst (snd (@on_text_motion one_line no_words MOTION_LEFT false
                          (fst typed, snd typed))) in
  let right := fst (snd (@on_text_motion one_line no_words MOTION_RIGHT false
                           (fst typed, snd typed))) in
  (0 <= _position left <= 3) /\ (0 <= _position right <= 3).
Proof.
  refine (proj1 (proj2 (proj2 (proj2 (proj2
            (@left_right_motion one_line no_words (fst typed) (snd typed)
               false))))) _).
  vm_compute. split; discriminate.
Defined.

Example right_at_the_end :
  _position (fst (snd (@on_text_motion one_line no_words MOTION_RIGHT false
                         typed))) = 3
  /\ _position (fst (snd (@on_text_motion one_line no_words MOTION_LEFT false
                            made))) = 0.
Proof. vm_compute. split; reflexivity. Qed.

End CaretFacts.

(** ** GlyphString, further properties *)

Module GlyphStringMore.

Import GlyphString GlyphStringFacts.

(** *** Widths are sums of advances *)

Lemma running_nth advs : forall x0 k,
  (k < length advs)%nat ->
  nth_error (running x0 advs) k = Some (x0 + total (firstn (S k) advs)).
Proof.
  induction advs as [|d rest IH]; intros x0 k Hk; simpl in Hk; [lia|].
  destruct k as [|k].
  - simpl. f_equal. lia.
  - simpl nth_error. rewrite IH by lia.
    change (firstn (S (S k)) (d :: rest)) with (d :: firstn (S k) rest).
    simpl total. f_equal. lia.
Qed.

Lemma total_app l1 l2 : total (l1 ++ l2) = total l1 + total l2.
Proof. induction l1 as [|a l1 IH]; simpl; [reflexivity | rewrite IH; lia]. Qed.

Lemma firstn_split {A : Type} (l : list A) : forall a b,
  (a <= b)%nat -> firstn b l = firstn a l ++ slice l a b.
Proof.
  unfold slice. induction l as [|x l IH]; intros a b Hab.
  - now rewrite skipn_nil, !firstn_nil.
  - destruct a as [|a].
    + simpl. now rewrite Nat.sub_0_r.
    + destruct b as [|b]; [lia|]. simpl. f_equal. apply IH. lia.
Qed.

Lemma total_firstn_split (l : list Z) a b :
  (a <= b)%nat ->
  total (firstn b l) = total (firstn a l) + total (slice l a b).
Proof.
  intros Hab. now rewrite <- total_app, <- firstn_split.
Qed.

(** *** A wider line never breaks earlier *)

Lemma break_loop_ge from_index limit l : forall to_index i,
  (to_index <= i + from_index)%nat ->
  (to_index <= break_loop from_index limit to_index i l)%nat.
Proof.
  induction l as [|[c w] rest IH]; intros to_index i Hto; simpl; [lia|].
  destruct (limit <? w); [lia|].
  destruct (N.eqb c NEWLINE); [lia|].
  destruct (is_space c).
  - etransitivity; [|apply IH; lia]. lia.
  - apply IH. lia.
Qed.

Lemma break_loop_mono from_index limit1 limit2 l :
  limit1 <= limit2 ->
  forall to1 to2 i,
    (to1 <= to2)%nat -> (to2 <= i + from_index)%nat ->
    (break_loop from_index limit1 to1 i l
     <= break_loop from_index limit2 to2 i l)%nat.
Proof.
  intros Hlim. induction l as [|[c w] rest IH]; intros to1 to2 i H12 Hto;
    simpl; [exact H12|].
  destruct (Z.ltb_spec limit1 w) as [H1|H1].
  - change (to1 <= break_loop from_index limit2 to2 i ((c, w) :: rest))%nat.
    etransitivity; [exact H12 | now apply break_loop_ge].
  - destruct (Z.ltb_spec limit2 w) as [H2|H2]; [lia|].
    destruct (N.eqb c NEWLINE); [lia|].
    destruct (is_space c); apply IH; lia.
Qed.

(** X2. The break index does not decrease when the width grows: a line
    that may be wider never ends earlier. *)
Theorem get_break_index_monotone gs i W1 W2 r1 r2 :
  W1 <= W2 ->
  get_break_index gs i W1 = Ok r1 ->
  get_break_index gs i W2 = Ok r2 ->
  (r1 <= r2)%nat.
Proof.
  intros HW. rewrite !get_break_index_eq.
  destruct (length (text gs) <=? i)%nat.
  - intros H1 H2. inversion H1. inversion H2. lia.
  - destruct (base gs i) as [b|e]; simpl; [|discriminate].
    intros H1 H2. inversion H1. inversion H2.
    apply break_loop_mono; lia.
Qed.

Lemma get_break_index_monotone_witness : (0 <= 6)%nat.
Proof.
  apply (get_break_index_monotone hello_world 0 15 60 0 6).
  - lia.
  - reflexivity.
  - reflexivity.
Defined.

(** *** The vertex array, glyph by glyph *)

Lemma init_body_lst_eq y i g s :
  lst (init_body y i g s) = lst s ++ quad (x s) y g.
Proof. unfold init_body. destruct (negb _); reflexivity. Qed.

Lemma init_loop_lst_eq glyphs : forall y i s,
  lst (init_loop y i glyphs s)
  = lst s ++ concat (quads y (combine (x s :: running (x s) (map advance glyphs))
                                      glyphs)).
Proof.
  induction glyphs as [|g rest IH]; intros y i s; simpl.
  - now rewrite app_nil_r.
  - rewrite IH, init_body_lst_eq, init_body_x, <- app_assoc. reflexivity.
Qed.

Lemma concat_block {A : Type} (n : nat) (blocks : list (list A)) :
  Forall (fun b => length b = n) blocks ->
  forall k b, nth_error blocks k = Some b ->
  slice (concat blocks) (n * k) (n * k + n) = b.
Proof.
  unfold slice. induction blocks as [|b0 blocks IH]; intros Hall k b Hk.
  - destruct k; discriminate.
  - inversion Hall as [|? ? Hb0 Hrest]; subst. destruct k as [|k]; simpl in Hk.
    + inversion Hk; subst. rewrite Nat.mul_0_r. simpl.
      replace (length b - 0)%nat with (length b + 0)%nat by lia.
      now rewrite firstn_app_2, firstn_O, app_nil_r.
    + simpl concat.
      replace (length b0 * S k)%nat with (length b0 + length b0 * k)%nat by lia.
      rewrite skipn_app, skipn_all2 by lia. simpl app.
      replace (length b0 + length b0 * k - length b0)%nat
        with (length b0 * k)%nat by lia.
      replace (length b0 + length b0 * k + length b0 - (length b0 + length b0 * k))%nat
        with (length b0 * k + length b0 - length b0 * k)%nat by lia.
      now apply IH.
Qed.

(** The array of the model is the list [lst] over the integers, before
    its numbers are made C floats. *)
Lemma init_loop_vertex_list glyphs : forall y i s,
  lst (init_loop y i glyphs s)
  = lst s ++ Numeric.vertex_list (num := integer) (x s) y
               (map Numeric.of_glyph glyphs).
Proof.
  induction glyphs as [|g rest IH]; intros y i s; simpl.
  - now rewrite app_nil_r.
  - rewrite IH, init_body_lst_eq, init_body_x, <- app_assoc.
    reflexivity.
Qed.

Lemma integer_vertex_list text glyphs x0 y :
  array (__init__ text glyphs x0 y)
  = Numeric.vertex_list (num := integer) x0 y (map Numeric.of_glyph glyphs).
Proof. unfold __init__. simpl. now rewrite init_loop_vertex_list. Qed.

(** *** One texture per run *)

Lemma owner_eqb_spec a b : owner_eqb a b = true <-> a = b.
Proof.
  destruct a as [s|], b as [t|]; simpl; split; try congruence.
  - intros H. apply Nat.eqb_eq in H. congruence.
  - intros H. inversion H. apply Nat.eqb_refl.
Qed.

Lemma adjacent_differ_snoc {A : Type} (l : list A) (a b : A) :
  adjacent_differ (l ++ [a]) -> a <> b -> adjacent_differ ((l ++ [a]) ++ [b]).
Proof.
  intros Hl Hab j c d Hc Hd.
  assert (Hlen : length (l ++ [a]) = S (length l))
    by (rewrite length_app; simpl; lia).
  destruct (Nat.lt_ge_cases (S j) (length (l ++ [a]))) as [Hlt|Hge].
  - rewrite nth_error_app1 in Hc, Hd by lia. exact (Hl j c d Hc Hd).
  - assert (j < length ((l ++ [a]) ++ [b]) - 1)%nat.
    { assert (S j < length ((l ++ [a]) ++ [b]))%nat
        by (apply nth_error_Some; congruence).
      lia. }
    rewrite length_app in H. simpl in H.
    assert (j = length l) by lia. subst j.
    rewrite nth_error_app1 in Hc by lia.
    rewrite nth_error_app2, Nat.sub_diag in Hc by lia.
    rewrite nth_error_app2 in Hd by lia.
    rewrite Hlen, Nat.sub_diag in Hd. simpl in Hc, Hd. congruence.
Qed.

Lemma run_owned_snoc done g st :
  (run_start st + run_length st <= length done)%nat ->
  run_owned done st -> run_owned (done ++ [g]) st.
Proof.
  intros Hend H k g' Hk Hn. apply (H k g' Hk).
  now rewrite nth_error_app1 in Hn by lia.
Qed.

Lemma init_body_textures y done g s :
  textures_inv done s ->
  textures_inv (done ++ [g]) (init_body y (length done) g s).
Proof.
  intros (Hi & Hruns & Hopen & Hadj & Hempty).
  assert (Hlen : length (done ++ [g]) = S (length done))
    by (rewrite length_app; simpl; lia).
  assert (Hold : Forall (fun st => run_owned (done ++ [g]) st
                          /\ (run_start st + run_length st <= state_from s)%nat)
                        (l_states s)).
  { eapply Forall_impl; [|exact Hruns]. intros st [Ho He].
    split; [apply run_owned_snoc; [lia | exact Ho] | lia]. }
  unfold textures_inv, init_body.
  destruct (owner_eqb (owner g) (texture s)) eqn:Eo; simpl.
  - apply owner_eqb_spec in Eo.
    split; [lia|]. split; [|split; [|split; [exact Hadj | intros; lia]]].
    + eapply Forall_impl; [|exact Hold]. intros st [Ho He]. split; [exact Ho | lia].
    + intros k g' Hk Hn.
      destruct (Nat.lt_ge_cases k (length done)) as [Hlt|Hge].
      * rewrite nth_error_app1 in Hn by lia. now apply (Hopen k).
      * assert (k < length (done ++ [g]))%nat
          by (apply nth_error_Some; congruence).
        assert (k = length done) by lia. subst k.
        rewrite nth_error_app2, Nat.sub_diag in Hn by lia. simpl in Hn.
        inversion Hn; subst. exact Eo.
  - assert (Hne : texture s <> owner g).
    { intros E. symmetry in E. apply owner_eqb_spec in E. congruence. }
    assert (Hnew : forall k g', (length done <= k)%nat ->
              nth_error (done ++ [g]) k = Some g' -> owner g' = owner g).
    { intros k g' Hk Hn.
      assert (k < length (done ++ [g]))%nat
        by (apply nth_error_Some; congruence).
      assert (k = length done) by lia. subst k.
      rewrite nth_error_app2, Nat.sub_diag in Hn by lia. simpl in Hn.
      now inversion Hn. }
    unfold truthy. destruct (Nat.eqb_spec (state_length s) 0) as [E|E]; simpl.
    + split; [lia|]. rewrite (Hempty E). split; [constructor|].
      split; [exact Hnew|]. split; [|intros; lia].
      intros [|[|j]] a b Ha Hb; simpl in *; discriminate.
    + split; [lia|]. split; [|split; [exact Hnew|split; [|intros; lia]]].
      * apply Forall_app. split.
        -- eapply Forall_impl; [|exact Hold]. intros st [Ho He].
           split; [exact Ho | lia].
        -- constructor; [|constructor]. split.
           ++ intros k g' Hk Hn. unfold run_start, run_length in Hk.
              simpl in Hk. unfold run_texture. simpl.
              rewrite nth_error_app1 in Hn by lia. apply (Hopen k g'); [lia|].
              exact Hn.
           ++ unfold run_start, run_length. simpl. lia.
      * rewrite map_app.
        change (map run_texture [(state_from s, state_length s, texture s)])
          with [texture s].
        now apply adjacent_differ_snoc.
Qed.

Lemma init_loop_textures y rest : forall done s,
  textures_inv done s ->
  textures_inv (done ++ rest) (init_loop y (length done) rest s).
Proof.
  induction rest as [|g rest IH]; intros done s H; simpl.
  - now rewrite app_nil_r.
  - replace (done ++ g :: rest) with ((done ++ [g]) ++ rest)
      by (now rewrite <- app_assoc).
    replace (S (length done)) with (length (done ++ [g]))
      by (rewrite length_app; simpl; lia).
    apply IH. now apply init_body_textures.
Qed.

(** X4. Every glyph of a run is on the texture of the run, and two runs
    that follow one another are on different textures: a texture is bound
    once for each stretch of glyphs that share it, never twice in a row. *)
Theorem states_textures text glyphs x0 y :
  let gs := __init__ text glyphs x0 y in
  Forall (run_owned glyphs) (states gs)
  /\ adjacent_differ (map run_texture (states gs)).
Proof.
  intros gs.
  pose (s := init_loop y 0 glyphs (mkLocals [] None [] [] 0 0 x0)).
  assert (Hinv : textures_inv glyphs s).
  { apply (init_loop_textures y glyphs [] (mkLocals [] None [] [] 0 0 x0)).
    split; [reflexivity|]. split; [constructor|].
    split; [intros [|k] g _ Hn; discriminate|].
    split; [|reflexivity].
    intros [|[|j]] a b Ha Hb; simpl in *; discriminate. }
  destruct Hinv as (Hi & Hruns & Hopen & Hadj & _).
  unfold gs, __init__. simpl. fold s. split.
  - apply Forall_app. split.
    + eapply Forall_impl; [|exact Hruns]. now intros st [Ho _].
    + constructor; [|constructor].
      intros k g Hk Hn. unfold run_start, run_length in Hk. simpl in Hk.
      unfold run_texture. simpl. now apply (Hopen k g); [lia|].
  - rewrite map_app. exact Hadj.
Qed.

(** *** What [draw] draws *)

Lemma drawn_app l1 l2 : drawn (l1 ++ l2) = drawn l1 ++ drawn l2.
Proof.
  induction l1 as [|e l1 IH]; simpl; [reflexivity|].
  destruct e; simpl; now rewrite ?IH.
Qed.

Lemma matrix_depth_app l1 l2 :
  matrix_depth (l1 ++ l2) = matrix_depth l1 + matrix_depth l2.
Proof.
  induction l1 as [|e l1 IH]; [reflexivity|].
  destruct e; cbn [matrix_depth app]; rewrite ?IH; lia.
Qed.

Lemma client_depth_app l1 l2 :
  client_depth (l1 ++ l2) = client_depth l1 + client_depth l2.
Proof.
  induction l1 as [|e l1 IH]; [reflexivity|].
  destruct e; cbn [client_depth app]; rewrite ?IH; lia.
Qed.

Lemma gl_run e log : gl e log = (Ok tt, log ++ [e]).
Proof. reflexivity. Qed.

Lemma draw_states_sends from_index to_index l : forall log,
  exists r g,
    draw_states from_index (Z.of_nat to_index) l log = (r, log ++ g)
    /\ Forall (in_range from_index to_index) (drawn g)
    /\ matrix_depth g = 0 /\ client_depth g = 0.
Proof.
  induction l as [|[[sf sl] tex] rest IH]; intros log; simpl.
  - exists (Ok tt), []. rewrite app_nil_r. repeat split; constructor.
  - destruct (sf + sl <? from_index)%nat; [apply IH|].
    destruct (Z.leb_spec (Z.min (Z.of_nat sl)
                (Z.of_nat to_index - Z.of_nat (Nat.max sf from_index))) 0)
      as [Hle|Hgt].
    { exists (Ok tt), []. rewrite app_nil_r. repeat split; constructor. }
    destruct tex as [id|].
    + rewrite (bind_run _ _ _ _ _ (gl_run _ _)).
      rewrite (bind_run _ _ _ _ _ (gl_run _ _)).
      destruct (IH ((log ++ [glBindTexture id])
                      ++ [glDrawArrays (Z.of_nat (Nat.max sf from_index) * 4)
                            (Z.min (Z.of_nat sl)
                               (Z.of_nat to_index
                                - Z.of_nat (Nat.max sf from_index)) * 4)]))
        as (r & g & Hrun & Hin & Hm & Hc).
      exists r, ([glBindTexture id;
                  glDrawArrays (Z.of_nat (Nat.max sf from_index) * 4)
                    (Z.min (Z.of_nat sl)
                       (Z.of_nat to_index
                        - Z.of_nat (Nat.max sf from_index)) * 4)] ++ g).
      split; [rewrite Hrun, <- !app_assoc; reflexivity|].
      split; [|split; [exact Hm | exact Hc]].
      cbn [app drawn]. constructor; [|exact Hin].
      unfold in_range. cbn [fst snd]. lia.
    + exists (Raise AttributeError), []. rewrite app_nil_r.
      repeat split; constructor.
Qed.

(** X5. Whatever [draw(from_index, to_index)] draws lies within the
    glyphs [from_index] up to [to_index] (the end of the text when
    [to_index] is [None]), and when it returns it has popped the matrix
    and the client attributes as often as it pushed them. *)
Theorem draw_within gs from_index to_index log :
  let stop := match to_index with
              | Some n => n
              | None => length (text gs)
              end in
  exists r g,
    draw gs from_index to_index log = (r, log ++ g)
    /\ Forall (in_range from_index stop) (drawn g)
    /\ (r = Ok tt -> matrix_depth g = 0 /\ client_depth g = 0).
Proof.
  intros stop. unfold draw.
  destruct (_ || _ || _).
  { exists (Ok tt), []. rewrite app_nil_r.
    split; [reflexivity|]. split; [constructor | now split]. }
  destruct (getitem (states gs) 0) as [st0|e] eqn:Hst.
  2:{ exists (Raise e), []. rewrite app_nil_r.
      split; [|split; [constructor | discriminate]].
      now rewrite (bind_raise _ _ _ e log) by reflexivity. }
  rewrite (bind_run _ _ _ st0 log) by reflexivity.
  destruct (snd st0) as [tex|].
  2:{ exists (Raise AttributeError), []. rewrite app_nil_r.
      split; [reflexivity | split; [constructor | discriminate]]. }
  rewrite (bind_run _ _ _ _ _ (gl_run _ _)).
  fold stop.
  destruct (truthy from_index) eqn:Hfrom; simpl when.
  - destruct (getitem (cumulative_advance gs) (Z.of_nat from_index - 1))
      as [c|e] eqn:Hc.
    2:{ exists (Raise e), [apply_blend_state tex; glPushMatrix].
        split; [|split; [constructor | discriminate]].
        unfold bind, gl, modify, lift. simpl.
        now rewrite <- app_assoc. }
    assert (Hpush :
      (gl glPushMatrix ;;
       c <- lift (Ok c) ;;
       gl (glTranslatef (- c) 0 0)) (log ++ [apply_blend_state tex])
      = (Ok tt, ((log ++ [apply_blend_state tex]) ++ [glPushMatrix])
                  ++ [glTranslatef (- c) 0 0])) by reflexivity.
    rewrite (bind_run _ _ _ _ _ Hpush).
    rewrite (bind_run _ _ _ _ _ (gl_run _ _)).
    rewrite (bind_run _ _ _ _ _ (gl_run _ _)).
    match goal with
    | |- context [bind (draw_states _ _ _) _ ?L] =>
        destruct (draw_states_sends from_index stop (states gs) L)
          as (r & g & Hrun & Hin & Hm & Hcl)
    end.
    destruct r as [[]|e].
    + rewrite (bind_run _ _ _ _ _ Hrun).
      rewrite (bind_run _ _ _ _ _ (gl_run _ _)).
      exists (Ok tt),
        ([apply_blend_state tex; glPushMatrix; glTranslatef (- c) 0 0;
          glPushClientAttrib; glInterleavedArrays (array gs)]
           ++ g ++ [glPopClientAttrib; glPopMatrix]).
      split; [unfold gl, modify; simpl; now rewrite <- !app_assoc|].
      split.
      * rewrite !drawn_app. cbn [drawn app]. now rewrite app_nil_r.
      * intros _. rewrite !matrix_depth_app, !client_depth_app.
        cbn [matrix_depth client_depth]. lia.
    + rewrite (bind_raise _ _ _ _ _ Hrun).
      exists (Raise e),
        ([apply_blend_state tex; glPushMatrix; glTranslatef (- c) 0 0;
          glPushClientAttrib; glInterleavedArrays (array gs)] ++ g).
      split; [now rewrite <- !app_assoc|].
      split; [exact Hin | discriminate].
  - rewrite (bind_run _ _ _ tt (log ++ [apply_blend_state tex])) by reflexivity.
    rewrite (bind_run _ _ _ _ _ (gl_run _ _)).
    rewrite (bind_run _ _ _ _ _ (gl_run _ _)).
    match goal with
    | |- context [bind (draw_states _ _ _) _ ?L] =>
        destruct (draw_states_sends from_index stop (states gs) L)
          as (r & g & Hrun & Hin & Hm & Hcl)
    end.
    destruct r as [[]|e].
    + rewrite (bind_run _ _ _ _ _ Hrun).
      rewrite (bind_run _ _ _ _ _ (gl_run _ _)).
      exists (Ok tt),
        ([apply_blend_state tex; glPushClientAttrib;
          glInterleavedArrays (array gs)] ++ g ++ [glPopClientAttrib]).
      split; [unfold ret; simpl; now rewrite <- !app_assoc|].
      split.
      * rewrite !drawn_app. cbn [drawn app]. now rewrite app_nil_r.
      * intros _. rewrite !matrix_depth_app, !client_depth_app.
        cbn [matrix_depth client_depth]. lia.
    + rewrite (bind_raise _ _ _ _ _ Hrun).
      exists (Raise e),
        ([apply_blend_state tex; glPushClientAttrib;
          glInterleavedArrays (array gs)] ++ g).
      split; [now rewrite <- !app_assoc|].
      split; [exact Hin | discriminate].
Qed.

(** *** Every glyph of the range is drawn *)

Lemma covered_app_l r1 r2 k : covered r1 k -> covered (r1 ++ r2) k.
Proof.
  intros (f & c & Hin & H). exists f, c. split; [|exact H].
  apply in_or_app. now left.
Qed.

Lemma covered_app_r r1 r2 k : covered r2 k -> covered (r1 ++ r2) k.
Proof.
  intros (f & c & Hin & H). exists f, c. split; [|exact H].
  apply in_or_app. now right.
Qed.

Lemma draw_states_covers from_index to_index l a b :
  tiles a l b ->
  Forall (fun st => (0 < run_length st)%nat /\ run_texture st <> None) l ->
  (from_index < to_index)%nat ->
  forall log, exists g,
    draw_states from_index (Z.of_nat to_index) l log = (Ok tt, log ++ g)
    /\ forall k, (from_index <= k < to_index)%nat -> (a <= k < b)%nat ->
                 covered (drawn g) k.
Proof.
  intros Ht. induction Ht as [a | a n tex rest b Ht IH];
    intros Hall Hft log.
  - exists []. rewrite app_nil_r. split; [reflexivity | intros; lia].
  - inversion Hall as [|? ? [Hpos Htex] Hrest]; subst.
    unfold run_length, run_texture in Hpos, Htex. simpl in Hpos, Htex.
    destruct tex as [id|]; [|congruence].
    pose proof (tiles_bounds _ _ _ Ht) as [Hab _].
    simpl draw_states.
    destruct (Nat.ltb_spec (a + n) from_index) as [Hskip|Hhere].
    { destruct (IH Hrest Hft log) as (g & Hrun & Hcov).
      exists g. split; [exact Hrun|]. intros k Hk Hak. apply Hcov; lia. }
    destruct (Z.leb_spec (Z.min (Z.of_nat n)
                (Z.of_nat to_index - Z.of_nat (Nat.max a from_index))) 0)
      as [Hle|Hgt].
    { exists []. rewrite app_nil_r. split; [reflexivity | intros; lia]. }
    rewrite (bind_run _ _ _ _ _ (gl_run _ _)).
    rewrite (bind_run _ _ _ _ _ (gl_run _ _)).
    match goal with
    | |- context [draw_states _ _ rest ?L] =>
        destruct (IH Hrest Hft L) as (g & Hrun & Hcov)
    end.
    exists ([glBindTexture id;
             glDrawArrays (Z.of_nat (Nat.max a from_index) * 4)
               (Z.min (Z.of_nat n)
                  (Z.of_nat to_index - Z.of_nat (Nat.max a from_index)) * 4)]
              ++ g).
    split; [rewrite Hrun, <- !app_assoc; reflexivity|].
    intros k Hk Hak. cbn [app drawn].
    destruct (Nat.lt_ge_cases k (a + n)) as [Hin|Hout].
    + exists (Z.of_nat (Nat.max a from_index) * 4),
             (Z.min (Z.of_nat n)
                (Z.of_nat to_index - Z.of_nat (Nat.max a from_index)) * 4).
      split; [now left | lia].
    + apply (covered_app_r [_]). apply Hcov; lia.
Qed.

Lemma init_loop_open y glyphs : forall i s,
  glyphs <> [] -> (0 < state_length (init_loop y i glyphs s))%nat.
Proof.
  induction glyphs as [|g rest IH]; intros i s Hne; [congruence|].
  simpl. destruct rest as [|g' rest'].
  - simpl. unfold init_body. destruct (negb _); simpl; lia.
  - apply IH. discriminate.
Qed.

Lemma init_runs_drawable text glyphs x0 y :
  glyphs <> [] ->
  Forall (fun g => owner g <> None) glyphs ->
  Forall (fun st => (0 < run_length st)%nat /\ run_texture st <> None)
         (states (__init__ text glyphs x0 y)).
Proof.
  intros Hne Hown.
  pose (s0 := mkLocals [] None [] [] 0 0 x0).
  pose (s := init_loop y 0 glyphs s0).
  assert (Hruns : runs_inv (0 + length glyphs) s).
  { apply init_loop_runs. repeat split; simpl; constructor. }
  assert (Htex : textures_inv glyphs s).
  { apply (init_loop_textures y glyphs [] s0).
    split; [reflexivity|]. split; [constructor|].
    split; [intros [|k] g _ Hn; discriminate|].
    split; [|reflexivity].
    intros [|[|j]] a b Ha Hb; simpl in *; discriminate. }
  destruct Hruns as (_ & Hsum & Hpos).
  destruct Htex as (_ & Hown' & Hopen & _ & _).
  assert (Hlast : (0 < state_length s)%nat) by now apply init_loop_open.
  assert (Hsome : forall st, (0 < run_length st)%nat ->
            (run_start st + run_length st <= length glyphs)%nat ->
            run_owned glyphs st -> run_texture st <> None).
  { intros st Hp Hend Ho.
    destruct (nth_error glyphs (run_start st)) as [g|] eqn:E.
    - rewrite <- (Ho (run_start st) g ltac:(lia) E).
      rewrite Forall_forall in Hown. apply Hown. eapply nth_error_In; eauto.
    - apply nth_error_None in E. lia. }
  unfold __init__. simpl. fold s0. fold s. apply Forall_app. split.
  - rewrite Forall_forall in Hpos, Hown'. apply Forall_forall. intros st Hin.
    destruct (Hown' st Hin) as [Ho He]. split; [now apply Hpos|].
    apply Hsome; [now apply Hpos | lia | exact Ho].
  - constructor; [|constructor]. split; [exact Hlast|].
    apply Hsome; unfold run_start, run_length; simpl; [exact Hlast | lia |].
    intros k g Hk Hn. unfold run_start, run_length in Hk. simpl in Hk.
    unfold run_texture. simpl. apply (Hopen k g); [lia | exact Hn].
Qed.

(** X6. For a glyph string built from one glyph per character, each on a
    texture, [draw(from_index, to_index)] with
    [from_index < to_index <= len(text)] returns, and every glyph of the
    range is within one of the ranges it draws. *)
Theorem draw_covers chars glyphs x0 y from_index to_index :
  length glyphs = length chars ->
  Forall (fun g => owner g <> None) glyphs ->
  (from_index < to_index <= length glyphs)%nat ->
  forall log, exists g,
    draw (__init__ chars glyphs x0 y) from_index (Some to_index) log
    = (Ok tt, log ++ g)
    /\ forall k, (from_index <= k < to_index)%nat -> covered (drawn g) k.
Proof.
  intros Hlen Hown Hr log. set (gs := __init__ chars glyphs x0 y).
  assert (Hne : glyphs <> []) by (destruct glyphs; [simpl in Hr; lia | discriminate]).
  pose proof (init_runs_drawable chars glyphs x0 y Hne Hown) as Hdraw.
  fold gs in Hdraw.
  assert (Htiles : tiles 0 (states gs) (length glyphs)).
  { pose (s := init_loop y 0 glyphs (mkLocals [] None [] [] 0 0 x0)).
    assert (Hinv : runs_inv (0 + length glyphs) s)
      by (apply init_loop_runs; repeat split; simpl; constructor).
    destruct Hinv as (Ht & Hn & _).
    unfold gs, __init__. simpl. fold s. eapply tiles_app; [exact Ht|].
    simpl in Hn. rewrite <- Hn. constructor. constructor. }
  assert (Hcum : length (cumulative_advance gs) = length glyphs).
  { unfold gs. now rewrite cumulative_advance_running, running_length, length_map. }
  unfold draw. change (text gs) with chars.
  destruct (Nat.leb_spec (length chars) from_index); [lia|].
  destruct (Nat.eqb_spec from_index to_index); [lia|].
  destruct (Nat.eqb_spec (length chars) 0); [lia|]. cbn [orb].
  destruct (states gs) as [|[[sf sl] tex] rest] eqn:Hst;
    [inversion Htiles; subst; lia|].
  change (getitem (((sf, sl, tex) :: rest)) 0) with (Ok (sf, sl, tex)).
  rewrite (bind_run _ _ _ (sf, sl, tex) log) by reflexivity. cbn [snd].
  inversion Hdraw as [|? ? [_ Htex] _]; subst.
  unfold run_texture in Htex. simpl in Htex.
  destruct tex as [id|]; [|congruence].
  rewrite (bind_run _ _ _ _ _ (gl_run _ _)).
  unfold truthy. destruct (Nat.eqb_spec from_index 0) as [E|E]; cbn [negb when].
  - rewrite (bind_run _ _ _ tt (log ++ [apply_blend_state id])) by reflexivity.
    rewrite (bind_run _ _ _ _ _ (gl_run _ _)).
    rewrite (bind_run _ _ _ _ _ (gl_run _ _)).
    match goal with
    | |- context [bind (draw_states _ _ _) _ ?L] =>
        destruct (draw_states_covers from_index to_index _ 0 (length glyphs)
                    Htiles Hdraw ltac:(lia) L) as (g & Hrun & Hcov)
    end.
    rewrite (bind_run _ _ _ _ _ Hrun).
    rewrite (bind_run _ _ _ _ _ (gl_run _ _)).
    exists ([apply_blend_state id; glPushClientAttrib;
             glInterleavedArrays (array gs)] ++ g ++ [glPopClientAttrib]).
    split; [unfold ret; simpl; now rewrite <- !app_assoc|].
    intros k Hk. rewrite !drawn_app. cbn [drawn app].
    apply covered_app_l. apply Hcov; lia.
  - destruct (getitem_defined (cumulative_advance gs) (Z.of_nat from_index - 1))
      as [c Hc]; [lia|].
    assert (Hpush :
      (gl glPushMatrix ;;
       c <- lift (getitem (cumulative_advance gs) (Z.of_nat from_index - 1)) ;;
       gl (glTranslatef (- c) 0 0)) (log ++ [apply_blend_state id])
      = (Ok tt, ((log ++ [apply_blend_state id]) ++ [glPushMatrix])
                  ++ [glTranslatef (- c) 0 0])).
    { unfold bind, gl, modify, lift. cbn [fst snd]. now rewrite Hc. }
    rewrite (bind_run _ _ _ _ _ Hpush).
    rewrite (bind_run _ _ _ _ _ (gl_run _ _)).
    rewrite (bind_run _ _ _ _ _ (gl_run _ _)).
    match goal with
    | |- context [bind (draw_states _ _ _) _ ?L] =>
        destruct (draw_states_covers from_index to_index _ 0 (length glyphs)
                    Htiles Hdraw ltac:(lia) L) as (g & Hrun & Hcov)
    end.
    rewrite (bind_run _ _ _ _ _ Hrun).
    rewrite (bind_run _ _ _ _ _ (gl_run _ _)).
    exists ([apply_blend_state id; glPushMatrix; glTranslatef (- c) 0 0;
             glPushClientAttrib; glInterleavedArrays (array gs)]
              ++ g ++ [glPopClientAttrib; glPopMatrix]).
    split; [unfold gl, modify; simpl; now rewrite <- !app_assoc|].
    intros k Hk. rewrite !drawn_app. cbn [drawn app].
    apply covered_app_l. apply Hcov; lia.
Qed.

Lemma draw_covers_witness :
  exists g,
    draw abcd 1 (Some 4%nat) [] = (Ok tt, [] ++ g)
    /\ forall k, (1 <= k < 4)%nat -> covered (drawn g) k.
Proof.
  apply (draw_covers [97; 98; 99; 100]%N abcd_glyphs 5 0 1 4).
  - reflexivity.
  - repeat constructor; discriminate.
  - simpl. lia.
Defined.

End GlyphStringMore.

(** ** Loading fonts *)

Module FontLoadFacts.

Import FontLoad.

(** *** Descriptors *)

Lemma name_eqb_eq a b : name_eqb a b = true <-> a = b.
Proof.
  destruct a as [s|], b as [t|]; simpl; split; try congruence.
  - intros H. apply String.eqb_eq in H. congruence.
  - intros H. inversion H. apply String.eqb_refl.
Qed.

Lemma descriptor_eqb_iff (a b : descriptor) :
  descriptor_eqb a b = true
  <-> fst (fst (fst a)) = fst (fst (fst b))
      /\ (snd (fst (fst a)) == snd (fst (fst b)))%Q
      /\ snd (fst a) = snd (fst b) /\ snd a = snd b.
Proof.
  destruct a as [[[n1 s1] b1] i1], b as [[[n2 s2] b2] i2]. simpl.
  rewrite !andb_true_iff, name_eqb_eq, Qeq_bool_iff, !Bool.eqb_true_iff.
  tauto.
Qed.

Lemma descriptor_eqb_refl a : descriptor_eqb a a = true.
Proof. apply descriptor_eqb_iff. split; [|split; [|split]]; reflexivity. Qed.

Lemma descriptor_eqb_sym a b :
  descriptor_eqb a b = true -> descriptor_eqb b a = true.
Proof.
  rewrite !descriptor_eqb_iff. intros (H1 & H2 & H3 & H4).
  split; [congruence|]. split; [now symmetry|]. split; congruence.
Qed.

Lemma descriptor_eqb_trans a b c :
  descriptor_eqb a b = true -> descriptor_eqb b c = true ->
  descriptor_eqb a c = true.
Proof.
  rewrite !descriptor_eqb_iff. intros (H1 & H2 & H3 & H4) (K1 & K2 & K3 & K4).
  split; [congruence|]. split; [now rewrite H2|]. split; congruence.
Qed.

(** Equal descriptors find the same font. *)
Lemma cache_get_equal cache d d' :
  descriptor_eqb d d' = true -> cache_get cache d = cache_get cache d'.
Proof.
  intros Hd. induction cache as [|[k f] rest IH]; simpl; [reflexivity|].
  destruct (descriptor_eqb k d) eqn:E1, (descriptor_eqb k d') eqn:E2;
    try reflexivity; try exact IH.
  - rewrite (descriptor_eqb_trans _ _ _ E1 Hd) in E2. discriminate.
  - rewrite (descriptor_eqb_trans _ _ _ E2 (descriptor_eqb_sym _ _ Hd)) in E1.
    discriminate.
Qed.

Lemma cache_get_In cache d f :
  cache_get cache d = Some f ->
  exists k, In (k, f) cache /\ descriptor_eqb k d = true.
Proof.
  induction cache as [|[k0 f0] rest IH]; simpl; [discriminate|].
  destruct (descriptor_eqb k0 d) eqn:E.
  - intros H. inversion H; subst. exists k0. split; [now left | exact E].
  - intros H. destruct (IH H) as (k & Hin & Hk). exists k. split; [now right | exact Hk].
Qed.

(** *** The cache *)

Lemma cache_ok_below cache next :
  cache_ok cache next -> Forall (fun e => (serial (snd e) < next)%nat) cache.
Proof.
  induction cache as [|[k f] rest IH]; simpl; [constructor|].
  intros (Hlt & _ & _ & Hrest). constructor; [exact Hlt | now apply IH].
Qed.

Lemma cache_ok_later cache next next' :
  (next <= next')%nat -> cache_ok cache next -> cache_ok cache next'.
Proof.
  intros Hle. induction cache as [|[k f] rest IH]; simpl; [trivial|].
  intros (Hlt & Hnew & Hser & Hrest).
  split; [lia|]. split; [exact Hnew|]. split; [exact Hser | now apply IH].
Qed.

(** Two fonts of a cache with the same serial number were stored under
    equal descriptors. *)
Lemma cache_get_serial cache next d d' f f' :
  cache_ok cache next ->
  cache_get cache d = Some f -> cache_get cache d' = Some f' ->
  serial f = serial f' -> descriptor_eqb d d' = true.
Proof.
  induction cache as [|[k0 f0] rest IH]; simpl; [discriminate|].
  intros (_ & _ & Hser & Hrest) Hd Hd' Hs.
  rewrite Forall_forall in Hser.
  destruct (descriptor_eqb k0 d) eqn:E1, (descriptor_eqb k0 d') eqn:E2.
  - exact (descriptor_eqb_trans _ _ _ (descriptor_eqb_sym _ _ E1) E2).
  - inversion Hd; subst. apply cache_get_In in Hd' as (k & Hin & _).
    exfalso. apply (Hser _ Hin). simpl. congruence.
  - inversion Hd'; subst. apply cache_get_In in Hd as (k & Hin & _).
    exfalso. apply (Hser _ Hin). simpl. congruence.
  - now apply IH.
Qed.

Section WithFontClass.

Context {font_class : FontClass}.

(** After [load] the cache is in order and holds the font returned under
    the descriptor asked for. *)
Lemma load_stores name size bold italic sp :
  space_ok sp ->
  let r := load name size bold italic sp in
  exists cache,
    pyglet_font_font_cache (snd r) = Some cache
    /\ cache_ok cache (made (snd r))
    /\ cache_get cache (wanted name size bold italic) = Some (fst r)
    /\ (made sp <= made (snd r))%nat.
Proof.
  intros Hok. unfold load. fold (wanted name size bold italic).
  set (d := wanted name size bold italic).
  set (c := match pyglet_font_font_cache sp with
            | Some cache => cache
            | None => []
            end).
  assert (Hc : cache_ok c (made sp)).
  { unfold c, space_ok in *. destruct (pyglet_font_font_cache sp);
      [exact Hok | exact I]. }
  destruct (cache_get c d) as [f|] eqn:E; simpl.
  - exists c. repeat split; [exact Hc | exact E | lia].
  - exists ((d, mkFont (made sp) d) :: c).
    split; [reflexivity|]. split; [|split; [|lia]].
    + simpl. split; [lia|]. split; [exact E|]. split.
      * eapply Forall_impl; [|exact (cache_ok_below _ _ Hc)].
        simpl. intros e He. lia.
      * apply (cache_ok_later c (made sp)); [lia | exact Hc].
    + cbn [cache_get fst snd]. now rewrite descriptor_eqb_refl.
Qed.

(** X7. Two calls of [load], the second right after the first, return the
    same font object exactly when the descriptors they look up are equal:
    the names (the first known one of a list, or None), the sizes as
    numbers, and both flags. When they are, the second call makes no font.
    This holds from any object space whose cache is in order, and leaves
    one. *)
Theorem load_same_font name1 size1 bold1 italic1 name2 size2 bold2 italic2 sp :
  space_ok sp ->
  let r1 := load name1 size1 bold1 italic1 sp in
  let r2 := load name2 size2 bold2 italic2 (snd r1) in
  (serial (fst r1) = serial (fst r2)
   <-> descriptor_eqb (wanted name1 size1 bold1 italic1)
                      (wanted name2 size2 bold2 italic2) = true)
  /\ (descriptor_eqb (wanted name1 size1 bold1 italic1)
                     (wanted name2 size2 bold2 italic2) = true ->
      fst r2 = fst r1 /\ made (snd r2) = made (snd r1))
  /\ space_ok (snd r2).
Proof.
  intros Hok r1 r2.
  destruct (load_stores name1 size1 bold1 italic1 sp Hok)
    as (c1 & Hc1 & Hok1 & Hget1 & _). fold r1 in Hc1, Hok1, Hget1.
  assert (Hsp1 : space_ok (snd r1)) by (unfold space_ok; now rewrite Hc1).
  destruct (load_stores name2 size2 bold2 italic2 (snd r1) Hsp1)
    as (c2 & Hc2 & Hok2 & Hget2 & _). fold r2 in Hc2, Hok2, Hget2.
  set (d1 := wanted name1 size1 bold1 italic1) in *.
  set (d2 := wanted name2 size2 bold2 italic2) in *.
  assert (Hhit : descriptor_eqb d1 d2 = true ->
            fst r2 = fst r1 /\ made (snd r2) = made (snd r1)).
  { intros Heq. unfold r2, load. fold (wanted name2 size2 bold2 italic2).
    fold d2. rewrite Hc1.
    rewrite <- (cache_get_equal c1 d1 d2 Heq), Hget1. now split. }
  split; [|split; [exact Hhit | unfold space_ok; now rewrite Hc2]].
  split; [|intros Heq; now destruct (Hhit Heq) as [-> _]].
  intros Hser.
  destruct (descriptor_eqb d1 d2) eqn:Heq; [reflexivity|]. exfalso.
  unfold r2, load in Hser. fold (wanted name2 size2 bold2 italic2) in Hser.
  fold d2 in Hser. rewrite Hc1 in Hser.
  destruct (cache_get c1 d2) as [f2|] eqn:E2; simpl in Hser.
  - rewrite (cache_get_serial c1 _ d1 d2 _ _ Hok1 Hget1 E2 Hser) in Heq.
    discriminate.
  - apply cache_get_In in Hget1 as (k & Hin & _).
    pose proof (cache_ok_below _ _ Hok1) as Hlt.
    rewrite Forall_forall in Hlt. specialize (Hlt _ Hin). simpl in Hlt. lia.
Qed.

End WithFontClass.

Lemma load_same_font_witness :
  let r1 := @load arial_only (Names ["Helvetica"; "Arial"]%string) (24 # 2)
              false false (mkSpace None 0) in
  let r2 := @load arial_only (Name (Some "Arial"%string)) (12 # 1)
              false false (snd r1) in
  fst r2 = fst r1 /\ made (snd r2) = made (snd r1).
Proof.
  refine (proj1 (proj2 (@load_same_font arial_only
            (Names ["Helvetica"; "Arial"]%string) (24 # 2) false false
            (Name (Some "Arial"%string)) (12 # 1) false false
            (mkSpace None 0) _)) _).
  - exact I.
  - reflexivity.
Defined.

(** *** Adding a directory *)

Lemma text_eqb_eq a : forall b, text_eqb a b = true <-> a = b.
Proof.
  induction a as [|c a IH]; intros [|d b]; simpl; split; try congruence.
  - intros H. apply andb_true_iff in H as [H1 H2].
    apply N.eqb_eq in H1. apply IH in H2. congruence.
  - intros H. inversion H; subst. rewrite N.eqb_refl. now apply IH.
Qed.

Lemma passes_filter lower file :
  lowers_ttf lower ->
  text_eqb (map lower (but_last_four file)) ttf = true <-> ttf_first file.
Proof.
  intros (Hdot & Ht & Hf). rewrite text_eqb_eq. unfold but_last_four, ttf.
  destruct file as [|c1 [|c2 [|c3 [|c4 [|c5 [|c6 [|c7 [|c8 [|c9 rest]]]]]]]]];
    simpl; try (split; [discriminate | contradiction]).
  split.
  - intros H. injection H as H1 H2 H3 H4.
    split; [now apply Hdot|]. split; [now apply Ht|].
    split; [now apply Ht | now apply Hf].
  - intros (H1 & H2 & H3 & H4).
    apply Hdot in H1. apply Ht in H2. apply Ht in H3. apply Hf in H4.
    now rewrite H1, H2, H3, H4.
Qed.

Section WithFontFiles.

Context {files : FontFiles}.

Lemma opened_app (l1 l2 : list request) :
  opened (l1 ++ l2) = opened l1 ++ opened l2.
Proof.
  induction l1 as [|[font|font] l1 IH]; simpl; [reflexivity | |];
    now rewrite IH.
Qed.

Lemma add_file_run font log :
  fst (add_file font log) = raised font
  /\ opened (snd (add_file font log)) = opened log ++ [font].
Proof.
  unfold raised, add_file. destruct (read_file font) as [data|e]; simpl.
  - split; [reflexivity|]. rewrite !opened_app. simpl.
    now rewrite app_nil_r.
  - split; [reflexivity|]. now rewrite opened_app.
Qed.

(** The loop hands the names that pass the test to [add_file] one after
    the other, as long as it returns. *)
Lemma add_directory_run lower listing : forall log,
  let r := add_directory lower listing log in
  exists tried later,
    filter (passes lower) listing = tried ++ later
    /\ opened (snd r) = opened log ++ tried
    /\ match fst r with
       | None => later = [] /\ Forall (fun f => raised f = None) tried
       | Some e =>
           exists before file,
             tried = before ++ [file]
             /\ Forall (fun f => raised f = None) before
             /\ raised file = Some e
       end.
Proof.
  induction listing as [|file rest IH]; intros log; simpl.
  - exists [], []. split; [reflexivity|]. split; [now rewrite app_nil_r|].
    split; [reflexivity | constructor].
  - destruct (passes lower file) eqn:Hpass; [|apply IH].
    destruct (add_file_run file log) as [Hfst Hopened].
    destruct (add_file file log) as [[e|] log'] eqn:Hadd; simpl in Hfst, Hopened.
    + exists [file], (filter (passes lower) rest).
      split; [reflexivity|]. split; [exact Hopened|].
      exists [], file. split; [reflexivity|]. split; [constructor | now symmetry].
    + destruct (IH log') as (tried & later & Hsplit & Hop & Hend).
      exists (file :: tried), later.
      split; [simpl; now rewrite Hsplit|].
      split; [now rewrite Hop, Hopened, <- app_assoc|].
      destruct (fst (add_directory lower rest log')) as [e|].
      * destruct Hend as (before & last & Htried & Hbefore & Hlast).
        exists (file :: before), last.
        split; [simpl; now rewrite Htried|].
        split; [constructor; [now symmetry | exact Hbefore] | exact Hlast].
      * destruct Hend as [Hlater Hall].
        split; [exact Hlater | constructor; [now symmetry | exact Hall]].
Qed.

(** X8. With a [lower()] that takes only ".", "t"/"T" and "f"/"F" to the
    characters of ".ttf", the names that pass the test of [add_directory]
    are the listed names of eight characters that begin with ".ttf" in
    either case, since it compares all but the last four characters with
    ".ttf". It hands them to [add_file] as they are listed, one after the
    other, until a call raises: all of them when [add_directory] returns,
    and otherwise those up to the first on which [add_file] raises, with
    the exception of that call. A name that ends in ".ttf" is opened only
    if what comes before is itself ".ttf". *)
Theorem add_directory_adds lower listing :
  lowers_ttf lower ->
  let fonts := filter (passes lower) listing in
  let r := add_directory lower listing [] in
  (forall file, In file fonts <-> In file listing /\ ttf_first file)
  /\ (exists later,
        fonts = opened (snd r) ++ later
        /\ match fst r with
           | None =>
               later = []
               /\ Forall (fun f => raised f = None) (opened (snd r))
           | Some e =>
               exists before file,
                 opened (snd r) = before ++ [file]
                 /\ Forall (fun f => raised f = None) before
                 /\ raised file = Some e
           end)
  /\ (forall stem, In (stem ++ ttf) (opened (snd r)) ->
                   map lower stem = ttf).
Proof.
  intros Hlower fonts r.
  assert (Hin : forall file, In file fonts
                             <-> In file listing /\ ttf_first file).
  { intros file. unfold fonts. rewrite filter_In. unfold passes.
    now rewrite (passes_filter lower file Hlower). }
  destruct (add_directory_run lower listing [])
    as (tried & later & Hsplit & Hop & Hend).
  fold r in Hop, Hend. fold fonts in Hsplit. simpl in Hop.
  split; [exact Hin|]. split.
  - exists later. rewrite Hop. split; [exact Hsplit | exact Hend].
  - intros stem Hstem.
    assert (Hfont : In (stem ++ ttf) fonts)
      by (rewrite Hsplit, <- Hop; apply in_or_app; now left).
    apply Hin in Hfont as [_ Hfirst].
    apply (passes_filter lower _ Hlower) in Hfirst.
    apply text_eqb_eq in Hfirst. unfold but_last_four in Hfirst.
    rewrite length_app in Hfirst. simpl length in Hfirst.
    replace (length stem + 4 - 4)%nat with (length stem + 0)%nat
      in Hfirst by lia.
    now rewrite firstn_app_2, firstn_O, app_nil_r in Hfirst.
Qed.

End WithFontFiles.

Lemma ascii_lowers_ttf : lowers_ttf ascii_lower.
Proof.
  unfold lowers_ttf, ascii_lower.
  repeat split; intros H;
    destruct (N.leb_spec 65 c); destruct (N.leb_spec c 90);
    simpl in *; lia.
Qed.

Lemma add_directory_adds_witness :
  let listing := [[97; 46; 116; 116; 102]%N;
                  [46; 84; 116; 70; 97; 98; 99; 100]%N] in
  let fonts := filter (passes ascii_lower) listing in
  let r := add_directory (files := one_file) ascii_lower listing [] in
  (forall file, In file fonts <-> In file listing /\ ttf_first file)
  /\ (exists later,
        fonts = opened (snd r) ++ later
        /\ match fst r with
           | None =>
               later = []
               /\ Forall (fun f => raised (files := one_file) f = None)
                    (opened (snd r))
           | Some e =>
               exists before file,
                 opened (snd r) = before ++ [file]
                 /\ Forall (fun f => raised (files := one_file) f = None)
                      before
                 /\ raised (files := one_file) file = Some e
           end)
  /\ (forall stem, In (stem ++ ttf) (opened (snd r)) ->
                   map ascii_lower stem = ttf).
Proof.
  exact (add_directory_adds (files := one_file) ascii_lower
           [[97; 46; 116; 116; 102]%N; [46; 84; 116; 70; 97; 98; 99; 100]%N]
           ascii_lowers_ttf).
Defined.

(** "a.ttf" is skipped and ".TtFabcd" is opened by that name. *)
Example add_directory_skips_fonts :
  add_directory (files := one_file) ascii_lower
    [[97; 46; 116; 116; 102]%N; [46; 84; 116; 70; 97; 98; 99; 100]%N] []
  = (None, [open_call (files := one_file)
              [46; 84; 116; 70; 97; 98; 99; 100]%N;
            add_font_data_call (files := one_file) tt]).
Proof. reflexivity. Qed.

(** A name that passes the test and cannot be opened ends the loop: the
    font listed after it is not looked at. *)
Example add_directory_stops :
  add_directory (files := one_file) ascii_lower
    [[46; 116; 116; 102; 120; 120; 120; 120]%N;
     [46; 84; 116; 70; 97; 98; 99; 100]%N] []
  = (Some tt, [open_call (files := one_file)
                 [46; 116; 116; 102; 120; 120; 120; 120]%N]).
Proof. reflexivity. Qed.

End FontLoadFacts.

(** ** More on displayable text *)

Module TextMore.

Import Text TextFacts.

(** *** Attributes that a method leaves alone *)

Section Fixes.

Context {B : Type} (f : Text.t -> B).

Lemma fixes_ret {A : Type} (a : A) : fixes f (ret a).
Proof. intros t log r t' log' H. inversion H. reflexivity. Qed.

Lemma fixes_lift {A : Type} (r : result A) : fixes f (lift r).
Proof. intros t log r' t' log' H. inversion H. reflexivity. Qed.

Lemma fixes_self : fixes f self.
Proof. intros t log r t' log' H. inversion H. reflexivity. Qed.

Lemma fixes_attr {A : Type} (o : option A) : fixes f (attr o).
Proof. destruct o; [apply fixes_ret | apply fixes_lift]. Qed.

Lemma fixes_call {A : Type} (m : prog (list GlyphString.event) A) :
  fixes f (call m).
Proof.
  intros t log r t' log'. unfold call. simpl.
  destruct (m log) as [r0 log0]. intros H. inversion H. reflexivity.
Qed.

Lemma fixes_assign (g : Text.t -> Text.t) :
  (forall s, f (g s) = f s) -> fixes f (assign g).
Proof. intros Hg t log r t' log' H. inversion H. apply Hg. Qed.

Lemma fixes_bind {A C : Type} (m : M A) (k : A -> M C) :
  fixes f m -> (forall a, fixes f (k a)) -> fixes f (bind m k).
Proof.
  intros Hm Hk t log r t' log'. unfold bind.
  destruct (m (t, log)) as [[a|e] [t1 log1]] eqn:E; intros H.
  - rewrite (Hk a _ _ _ _ _ H). exact (Hm _ _ _ _ _ E).
  - inversion H; subst. exact (Hm _ _ _ _ _ E).
Qed.

Lemma fixes_when (b : bool) (m : M unit) : fixes f m -> fixes f (when b m).
Proof. intros Hm. destruct b; [exact Hm | apply fixes_ret]. Qed.

Hypothesis lines_apart : forall v s, f (set_lines v s) = f s.

Lemma fixes_lines_append line : fixes f (lines_append line).
Proof.
  unfold lines_append.
  apply fixes_bind; [apply fixes_self | intros s].
  apply fixes_bind; [apply fixes_attr | intros ls].
  apply fixes_assign. intros s'. apply lines_apart.
Qed.

Lemma fixes_wrap_loop (text : text_t) width : forall fuel i bp,
  fixes f (wrap_loop fuel text width i bp).
Proof.
  induction fuel as [|fuel IH]; intros i bp; simpl;
    (destruct (_ && _); [|apply fixes_ret]); [apply fixes_lift|].
  apply fixes_bind; [apply fixes_lift | intros c].
  apply fixes_bind.
  { destruct (N.eqb c NEWLINE); apply fixes_lines_append. }
  intros _. apply fixes_bind; [apply fixes_self | intros s].
  apply fixes_bind; [apply fixes_attr | intros gs].
  apply fixes_bind; [apply fixes_lift | intros bp']. apply IH.
Qed.

(** Wrapping to a width assigns nothing but the lines. *)
Lemma fixes_layout_wrapped (text : text_t) gs width :
  fixes f (layout_lines text gs (Some width)).
Proof.
  unfold layout_lines.
  apply fixes_bind; [apply fixes_lift | intros bp].
  apply fixes_bind; [apply fixes_wrap_loop | intros i].
  apply fixes_when, fixes_lines_append.
Qed.

Hypothesis text_width_apart : forall v s, f (set_text_width v s) = f s.

Lemma fixes_widen i e : fixes f (widen i e).
Proof.
  unfold widen.
  apply fixes_bind; [apply fixes_self | intros s].
  apply fixes_bind; [apply fixes_attr | intros gs].
  apply fixes_bind; [apply fixes_lift | intros w].
  apply fixes_assign. intros s'. apply text_width_apart.
Qed.

Lemma fixes_newline_loop (text : text_t) : forall fuel i,
  fixes f (newline_loop fuel text i).
Proof.
  induction fuel as [|fuel IH]; intros i; simpl;
    (destruct (existsb _ _); [|apply fixes_ret]); [apply fixes_lift|].
  apply fixes_bind; [apply fixes_lift | intros e].
  apply fixes_bind; [apply fixes_lines_append | intros _].
  apply fixes_bind; [apply fixes_widen | intros _]. apply IH.
Qed.

(** Finding the lines in either mode assigns nothing but the lines and the
    text width. *)
Lemma fixes_layout_lines (text : text_t) gs width :
  fixes f (layout_lines text gs width).
Proof.
  destruct width as [width|]; [apply fixes_layout_wrapped|].
  unfold layout_lines.
  apply fixes_bind;
    [apply fixes_assign; intros s; apply text_width_apart | intros _].
  apply fixes_bind; [apply fixes_newline_loop | intros i].
  apply fixes_when.
  apply fixes_bind; [apply fixes_lines_append | intros _]. apply fixes_widen.
Qed.

End Fixes.

(** *** Calls that leave the stacks of OpenGL alone *)

Lemma attrib_depth_app l1 l2 :
  attrib_depth (l1 ++ l2) = attrib_depth l1 + attrib_depth l2.
Proof.
  induction l1 as [|e l1 IH]; [reflexivity|].
  destruct e; cbn [attrib_depth app]; rewrite ?IH; lia.
Qed.

Lemma balanced_nil : balanced [].
Proof. repeat split. Qed.

Lemma balanced_app g1 g2 : balanced g1 -> balanced g2 -> balanced (g1 ++ g2).
Proof.
  intros (M1 & C1 & A1) (M2 & C2 & A2). unfold balanced.
  rewrite GlyphStringMore.matrix_depth_app, GlyphStringMore.client_depth_app,
    attrib_depth_app.
  lia.
Qed.

(** The depths of a log that is put together from others. *)
Ltac depths :=
  unfold balanced in *;
  rewrite ?GlyphStringMore.matrix_depth_app, ?GlyphStringMore.client_depth_app,
    ?attrib_depth_app;
  cbn [GlyphString.matrix_depth GlyphString.client_depth attrib_depth];
  lia.

Lemma draw_states_ok from_index to_index l :
  Forall (fun st => GlyphString.run_texture st <> None) l ->
  exists g,
    (forall log, GlyphString.draw_states from_index to_index l log
                 = (Ok tt, log ++ g))
    /\ balanced g.
Proof.
  induction l as [|[[sf sl] tex] rest IH]; intros Hall.
  - exists []. split; [intros log; simpl; now rewrite app_nil_r|].
    apply balanced_nil.
  - inversion Hall as [|? ? Htex Hrest]; subst.
    destruct (IH Hrest) as (g & Hg & Hb). simpl.
    destruct (sf + sl <? from_index)%nat; [exists g; now split|].
    destruct (Z.min _ _ <=? 0).
    { exists []. split; [intros log; unfold ret; now rewrite app_nil_r|].
      apply balanced_nil. }
    unfold GlyphString.run_texture in Htex. simpl in Htex.
    destruct tex as [id|]; [|congruence].
    eexists ([GlyphString.glBindTexture id; GlyphString.glDrawArrays _ _] ++ g).
    split.
    + intros log.
      rewrite (bind_run _ _ _ _ _ (GlyphStringMore.gl_run _ _)).
      rewrite (bind_run _ _ _ _ _ (GlyphStringMore.gl_run _ _)).
      rewrite Hg. now rewrite <- !app_assoc.
    + apply balanced_app; [repeat split | exact Hb].
Qed.

(** [GlyphString.draw] completes for any range when every glyph has a
    texture. *)
Lemma glyph_string_draw_ok chars glyphs x0 y from_index to_index :
  length glyphs = length chars ->
  Forall (fun g => GlyphString.owner g <> None) glyphs ->
  exists g,
    (forall log,
       GlyphString.draw (GlyphString.__init__ chars glyphs x0 y)
         from_index (Some to_index) log
       = (Ok tt, log ++ g))
    /\ balanced g.
Proof.
  intros Hlen Hown. set (gs := GlyphString.__init__ chars glyphs x0 y).
  unfold GlyphString.draw. change (GlyphString.text gs) with chars.
  destruct (Nat.leb_spec (length chars) from_index) as [Hge|Hlt].
  { exists []. split; [intros log; unfold ret; now rewrite app_nil_r|].
    apply balanced_nil. }
  cbn [orb].
  destruct (_ || _).
  { exists []. split; [intros log; unfold ret; now rewrite app_nil_r|].
    apply balanced_nil. }
  assert (Hne : glyphs <> [])
    by (destruct glyphs; [simpl in Hlen; lia | discriminate]).
  pose proof (GlyphStringMore.init_runs_drawable chars glyphs x0 y Hne Hown)
    as Hdraw.
  fold gs in Hdraw.
  assert (Hcum : length (GlyphString.cumulative_advance gs) = length glyphs).
  { unfold gs. now rewrite GlyphStringFacts.cumulative_advance_running,
      GlyphStringFacts.running_length, length_map. }
  destruct (GlyphString.states gs) as [|[[sf sl] tex] rest] eqn:Hst.
  { unfold gs, GlyphString.__init__ in Hst. simpl in Hst.
    symmetry in Hst. now apply app_cons_not_nil in Hst. }
  change (getitem (((sf, sl, tex) :: rest)) 0) with (Ok (sf, sl, tex)).
  assert (Htexs : Forall (fun st => GlyphString.run_texture st <> None)
                         ((sf, sl, tex) :: rest)).
  { eapply Forall_impl; [|exact Hdraw]. now intros st [_ H]. }
  destruct (draw_states_ok from_index (Z.of_nat to_index) _ Htexs)
    as (g & Hg & Hb).
  inversion Htexs as [|? ? Htex _]; subst.
  unfold GlyphString.run_texture in Htex. simpl in Htex.
  destruct tex as [id|]; [|congruence].
  unfold truthy. destruct (Nat.eqb_spec from_index 0) as [E|E]; cbn [negb when].
  - exists ([GlyphString.apply_blend_state id; GlyphString.glPushClientAttrib;
             GlyphString.glInterleavedArrays (GlyphString.array gs)]
              ++ g ++ [GlyphString.glPopClientAttrib]).
    split.
    + intros log.
      rewrite (bind_run _ _ _ (sf, sl, Some id) log) by reflexivity. cbn [snd].
      rewrite (bind_run _ _ _ _ _ (GlyphStringMore.gl_run _ _)).
      rewrite (bind_run _ _ _ tt (log ++ [GlyphString.apply_blend_state id]))
        by reflexivity.
      rewrite (bind_run _ _ _ _ _ (GlyphStringMore.gl_run _ _)).
      rewrite (bind_run _ _ _ _ _ (GlyphStringMore.gl_run _ _)).
      rewrite (bind_run _ _ _ _ _ (Hg _)).
      rewrite (bind_run _ _ _ _ _ (GlyphStringMore.gl_run _ _)).
      unfold ret. now rewrite <- !app_assoc.
    + depths.
  - destruct (GlyphStringFacts.getitem_defined
                (GlyphString.cumulative_advance gs) (Z.of_nat from_index - 1))
      as [c Hc]; [lia|].
    exists ([GlyphString.apply_blend_state id; GlyphString.glPushMatrix;
             GlyphString.glTranslatef (- c) 0 0;
             GlyphString.glPushClientAttrib;
             GlyphString.glInterleavedArrays (GlyphString.array gs)]
              ++ g ++ [GlyphString.glPopClientAttrib; GlyphString.glPopMatrix]).
    split.
    + intros log.
      rewrite (bind_run _ _ _ (sf, sl, Some id) log) by reflexivity. cbn [snd].
      rewrite (bind_run _ _ _ _ _ (GlyphStringMore.gl_run _ _)).
      assert (Hpush :
        (GlyphString.gl GlyphString.glPushMatrix ;;
         c <- lift (getitem (GlyphString.cumulative_advance gs)
                      (Z.of_nat from_index - 1)) ;;
         GlyphString.gl (GlyphString.glTranslatef (- c) 0 0))
          (log ++ [GlyphString.apply_blend_state id])
        = (Ok tt, ((log ++ [GlyphString.apply_blend_state id])
                     ++ [GlyphString.glPushMatrix])
                    ++ [GlyphString.glTranslatef (- c) 0 0])).
      { unfold bind, GlyphString.gl, modify, lift. cbn [fst snd].
        now rewrite Hc. }
      rewrite (bind_run _ _ _ _ _ Hpush).
      rewrite (bind_run _ _ _ _ _ (GlyphStringMore.gl_run _ _)).
      rewrite (bind_run _ _ _ _ _ (GlyphStringMore.gl_run _ _)).
      rewrite (bind_run _ _ _ _ _ (Hg _)).
      rewrite (bind_run _ _ _ _ _ (GlyphStringMore.gl_run _ _)).
      unfold GlyphString.gl, modify. now rewrite <- !app_assoc.
    + depths.
Qed.

(** *** Methods that only send calls *)

Lemma sends_ret t {A : Type} (a : A) : sends t (ret a) a [].
Proof. intros log. unfold ret. now rewrite app_nil_r. Qed.

Lemma sends_lift t {A : Type} (a : A) : sends t (lift (Ok a)) a [].
Proof. intros log. unfold lift. now rewrite app_nil_r. Qed.

Lemma sends_self t : sends t self t [].
Proof. intros log. unfold self, gets. simpl. now rewrite app_nil_r. Qed.

Lemma sends_attr t {A : Type} (a : A) : sends t (attr (Some a)) a [].
Proof. apply sends_ret. Qed.

Lemma sends_call t {A : Type} (m : prog (list GlyphString.event) A) a g :
  (forall log, m log = (Ok a, log ++ g)) -> sends t (call m) a g.
Proof. intros Hm log. unfold call. simpl. now rewrite Hm. Qed.

Lemma sends_gl t e : sends t (call (GlyphString.gl e)) tt [e].
Proof. apply sends_call. intros log. reflexivity. Qed.

Lemma sends_bind t {A B : Type} (m : M A) (k : A -> M B) a b g1 g2 :
  sends t m a g1 -> sends t (k a) b g2 -> sends t (bind m k) b (g1 ++ g2).
Proof.
  intros Hm Hk log. unfold bind. rewrite Hm, Hk. now rewrite app_assoc.
Qed.

(** *** Slices of a text *)

Lemma slice_all {A : Type} (l : list A) a :
  GlyphString.slice l a (length l) = skipn a l.
Proof.
  unfold GlyphString.slice. apply firstn_all2. rewrite length_skipn. lia.
Qed.

(** A slice and what follows it. *)
Lemma slice_skipn {A : Type} (l : list A) a b :
  (a <= b)%nat -> skipn a l = GlyphString.slice l a b ++ skipn b l.
Proof.
  intros Hab. unfold GlyphString.slice.
  rewrite <- (firstn_skipn (b - a) (skipn a l)) at 1.
  f_equal. rewrite skipn_skipn. f_equal. lia.
Qed.

Lemma skipn_nth {A : Type} (l : list A) : forall k x,
  nth_error l k = Some x -> skipn k l = x :: skipn (S k) l.
Proof.
  induction l as [|a l IH]; intros [|k] x H; try discriminate.
  - inversion H. reflexivity.
  - simpl in H. simpl. now apply IH.
Qed.

(** A slice that ends one character later. *)
Lemma slice_snoc {A : Type} (l : list A) a b x :
  (a <= b)%nat -> nth_error l b = Some x ->
  GlyphString.slice l a (S b) = GlyphString.slice l a b ++ [x].
Proof.
  intros Hab Hx.
  assert (Hb : (b < length l)%nat) by (apply nth_error_Some; congruence).
  pose proof (slice_skipn l a b Hab) as H1.
  pose proof (slice_skipn l a (S b) ltac:(lia)) as H2.
  rewrite (skipn_nth l b x Hx) in H1. rewrite H1 in H2.
  change (x :: skipn (S b) l) with ([x] ++ skipn (S b) l) in H2.
  rewrite app_assoc in H2. apply app_inv_tail in H2. now symmetry.
Qed.

(** *** What [_clean] leaves *)

Lemma index_from_first (c : char) (l : text_t) : forall k,
  index_from c l = Some k ->
  nth_error l k = Some c /\ ~ In c (firstn k l).
Proof.
  induction l as [|a l IH]; intros k; simpl; [discriminate|].
  destruct (N.eqb_spec a c) as [E|E].
  - intros H. inversion H; subst. split; [reflexivity | intros []].
  - destruct (index_from c l) as [k'|]; [|discriminate].
    intros H. inversion H; subst. destruct (IH k' eq_refl) as [Hn Hf].
    split; [exact Hn|]. simpl. intros [Ha|Hin]; [congruence | now apply Hf].
Qed.

(** [text.index('\n', i)] is the first newline from [i] on. *)
Lemma str_index_first (text : text_t) i e :
  str_index text NEWLINE i = Ok e ->
  (i <= e)%nat /\ nth_error text e = Some NEWLINE
  /\ ~ In NEWLINE (span text (i, e)).
Proof.
  unfold str_index. destruct (index_from NEWLINE (skipn i text)) as [k|] eqn:E;
    [|discriminate].
  intros H. inversion H; subst. apply index_from_first in E as [Hn Hf].
  split; [lia|]. split.
  - now rewrite nth_error_skipn in Hn.
  - unfold span, GlyphString.slice. simpl fst. simpl snd.
    now replace (i + k - i)%nat with k by lia.
Qed.

Lemma existsb_In (c : char) (l : text_t) :
  existsb (N.eqb c) l = false -> ~ In c l.
Proof.
  intros H Hin. assert (existsb (N.eqb c) l = true); [|congruence].
  apply existsb_exists. exists c. split; [exact Hin | apply N.eqb_refl].
Qed.

(** The loop of the mode without a width: each line runs up to the next
    newline, and the loop stops where no newline follows. *)
Lemma newline_loop_split gs (text : text_t) :
  length (GlyphString.cumulative_advance gs) = length text ->
  forall fuel i t log ls,
    (length text - i <= fuel)%nat -> (i <= length text)%nat ->
    _glyph_string t = Some gs -> lines t = Some ls ->
    exists i' t' more,
      newline_loop fuel text i (t, log) = (Ok i', (t', log))
      /\ (i' <= length text)%nat
      /\ (i' = i \/ nth_error text (i' - 1) = Some NEWLINE)
      /\ _glyph_string t' = Some gs
      /\ lines t' = Some (ls ++ more)
      /\ skipn i text
         = concat (map (fun l => span text l ++ [NEWLINE]) more)
           ++ skipn i' text
      /\ Forall (fun l => ~ In NEWLINE (span text l)) more
      /\ ~ In NEWLINE (skipn i' text)
      /\ (more = [] -> i' = i /\ t' = t)
      /\ Forall (line_within (length text)) more.
Proof.
  intros Hsize. induction fuel as [|fuel IH];
    intros i t log ls Hfuel Hi Hg Hl; simpl.
  - destruct (existsb _ _) eqn:E.
    + apply str_index_found in E as (e & _ & He). lia.
    + exists i, t, []. rewrite app_nil_r.
      split; [reflexivity|]. split; [exact Hi|]. split; [now left|].
      split; [exact Hg|]. split; [exact Hl|]. split; [reflexivity|].
      split; [constructor|]. split; [now apply existsb_In|].
      split; [now split | constructor].
  - destruct (existsb _ _) eqn:E.
    + apply str_index_found in E as (e & Hidx & He).
      destruct (str_index_first text i e Hidx) as (_ & Hnl & Hno).
      rewrite (bind_run _ _ _ e (t, log)) by (unfold lift; now rewrite Hidx).
      rewrite (bind_run _ _ _ _ _ (lines_append_eq t log ls (i, e) Hl)).
      assert (Hne : GlyphString.cumulative_advance gs <> [])
        by (destruct (GlyphString.cumulative_advance gs);
              [simpl in Hsize; lia | discriminate]).
      destruct (GlyphStringFacts.get_subwidth_defined gs i e Hne) as [w Hw];
        [lia | lia |].
      rewrite (bind_run _ _ _ _ _
                 (widen_eq (set_lines (Some (ls ++ [(i, e)])) t) log gs i e w
                    Hg Hw)).
      destruct (IH (e + 1)%nat
                  (set_text_width
                     (Z.max (_text_width (set_lines (Some (ls ++ [(i, e)])) t)) w)
                     (set_lines (Some (ls ++ [(i, e)])) t))
                  log (ls ++ [(i, e)]))
        as (i' & t' & more & Hrun & Hi' & Hat & Hg' & Hl' & Hcat & Hall & Hend
            & _ & Hin);
        [lia | lia | exact Hg | reflexivity |].
      exists i', t', ((i, e) :: more).
      split; [exact Hrun|]. split; [exact Hi'|]. split.
      { right. destruct Hat as [-> | Hat]; [|exact Hat].
        now replace (e + 1 - 1)%nat with e by lia. }
      split; [exact Hg'|]. split; [now rewrite Hl', <- app_assoc|].
      split;
        [|split; [now constructor|]; split; [exact Hend|];
          split; [discriminate|];
          constructor; [split; simpl; lia | exact Hin]].
      cbn [map concat]. rewrite <- !app_assoc, <- Hcat.
      rewrite (slice_skipn text i e) by lia.
      rewrite (skipn_nth text e NEWLINE Hnl).
      now replace (e + 1)%nat with (S e) by lia.
    + exists i, t, []. rewrite app_nil_r.
      split; [reflexivity|]. split; [exact Hi|]. split; [now left|].
      split; [exact Hg|]. split; [exact Hl|]. split; [reflexivity|].
      split; [constructor|]. split; [now apply existsb_In|].
      split; [now split | constructor].
Qed.

Lemma count_lines (text : text_t) (ls : list (nat * nat)) :
  Forall (fun l => ~ In NEWLINE (span text l)) ls ->
  count_occ N.eq_dec
    (concat (map (fun l => span text l ++ [NEWLINE]) ls)) NEWLINE
  = length ls.
Proof.
  induction 1 as [|l ls Hl _ IH]; [reflexivity|].
  cbn [map concat length]. rewrite !count_occ_app.
  apply (count_occ_not_In N.eq_dec) in Hl.
  transitivity (0 + 1 + length ls)%nat; [|reflexivity].
  apply f_equal2; [apply f_equal2; [exact Hl | reflexivity] | exact IH].
Qed.

Lemma In_slice {A : Type} (l : list A) a b x :
  In x (GlyphString.slice l a b) ->
  exists m, (a <= m < b)%nat /\ nth_error l m = Some x.
Proof.
  intros H. apply In_nth_error in H as [n Hn]. unfold GlyphString.slice in Hn.
  rewrite nth_error_firstn in Hn.
  destruct (Nat.ltb_spec n (b - a)) as [Hlt|]; [|discriminate].
  rewrite nth_error_skipn in Hn. exists (a + n)%nat. split; [lia | exact Hn].
Qed.

(** A line that ends at a break point ends where [get_break_index]
    breaks it and holds no newline. *)
Lemma break_line_ends gs width i bp c :
  length (GlyphString.cumulative_advance gs) = length (GlyphString.text gs) ->
  GlyphString.get_break_index gs i width = Ok bp -> (i < bp)%nat ->
  nth_error (GlyphString.text gs) (bp - 1) = Some c ->
  let line := if N.eqb c NEWLINE then (i, (bp - 1)%nat) else (i, bp) in
  breaks_at gs width line /\ ~ In NEWLINE (span (GlyphString.text gs) line).
Proof.
  intros Hsize Hbp Hlt Hc. pose proof Hbp as Hbreak.
  apply GlyphStringFacts.get_break_index_cases in Hbp
    as [[Hlen Hr] | (Hlen & b & Hb & Hout)]; [lia|].
  destruct Hout as [Hr _ | k c' w Hk Hin Hbr Hr Hbefore _]; [lia|].
  pose proof Hk as Hk'. apply GlyphStringFacts.zipped_nth in Hk' as [Hc' Hw].
  assert (Ebp : bp = S (i + k)) by lia.
  pose proof Hc as Hlast.
  rewrite Ebp in Hc. replace (S (i + k) - 1)%nat with (i + k)%nat in Hc by lia.
  rewrite Hc' in Hc. inversion Hc; subst c'. clear Hc.
  assert (Hik : (i + k < length (GlyphString.text gs))%nat)
    by (apply nth_error_Some; congruence).
  assert (Hnone : forall m, (i <= m < i + k)%nat ->
            nth_error (GlyphString.text gs) m <> Some NEWLINE).
  { intros m Hm E.
    destruct (nth_error (GlyphString.cumulative_advance gs) m) as [wm|] eqn:Ew.
    2:{ apply nth_error_None in Ew. lia. }
    apply (Hbefore (m - i)%nat NEWLINE wm); [lia | | reflexivity].
    apply GlyphStringFacts.zipped_nth.
    replace (i + (m - i))%nat with m by lia. now split. }
  intros line. split.
  - exists bp, c. unfold line.
    destruct (N.eqb c NEWLINE); cbn [fst snd]; repeat split; assumption.
  - unfold line, span.
    destruct (N.eqb_spec c NEWLINE) as [Enl|Enl]; cbn [fst snd].
    + intros Hin'. apply In_slice in Hin' as (m & Hm & Em).
      apply (Hnone m); [lia | exact Em].
    + intros Hin'. apply In_slice in Hin' as (m & Hm & Em).
      destruct (Nat.eq_dec m (i + k)) as [E|E].
      * subst m. rewrite Hc' in Em. inversion Em. congruence.
      * apply (Hnone m); [lia | exact Em].
Qed.

Section Wrap.

Variables (gs : GlyphString.t) (width : Z) (P : nat * nat -> Prop).

Hypothesis Hsize :
  length (GlyphString.cumulative_advance gs) = length (GlyphString.text gs).

(** [P] holds of a line that ends at a break point. *)
Hypothesis HP : forall i bp c,
  GlyphString.get_break_index gs i width = Ok bp -> (i < bp)%nat ->
  nth_error (GlyphString.text gs) (bp - 1) = Some c ->
  P (if N.eqb c NEWLINE then (i, (bp - 1)%nat) else (i, bp)).

(** The loop of the mode with a width: each turn takes the characters up
    to the break point, and puts them on a line without the newline that
    may end them. It stops at the end of the text, or where no break
    point is found. *)
Lemma wrap_loop_pieces : forall fuel i bp t log ls,
  (length (GlyphString.text gs) - i <= fuel)%nat ->
  (i <= length (GlyphString.text gs))%nat ->
  GlyphString.get_break_index gs i width = Ok bp ->
  _glyph_string t = Some gs -> lines t = Some ls ->
  exists i' t' more pieces,
    wrap_loop fuel (GlyphString.text gs) width i bp (t, log)
    = (Ok i', (t', log))
    /\ (i' <= length (GlyphString.text gs))%nat
    /\ _glyph_string t' = Some gs
    /\ lines t' = Some (ls ++ more)
    /\ Forall2 (piece_of (GlyphString.text gs)) more pieces
    /\ skipn i (GlyphString.text gs)
       = concat pieces ++ skipn i' (GlyphString.text gs)
    /\ Forall (line_within (length (GlyphString.text gs))) more
    /\ Forall P more
    /\ ((length (GlyphString.text gs) <= i')%nat
        \/ GlyphString.get_break_index gs i' width = Ok i').
Proof.
  induction fuel as [|fuel IH];
    intros i bp t log ls Hfuel Hi Hbp Hg Hl; simpl.
  - destruct (Nat.ltb_spec i (length (GlyphString.text gs))); simpl; [lia|].
    exists i, t, [], []. rewrite app_nil_r.
    split; [reflexivity|]. split; [exact Hi|]. split; [exact Hg|].
    split; [exact Hl|]. split; [constructor|].
    split; [reflexivity|]. split; [constructor|].
    split; [constructor | now left].
  - destruct (GlyphStringFacts.get_break_index_defined gs i width Hsize)
      as (r & Hr & Hir & Hle).
    rewrite Hbp in Hr. inversion Hr; subst r. clear Hr.
    assert (Hstop : (length (GlyphString.text gs) <= i)%nat
                    \/ GlyphString.get_break_index gs i width = Ok i ->
              exists i' t' more pieces,
              (Ok i, (t, log)) = (Ok i', (t', log))
              /\ (i' <= length (GlyphString.text gs))%nat
              /\ _glyph_string t' = Some gs
              /\ lines t' = Some (ls ++ more)
              /\ Forall2 (piece_of (GlyphString.text gs)) more pieces
              /\ skipn i (GlyphString.text gs)
                 = concat pieces ++ skipn i' (GlyphString.text gs)
              /\ Forall (line_within (length (GlyphString.text gs))) more
              /\ Forall P more
              /\ ((length (GlyphString.text gs) <= i')%nat
                  \/ GlyphString.get_break_index gs i' width = Ok i')).
    { intros Hend. exists i, t, [], []. rewrite app_nil_r.
      split; [reflexivity|]. split; [exact Hi|]. split; [exact Hg|].
      split; [exact Hl|]. split; [constructor|].
      split; [reflexivity|]. split; [constructor|].
      split; [constructor | exact Hend]. }
    destruct (Nat.ltb_spec i (length (GlyphString.text gs))); simpl;
      [|apply Hstop; now left].
    destruct (Nat.ltb_spec i bp);
      [|apply Hstop; right; assert (Eb : bp = i) by lia;
        rewrite Eb in Hbp; exact Hbp].
    clear Hstop. specialize (Hle ltac:(assumption)).
    destruct (GlyphStringFacts.getitem_defined (GlyphString.text gs)
                (Z.of_nat bp - 1))
      as [c Hc]; [lia|].
    rewrite (bind_run _ _ _ c (t, log)) by (unfold lift; now rewrite Hc).
    apply getitem_pred_inv in Hc; [|lia].
    set (line := if N.eqb c NEWLINE then (i, (bp - 1)%nat) else (i, bp)).
    assert (Happ : (if N.eqb c NEWLINE then lines_append (i, (bp - 1)%nat)
                    else lines_append (i, bp)) (t, log)
                   = (Ok tt, (set_lines (Some (ls ++ [line])) t, log))).
    { unfold line. destruct (N.eqb c NEWLINE); now apply lines_append_eq. }
    rewrite (bind_run _ _ _ _ _ Happ).
    rewrite (bind_run _ _ _ (set_lines (Some (ls ++ [line])) t)
               (set_lines (Some (ls ++ [line])) t, log)) by reflexivity.
    rewrite (bind_run _ _ _ gs (set_lines (Some (ls ++ [line])) t, log))
      by (unfold attr; cbn; rewrite Hg; reflexivity).
    destruct (GlyphStringFacts.get_break_index_defined gs bp width Hsize)
      as (bp' & Hbp' & _ & _).
    rewrite (bind_run _ _ _ bp' (set_lines (Some (ls ++ [line])) t, log))
      by (unfold lift; now rewrite Hbp').
    destruct (IH bp bp' (set_lines (Some (ls ++ [line])) t) log (ls ++ [line]))
      as (i' & t' & more & pieces & Hrun & Hi' & Hg' & Hl' & Hp & Hcat & Hin
          & HPs & Hend);
      [lia | lia | exact Hbp' | exact Hg | reflexivity |].
    exists i', t', (line :: more),
      (GlyphString.slice (GlyphString.text gs) i bp :: pieces).
    split; [exact Hrun|]. split; [exact Hi'|]. split; [exact Hg'|].
    split; [now rewrite Hl', <- app_assoc|]. split.
    { constructor; [|exact Hp]. unfold line, piece_of, span.
      destruct (N.eqb_spec c NEWLINE) as [->|_]; cbn [fst snd].
      - right. rewrite <- (slice_snoc _ i (bp - 1) NEWLINE) by (lia || exact Hc).
        now replace (S (bp - 1)) with bp by lia.
      - now left. }
    split.
    { cbn [concat]. rewrite <- app_assoc, <- Hcat. apply slice_skipn. lia. }
    split.
    { constructor; [|exact Hin]. unfold line, line_within.
      destruct (N.eqb c NEWLINE); simpl; lia. }
    split; [|exact Hend].
    constructor; [|exact HPs]. now apply HP.
Qed.

End Wrap.

Section WithFont.

Context {font : Font}.

(** The font hands back one glyph for each character. *)
Hypothesis glyph_per_char : forall s : text_t, length (get_glyphs s) = length s.

(** [_clean] is the search for the lines, followed by the assignments of
    the line height, the text height and the flag. *)
Lemma clean_result t log :
  let text := _text t ++ [SPACE] in
  let gs := GlyphString.__init__ text (get_glyphs text) 0 0 in
  let log' := log ++ [GlyphString.get_glyphs_call text] in
  exists t3 ls,
    layout_lines text gs (_layout_width t)
      (set_lines (Some []) (set_glyph_string (Some gs) t), log')
    = (Ok tt, (t3, log'))
    /\ lines t3 = Some ls
    /\ _glyph_string t3 = Some gs
    /\ _clean (t, log)
       = (Ok tt,
          (set_dirty false
             (set_text_height
                ((ascent - descent + leading t3) * Z.of_nat (length ls))
                (set_line_height (Some (ascent - descent + leading t3)) t3)),
           log')).
Proof.
  intros text gs log'.
  set (t2 := set_lines (Some []) (set_glyph_string (Some gs) t)).
  destruct (clean_lines_run glyph_per_char (_text t) (_layout_width t) t2 log')
    as (t3 & H3 & Hg3 & Hl3); [split; [reflexivity | discriminate]|].
  fold text in H3. fold gs in H3.
  destruct (lines t3) as [ls|] eqn:E; [|congruence].
  exists t3, ls. split; [exact H3|]. split; [exact E|]. split; [exact Hg3|].
  unfold _clean.
  rewrite (bind_run _ _ _ t (t, log)) by reflexivity. cbv zeta.
  fold text. fold gs.
  rewrite (bind_run _ _ _ tt (t, log')) by reflexivity.
  rewrite (bind_run _ _ _ tt (set_glyph_string (Some gs) t, log'))
    by reflexivity.
  rewrite (bind_run _ _ _ tt (t2, log')) by reflexivity.
  rewrite (bind_run _ _ _ _ _ H3).
  rewrite (bind_run _ _ _ t3 (t3, log')) by reflexivity. cbv zeta.
  set (lh := ascent - descent + leading t3).
  rewrite (bind_run _ _ _ tt (set_line_height (Some lh) t3, log'))
    by reflexivity.
  rewrite (bind_run _ _ _ ls (set_line_height (Some lh) t3, log'))
    by (unfold attr; cbn; rewrite E; reflexivity).
  rewrite (bind_run _ _ _ tt
             (set_text_height (lh * Z.of_nat (length ls))
                (set_line_height (Some lh) t3), log')) by reflexivity.
  reflexivity.
Qed.

(** The lines of a text that has no width to wrap to. *)
Lemma layout_unwrapped (chars : text_t) t log :
  let text := chars ++ [SPACE] in
  let gs := GlyphString.__init__ text (get_glyphs text) 0 0 in
  _glyph_string t = Some gs -> lines t = Some [] ->
  exists t' ls last w,
    layout_lines text gs None (t, log) = (Ok tt, (t', log))
    /\ lines t' = Some (ls ++ [last])
    /\ concat (map (fun l => span text l ++ [NEWLINE]) (ls ++ [last]))
       = text ++ [NEWLINE]
    /\ Forall (fun l => ~ In NEWLINE (span text l)) (ls ++ [last])
    /\ snd last = length text
    /\ (ls = [] -> fst last = 0%nat)
    /\ GlyphString.get_subwidth gs (fst last) (snd last) = Ok w
    /\ (ls = [] -> _text_width t' = Z.max 0 w)
    /\ Forall (line_within (length text)) (ls ++ [last]).
Proof.
  intros text gs Hg Hl.
  assert (Hsize : length (GlyphString.cumulative_advance gs) = length text)
    by apply (layout_size glyph_per_char).
  assert (Hlen : length text = S (length chars))
    by (unfold text; rewrite length_app; simpl; lia).
  assert (Hne : GlyphString.cumulative_advance gs <> []).
  { intros E. rewrite E in Hsize. simpl in Hsize. lia. }
  unfold layout_lines.
  rewrite (bind_run _ _ _ tt (set_text_width 0 t, log)) by reflexivity.
  destruct (newline_loop_split gs text Hsize (length text) 0%nat
              (set_text_width 0 t) log [])
    as (i & t1 & more & Hrun & Hi & Hat & Hg1 & Hl1 & Hcat & Hall & Hend
        & Hnone & Hin);
    [lia | lia | exact Hg | exact Hl |].
  rewrite (bind_run _ _ _ _ _ Hrun). cbv zeta.
  assert (Hlt : (i < length text)%nat).
  { destruct Hat as [-> | Hat]; [lia|].
    destruct (Nat.eq_dec i (length text)) as [E|E]; [|lia]. exfalso.
    rewrite E, Hlen in Hat. replace (S (length chars) - 1)%nat
      with (length chars) in Hat by lia.
    unfold text in Hat. rewrite nth_error_app2, Nat.sub_diag in Hat by lia.
    discriminate. }
  destruct (Nat.eqb_spec (length text) i) as [E|_]; [lia|]. cbn [negb when].
  simpl app in Hl1.
  rewrite (bind_run _ _ _ _ _ (lines_append_eq t1 log more (i, length text) Hl1)).
  destruct (GlyphStringFacts.get_subwidth_defined gs i (length text) Hne)
    as [w Hw]; [lia | lia |].
  rewrite (widen_eq (set_lines (Some (more ++ [(i, length text)])) t1) log gs
             i (length text) w Hg1 Hw).
  eexists _, more, (i, length text), w.
  split; [reflexivity|]. split; [reflexivity|]. split.
  { rewrite map_app, concat_app. cbn [map concat]. rewrite app_nil_r.
    unfold span at 2. cbn [fst snd]. rewrite slice_all.
    rewrite app_assoc. f_equal. symmetry. exact Hcat. }
  split.
  { apply Forall_app. split; [exact Hall|]. constructor; [|constructor].
    unfold span. cbn [fst snd]. now rewrite slice_all. }
  split; [reflexivity|]. split.
  { intros E. now destruct (Hnone E). }
  split; [exact Hw|]. split.
  { intros E. destruct (Hnone E) as [_ ->]. reflexivity. }
  apply Forall_app. split; [exact Hin|].
  constructor; [split; simpl; lia | constructor].
Qed.

(** The lines of a text that is wrapped to a width: those that end at a
    break point, and then perhaps one with what is left of the text. *)
Lemma layout_wrapped (P : nat * nat -> Prop) (chars : text_t) width t log :
  let text := chars ++ [SPACE] in
  let gs := GlyphString.__init__ text (get_glyphs text) 0 0 in
  (forall i bp c,
     GlyphString.get_break_index gs i width = Ok bp -> (i < bp)%nat ->
     nth_error text (bp - 1) = Some c ->
     P (if N.eqb c NEWLINE then (i, (bp - 1)%nat) else (i, bp))) ->
  _glyph_string t = Some gs -> lines t = Some [] ->
  exists t' ls rest pieces,
    layout_lines text gs (Some width) (t, log) = (Ok tt, (t', log))
    /\ lines t' = Some (ls ++ rest)
    /\ Forall2 (piece_of text) (ls ++ rest) pieces
    /\ (concat pieces = text \/ concat pieces = chars)
    /\ Forall (line_within (length text)) (ls ++ rest)
    /\ Forall P ls
    /\ (rest = []
        \/ exists i, rest = [(i, length text)]
                     /\ GlyphString.get_break_index gs i width = Ok i).
Proof.
  intros text gs HP Hg Hl.
  assert (Hsize : length (GlyphString.cumulative_advance gs)
                  = length (GlyphString.text gs))
    by apply (layout_size glyph_per_char).
  assert (Htext : GlyphString.text gs = text) by reflexivity.
  assert (Hlen : length text = S (length chars))
    by (unfold text; rewrite length_app; simpl; lia).
  unfold layout_lines.
  destruct (GlyphStringFacts.get_break_index_defined gs 0 width Hsize)
    as (bp & Hbp & _ & _).
  rewrite (bind_run _ _ _ bp (t, log)) by (unfold lift; now rewrite Hbp).
  destruct (wrap_loop_pieces gs width P Hsize HP (length text) 0 bp t log [])
    as (i & t1 & more & pieces & Hrun & Hi & Hg1 & Hl1 & Hp & Hcat & Hin
        & HPs & Hend);
    [rewrite Htext; lia | lia | exact Hbp | exact Hg | exact Hl |].
  rewrite Htext in Hrun, Hi, Hp, Hcat, Hin, Hend.
  simpl app in Hl1. simpl skipn in Hcat.
  rewrite (bind_run _ _ _ _ _ Hrun).
  destruct (Z.ltb_spec (Z.of_nat i) (Z.of_nat (length text) - 1)) as [Hlt|Hge];
    cbn [when].
  - rewrite (lines_append_eq t1 log more (i, length text) Hl1).
    eexists _, more, [(i, length text)], (pieces ++ [skipn i text]).
    split; [reflexivity|]. split; [reflexivity|]. split.
    { apply Forall2_app; [exact Hp|]. constructor; [|constructor].
      left. unfold span. cbn [fst snd]. now rewrite slice_all. }
    split.
    { left. rewrite concat_app. cbn [concat]. now rewrite app_nil_r. }
    split.
    { apply Forall_app. split; [exact Hin|].
      constructor; [split; simpl; lia | constructor]. }
    split; [exact HPs|]. right. exists i. split; [reflexivity|].
    destruct Hend as [Hend|Hend]; [lia | exact Hend].
  - exists t1, more, [], pieces. rewrite app_nil_r.
    split; [reflexivity|]. split; [exact Hl1|]. split; [exact Hp|].
    split; [|split; [exact Hin | split; [exact HPs | now left]]].
    destruct (Nat.eq_dec i (length text)) as [E|E].
    + left. rewrite E, skipn_all, app_nil_r in Hcat. now symmetry.
    + right. assert (Ei : i = length chars) by lia.
      rewrite Ei in Hcat. unfold text in Hcat at 2.
      rewrite skipn_app, skipn_all, Nat.sub_diag in Hcat. simpl in Hcat.
      apply app_inj_tail in Hcat as [Hcat _]. now symmetry.
Qed.

Lemma subwidth_of_all (text : text_t) :
  text <> [] ->
  GlyphString.get_subwidth
    (GlyphString.__init__ text (get_glyphs text) 0 0) 0 (length text)
  = Ok (GlyphString.total (map GlyphString.advance (get_glyphs text))).
Proof.
  intros Hne. rewrite GlyphStringFacts.get_subwidth_eq.
  rewrite GlyphStringFacts.cumulative_advance_running.
  assert (Hlen : (0 < length text)%nat)
    by (destruct text; [congruence | simpl; lia]).
  rewrite (getitem_pred _ (length text)
             (0 + GlyphString.total
                    (firstn (S (length text - 1))
                       (map GlyphString.advance (get_glyphs text)))) Hlen).
  - cbn [rbind GlyphString.base truthy Nat.eqb negb].
    rewrite firstn_all2 by (rewrite length_map, glyph_per_char; lia).
    f_equal. lia.
  - apply GlyphStringMore.running_nth. rewrite length_map, glyph_per_char. lia.
Qed.

(** X9. A text with no width to wrap to is laid out in one line for each
    newline and one more: [height] is the line height (ascent minus
    descent plus leading) times that number, and the lines, none of which
    holds a newline, joined by newlines are the text with the space that
    [_clean] appends. The font is asked for the glyphs once. *)
Theorem unwrapped_lines t log :
  _dirty t = true -> _layout_width t = None ->
  let text := _text t ++ [SPACE] in
  exists t' ls,
    _get_height (t, log)
    = (Ok ((ascent - descent + leading t) * Z.of_nat (length ls)),
       (t', log ++ [GlyphString.get_glyphs_call text]))
    /\ lines t' = Some ls
    /\ length ls = S (count_occ N.eq_dec (_text t) NEWLINE)
    /\ concat (map (fun l => span text l ++ [NEWLINE]) ls) = text ++ [NEWLINE]
    /\ Forall (fun l => ~ In NEWLINE (span text l)) ls.
Proof.
  intros Hdirty Hwidth text.
  destruct (clean_result t log) as (t3 & ls & Hlay & Hl3 & Hg3 & Hclean).
  fold text in Hlay, Hclean. rewrite Hwidth in Hlay.
  destruct (layout_unwrapped (_text t)
              (set_lines (Some [])
                 (set_glyph_string
                    (Some (GlyphString.__init__ text (get_glyphs text) 0 0)) t))
              (log ++ [GlyphString.get_glyphs_call text]) eq_refl eq_refl)
    as (t3' & ls' & last & w & Hrun & Hl' & Hcat & Hall & _).
  fold text in Hrun, Hcat, Hall, Hl'. rewrite Hrun in Hlay.
  inversion Hlay; subst t3'. rewrite Hl3 in Hl'. inversion Hl'; subst ls.
  assert (Hlead : leading t3 = leading t).
  { apply (fixes_layout_lines leading (fun _ _ => eq_refl) (fun _ _ => eq_refl)
             _ _ _ _ _ _ _ _ Hrun). }
  rewrite Hlead in Hclean.
  eexists _, (ls' ++ [last]). split.
  { unfold _get_height.
    rewrite (bind_run _ _ _ t (t, log)) by reflexivity. rewrite Hdirty.
    cbn [when]. rewrite (bind_run _ _ _ _ _ Hclean). reflexivity. }
  split; [exact Hl3|]. split; [|split; [exact Hcat | exact Hall]].
  rewrite <- (count_lines text _ Hall).
  transitivity (count_occ N.eq_dec (text ++ [NEWLINE]) NEWLINE);
    [now rewrite <- Hcat|].
  unfold text. rewrite !count_occ_app.
  change (count_occ N.eq_dec [SPACE] NEWLINE) with 0%nat.
  change (count_occ N.eq_dec [NEWLINE] NEWLINE) with 1%nat.
  rewrite Nat.add_0_r, Nat.add_1_r. reflexivity.
Qed.

(** X10. The [width] of a text of one line that has no width to wrap to
    is the sum of the advances of the glyphs of the text and of the space
    that [_clean] appends (or 0, should that sum be negative), and its one
    line runs over all of them. *)
Theorem unwrapped_width t log :
  _dirty t = true -> _layout_width t = None -> ~ In NEWLINE (_text t) ->
  let text := _text t ++ [SPACE] in
  exists t',
    _get_width (t, log)
    = (Ok (Z.max 0 (GlyphString.total
                      (map GlyphString.advance (get_glyphs text)))),
       (t', log ++ [GlyphString.get_glyphs_call text]))
    /\ lines t' = Some [(0%nat, length text)].
Proof.
  intros Hdirty Hwidth Hnone text.
  destruct (clean_result t log) as (t3 & ls & Hlay & Hl3 & Hg3 & Hclean).
  fold text in Hlay, Hclean. rewrite Hwidth in Hlay.
  destruct (layout_unwrapped (_text t)
              (set_lines (Some [])
                 (set_glyph_string
                    (Some (GlyphString.__init__ text (get_glyphs text) 0 0)) t))
              (log ++ [GlyphString.get_glyphs_call text]) eq_refl eq_refl)
    as (t3' & ls' & last & w & Hrun & Hl' & Hcat & Hall & Hsnd & Hfst & Hw & Htw
        & _).
  fold text in Hrun, Hcat, Hall, Hl', Hsnd, Hw. rewrite Hrun in Hlay.
  inversion Hlay; subst t3'. rewrite Hl3 in Hl'. inversion Hl'; subst ls.
  assert (Hone : ls' = []).
  { assert (Hn : length (ls' ++ [last]) = 1%nat).
    { rewrite <- (count_lines text _ Hall), Hcat. unfold text.
      rewrite !count_occ_app.
      apply (count_occ_not_In N.eq_dec) in Hnone.
      apply (f_equal2 Nat.add (y1 := 0%nat) (y2 := 1%nat)); [|reflexivity].
      apply (f_equal2 Nat.add (y1 := 0%nat) (y2 := 0%nat));
        [exact Hnone | reflexivity]. }
    rewrite length_app in Hn. simpl in Hn.
    destruct ls'; [reflexivity | simpl in Hn; lia]. }
  specialize (Hfst Hone). specialize (Htw Hone). subst ls'.
  destruct last as [start stop]. cbn [fst snd] in *. subst start stop.
  rewrite subwidth_of_all in Hw by (unfold text; now destruct (_text t)).
  inversion Hw; subst w.
  assert (Hlw : _layout_width t3 = None).
  { rewrite <- Hwidth.
    apply (fixes_layout_lines _layout_width (fun _ _ => eq_refl)
             (fun _ _ => eq_refl) _ _ _ _ _ _ _ _ Hrun). }
  eexists. split.
  { unfold _get_width.
    rewrite (bind_run _ _ _ t (t, log)) by reflexivity. rewrite Hdirty.
    cbn [when]. rewrite (bind_run _ _ _ _ _ Hclean).
    match goal with
    | |- context [bind self _ (?t1, ?l1)] =>
        rewrite (bind_run self _ (t1, l1) t1 (t1, l1)) by reflexivity
    end.
    cbn [_layout_width set_dirty set_text_height set_line_height _text_width].
    rewrite Hlw, Htw. reflexivity. }
  exact Hl3.
Qed.

(** X11. Reading [width] right after assigning a width other than 0
    gives that width back. After assigning 0 it gives the text width
    instead, which the layout to a width does not compute: the value is
    the one that was there before. *)
Theorem width_round_trip t log w :
  exists t',
    (_set_width (Some w) ;; _get_width) (t, log)
    = (Ok (if Z.eqb w 0 then _text_width t else w),
       (t', log ++ [GlyphString.get_glyphs_call (_text t ++ [SPACE])])).
Proof.
  set (t0 := set_dirty true (set_layout_width (Some w) t)).
  destruct (clean_result t0 log) as (t3 & ls & Hlay & Hl3 & Hg3 & Hclean).
  change (_text t0) with (_text t) in Hlay, Hclean.
  change (_layout_width t0) with (Some w) in Hlay.
  assert (Hlw : _layout_width t3 = Some w).
  { apply (fixes_layout_wrapped _layout_width (fun _ _ => eq_refl)
             _ _ _ _ _ _ _ _ Hlay). }
  assert (Htw : _text_width t3 = _text_width t).
  { apply (fixes_layout_wrapped _text_width (fun _ _ => eq_refl)
             _ _ _ _ _ _ _ _ Hlay). }
  eexists.
  rewrite (bind_run _ _ (t, log) tt (t0, log)) by reflexivity.
  unfold _get_width.
  rewrite (bind_run _ _ _ t0 (t0, log)) by reflexivity.
  change (_dirty t0) with true. cbn [when].
  rewrite (bind_run _ _ _ _ _ Hclean).
  match goal with
  | |- context [bind self _ (?t1, ?l1)] =>
      rewrite (bind_run self _ (t1, l1) t1 (t1, l1)) by reflexivity
  end.
  cbn [_layout_width set_dirty set_text_height set_line_height _text_width].
  rewrite Hlw, Htw. destruct (Z.eqb w 0); reflexivity.
Qed.

(** X12. Wrapping to a width loses no character of the text and repeats
    none: the lines that [_clean] finds, each with the newline that ended
    it where one did, make up the text in order, with or without the
    space that [_clean] appends. *)
Theorem wrapped_lines_keep_text t log width :
  _layout_width t = Some width ->
  let text := _text t ++ [SPACE] in
  exists t' ls pieces,
    _clean (t, log) = (Ok tt, (t', log ++ [GlyphString.get_glyphs_call text]))
    /\ lines t' = Some ls
    /\ Forall2 (piece_of text) ls pieces
    /\ (concat pieces = text \/ concat pieces = _text t).
Proof.
  intros Hwidth text.
  destruct (clean_result t log) as (t3 & ls & Hlay & Hl3 & Hg3 & Hclean).
  fold text in Hlay, Hclean. rewrite Hwidth in Hlay.
  destruct (layout_wrapped (fun _ => True) (_text t) width
              (set_lines (Some [])
                 (set_glyph_string
                    (Some (GlyphString.__init__ text (get_glyphs text) 0 0)) t))
              (log ++ [GlyphString.get_glyphs_call text])
              (fun _ _ _ _ _ _ => I) eq_refl eq_refl)
    as (t3' & ls' & rest & pieces & Hrun & Hl' & Hp & Hcat & _).
  fold text in Hrun, Hp, Hcat. rewrite Hrun in Hlay.
  inversion Hlay; subst t3'. rewrite Hl3 in Hl'. inversion Hl'; subst ls.
  eexists _, (ls' ++ rest), pieces. split; [exact Hclean|].
  split; [exact Hl3|]. split; [exact Hp | exact Hcat].
Qed.

(** X14. With a layout width set, every line that [_clean] ends at a
    break point ends where [get_break_index], asked from the start of
    the line, breaks it: before the newline, or after the space or
    zero-width space, that the break point follows; and it holds no
    newline. Only one more line may follow them: what is left of the
    text from an index where [get_break_index] finds no break point. *)
Theorem wrapped_lines_break t log width :
  _layout_width t = Some width ->
  let text := _text t ++ [SPACE] in
  let gs := GlyphString.__init__ text (get_glyphs text) 0 0 in
  exists t' ls rest,
    _clean (t, log) = (Ok tt, (t', log ++ [GlyphString.get_glyphs_call text]))
    /\ lines t' = Some (ls ++ rest)
    /\ Forall (fun l => breaks_at gs width l /\ ~ In NEWLINE (span text l)) ls
    /\ (rest = []
        \/ exists i, rest = [(i, length text)]
                     /\ GlyphString.get_break_index gs i width = Ok i).
Proof.
  intros Hwidth text gs.
  destruct (clean_result t log) as (t3 & ls & Hlay & Hl3 & Hg3 & Hclean).
  fold text in Hlay, Hclean. fold gs in Hlay. rewrite Hwidth in Hlay.
  assert (Hsize : length (GlyphString.cumulative_advance gs)
                  = length (GlyphString.text gs))
    by apply (layout_size glyph_per_char).
  destruct (layout_wrapped
              (fun l => breaks_at gs width l /\ ~ In NEWLINE (span text l))
              (_text t) width
              (set_lines (Some []) (set_glyph_string (Some gs) t))
              (log ++ [GlyphString.get_glyphs_call text])
              (fun i bp c Hbp Hlt Hc =>
                 break_line_ends gs width i bp c Hsize Hbp Hlt Hc)
              eq_refl eq_refl)
    as (t3' & ls' & rest & pieces & Hrun & Hl' & _ & _ & _ & HP & Hrest).
  fold text in Hrun, Hrest. fold gs in Hrun, Hrest. rewrite Hrun in Hlay.
  inversion Hlay; subst t3'. rewrite Hl3 in Hl'. inversion Hl'; subst ls.
  eexists _, ls', rest. split; [exact Hclean|].
  split; [exact Hl3|]. split; [exact HP | exact Hrest].
Qed.

(** What [_clean] leaves behind, whichever way it finds the lines. *)
Lemma clean_leaves t log :
  let text := _text t ++ [SPACE] in
  exists t' lh ls,
    _clean (t, log) = (Ok tt, (t', log ++ [GlyphString.get_glyphs_call text]))
    /\ _dirty t' = false
    /\ _glyph_string t'
       = Some (GlyphString.__init__ text (get_glyphs text) 0 0)
    /\ line_height t' = Some lh
    /\ lines t' = Some ls
    /\ Forall (line_within (length text)) ls
    /\ _layout_width t' = _layout_width t
    /\ _halign t' = _halign t.
Proof.
  intros text.
  destruct (clean_result t log) as (t3 & ls & Hlay & Hl3 & Hg3 & Hclean).
  fold text in Hlay, Hclean, Hg3.
  set (t2 := set_lines (Some [])
               (set_glyph_string
                  (Some (GlyphString.__init__ text (get_glyphs text) 0 0)) t))
    in *.
  assert (Hin : Forall (line_within (length text)) ls).
  { destruct (_layout_width t) as [width|].
    - destruct (layout_wrapped (fun _ => True) (_text t) width t2
                  (log ++ [GlyphString.get_glyphs_call text])
                  (fun _ _ _ _ _ _ => I) eq_refl eq_refl)
        as (t3' & ls' & rest & pieces & Hrun & Hl' & _ & _ & Hin & _).
      fold text in Hrun, Hin. rewrite Hrun in Hlay.
      inversion Hlay; subst t3'. rewrite Hl3 in Hl'. now inversion Hl'.
    - destruct (layout_unwrapped (_text t) t2
                  (log ++ [GlyphString.get_glyphs_call text]) eq_refl eq_refl)
        as (t3' & ls' & last & w & Hrun & Hl' & _ & _ & _ & _ & _ & _ & Hin).
      fold text in Hrun, Hin. rewrite Hrun in Hlay.
      inversion Hlay; subst t3'. rewrite Hl3 in Hl'. now inversion Hl'. }
  eexists _, _, ls. split; [exact Hclean|].
  split; [reflexivity|]. split; [exact Hg3|]. split; [reflexivity|].
  split; [exact Hl3|]. split; [exact Hin|]. split.
  - apply (fixes_layout_lines _layout_width (fun _ _ => eq_refl)
             (fun _ _ => eq_refl) _ _ _ _ _ _ _ _ Hlay).
  - apply (fixes_layout_lines _halign (fun _ _ => eq_refl)
             (fun _ _ => eq_refl) _ _ _ _ _ _ _ _ Hlay).
Qed.

(** Every glyph of the font is on a texture. *)
Hypothesis textured :
  forall s : text_t, Forall (fun g => GlyphString.owner g <> None) (get_glyphs s).

Lemma get_height_sends t :
  _dirty t = false -> sends t _get_height (_text_height t) [].
Proof.
  intros Hclean log. unfold _get_height.
  rewrite (bind_run _ _ _ t (t, log)) by reflexivity. rewrite Hclean.
  cbn [when]. rewrite (bind_run _ _ _ tt (t, log)) by reflexivity.
  unfold gets. cbn [fst]. now rewrite app_nil_r.
Qed.

(** The horizontal position of a line. *)
Lemma line_x_sends t width :
  placeable t ->
  exists x,
    sends t
      (if align_eqb (_halign t) RIGHT then
         d <- lift (py_sub (_layout_width t) width) ;;
         ret (Text.x t + d)
       else if align_eqb (_halign t) CENTER then
         h <- lift (py_floordiv (_layout_width t) 2) ;;
         ret (Text.x t + (h - width / 2))
       else ret (Text.x t)) x [].
Proof.
  intros Hplace.
  destruct (_layout_width t) as [lw|] eqn:Hlw.
  - destruct (align_eqb (_halign t) RIGHT);
      [|destruct (align_eqb (_halign t) CENTER)];
      eexists; intros log; unfold bind, lift, ret; cbn; now rewrite app_nil_r.
  - destruct Hplace as [Hplace | [Hr Hc]]; [congruence|].
    destruct (_halign t); try congruence;
      eexists; intros log; unfold ret; cbn; now rewrite app_nil_r.
Qed.

Lemma draw_line_sends (chars : text_t) t lh line :
  let text := chars ++ [SPACE] in
  _glyph_string t = Some (GlyphString.__init__ text (get_glyphs text) 0 0) ->
  line_height t = Some lh ->
  line_within (length text) line ->
  placeable t ->
  exists g, sends t (draw_line line) tt g /\ balanced g.
Proof.
  intros text Hg Hlh [Hs He] Hplace. destruct line as [start e].
  cbn [fst snd] in Hs, He.
  set (gs := GlyphString.__init__ text (get_glyphs text) 0 0) in *.
  assert (Hcum : length (GlyphString.cumulative_advance gs) = length text)
    by apply (layout_size glyph_per_char).
  assert (Hlen : length text = S (length chars))
    by (unfold text; rewrite length_app; simpl; lia).
  destruct (GlyphStringFacts.get_subwidth_defined gs start e) as [w Hw];
    [intros E; rewrite E in Hcum; simpl in Hcum; lia | lia | lia |].
  destruct (line_x_sends t w Hplace) as [x Hx].
  destruct (glyph_string_draw_ok text (get_glyphs text) 0 0 start e
              (glyph_per_char text) (textured text)) as (g & Hdraw & Hb).
  fold gs in Hdraw.
  exists ([] ++ [] ++ [] ++ [] ++ [GlyphString.glTranslatef x 0 0] ++ g ++ []
             ++ [GlyphString.glTranslatef (- x) (- lh) 0]).
  split; [|depths].
  unfold draw_line.
  eapply sends_bind; [apply sends_self|]. rewrite Hg, Hlh.
  eapply sends_bind; [apply sends_attr|]. rewrite Hw.
  eapply sends_bind; [apply sends_lift|].
  eapply sends_bind; [exact Hx|].
  eapply sends_bind; [apply sends_gl|].
  eapply sends_bind; [apply sends_call; exact Hdraw|].
  eapply sends_bind; [apply sends_attr|].
  apply sends_gl.
Qed.

Lemma draw_lines_sends (chars : text_t) t lh ls :
  let text := chars ++ [SPACE] in
  _glyph_string t = Some (GlyphString.__init__ text (get_glyphs text) 0 0) ->
  line_height t = Some lh ->
  Forall (line_within (length text)) ls ->
  placeable t ->
  exists g, sends t (draw_lines ls) tt g /\ balanced g.
Proof.
  intros text Hg Hlh Hin Hplace. induction Hin as [|line ls Hline _ IH].
  - exists []. split; [apply sends_ret | apply balanced_nil].
  - destruct (draw_line_sends chars t lh line Hg Hlh Hline Hplace)
      as (g1 & H1 & B1).
    destruct IH as (g2 & H2 & B2).
    exists (g1 ++ g2). split; [|now apply balanced_app].
    simpl. eapply sends_bind; [exact H1 | exact H2].
Qed.

(** The vertical position of the first line. *)
Lemma first_y_sends t :
  _dirty t = false ->
  exists y,
    sends t
      (if align_eqb (_valign t) BOTTOM then
         h <- _get_height ;; ret (Text.y t + (h - ascent))
       else if align_eqb (_valign t) CENTER then
         h <- _get_height ;; ret (Text.y t + (h / 2 - ascent))
       else if align_eqb (_valign t) TOP then
         ret (Text.y t - ascent)
       else ret (Text.y t)) y [].
Proof.
  intros Hclean.
  destruct (align_eqb (_valign t) BOTTOM);
    [|destruct (align_eqb (_valign t) CENTER);
      [|destruct (align_eqb (_valign t) TOP)]];
    eexists;
    try (change (@nil GlyphString.event) with (@nil GlyphString.event ++ []);
         eapply sends_bind; [now apply get_height_sends|]);
    apply sends_ret.
Qed.

Lemma render_sends (chars : text_t) t lh ls :
  let text := chars ++ [SPACE] in
  _dirty t = false ->
  _glyph_string t = Some (GlyphString.__init__ text (get_glyphs text) 0 0) ->
  line_height t = Some lh ->
  lines t = Some ls ->
  Forall (line_within (length text)) ls ->
  placeable t ->
  exists g, sends t render tt g /\ balanced g.
Proof.
  intros text Hclean Hg Hlh Hl Hin Hplace.
  destruct (first_y_sends t Hclean) as [y Hy].
  destruct (draw_lines_sends chars t lh ls Hg Hlh Hin Hplace)
    as (g & Hdraw & Hb).
  exists ([] ++ [] ++ [GlyphString.glPushAttrib]
             ++ [GlyphString.glEnable_TEXTURE_2D]
             ++ [GlyphString.glColor4f (color t)]
             ++ [GlyphString.glPushMatrix]
             ++ [GlyphString.glTranslatef 0 y 0]
             ++ [] ++ [] ++ g ++ [GlyphString.glPopMatrix]
             ++ [GlyphString.glPopAttrib]).
  split; [|depths].
  unfold render.
  eapply sends_bind; [apply sends_self|].
  eapply sends_bind; [exact Hy|].
  eapply sends_bind; [apply sends_gl|].
  eapply sends_bind; [apply sends_gl|].
  eapply sends_bind; [apply sends_gl|].
  eapply sends_bind; [apply sends_gl|].
  eapply sends_bind; [apply sends_gl|].
  eapply sends_bind; [apply sends_self|]. rewrite Hl.
  eapply sends_bind; [apply sends_attr|].
  eapply sends_bind; [exact Hdraw|].
  eapply sends_bind; [apply sends_gl|].
  apply sends_gl.
Qed.

(** X13. [draw] on a Text that needs a layout completes whenever there
    is a width to lay out to or the horizontal alignment is neither RIGHT
    nor CENTER, for a font that gives one glyph on a texture for each
    character. It asks the font for the glyphs once, and the OpenGL calls
    that follow pop as many matrices, attribute groups and client
    attribute groups as they push. *)
Theorem draw_completes t log :
  _dirty t = true -> placeable t ->
  exists t' g,
    draw (t, log)
    = (Ok tt,
       (t', (log ++ [GlyphString.get_glyphs_call (_text t ++ [SPACE])]) ++ g))
    /\ balanced g
    /\ Forall (fun e => GlyphString.is_get_glyphs e = false) g.
Proof.
  intros Hdirty Hplace.
  destruct (clean_leaves t log)
    as (t' & lh & ls & Hclean & Hd' & Hg' & Hlh' & Hl' & Hin & Hlw & Hha).
  assert (Hplace' : placeable t')
    by (unfold placeable; now rewrite Hlw, Hha).
  destruct (render_sends (_text t) t' lh ls Hd' Hg' Hlh' Hl' Hin Hplace')
    as (g & Hrender & Hb).
  exists t', g. split; [|split; [exact Hb|]].
  - unfold draw.
    rewrite (bind_run _ _ _ t (t, log)) by reflexivity. rewrite Hdirty.
    cbn [when]. rewrite (bind_run _ _ _ _ _ Hclean). apply Hrender.
  - destruct (render_renders t' Hd') as (r & g0 & Hrun & Hgl).
    specialize (Hrun []). rewrite (Hrender []) in Hrun.
    inversion Hrun; subst. exact Hgl.
Qed.

End WithFont.

Lemma mono_glyph_per_char :
  forall s : text_t, length (@get_glyphs mono s) = length s.
Proof. intros s. apply length_map. Qed.

Lemma unwrapped_lines_witness :
  let text := _text two_lines ++ [SPACE] in
  exists t' ls,
    @_get_height mono (two_lines, [])
    = (Ok ((@ascent mono - @descent mono + leading two_lines)
           * Z.of_nat (length ls)),
       (t', [] ++ [GlyphString.get_glyphs_call text]))
    /\ lines t' = Some ls
    /\ length ls = S (count_occ N.eq_dec (_text two_lines) NEWLINE)
    /\ concat (map (fun l => span text l ++ [NEWLINE]) ls) = text ++ [NEWLINE]
    /\ Forall (fun l => ~ In NEWLINE (span text l)) ls.
Proof.
  exact (@unwrapped_lines mono mono_glyph_per_char two_lines []
           eq_refl eq_refl).
Defined.

Example two_lines_layout :
  fst (@_get_height mono (two_lines, [])) = Ok 30
  /\ lines (fst (snd (@_get_height mono (two_lines, []))))
     = Some [(0, 2); (3, 5)]%nat
  /\ fst (@_get_width mono (two_lines, [])) = Ok 20.
Proof. repeat split; reflexivity. Qed.

Lemma unwrapped_width_witness :
  let text := _text (unwrapped LEFT) ++ [SPACE] in
  exists t',
    @_get_width mono (unwrapped LEFT, [])
    = (Ok (Z.max 0 (GlyphString.total
                      (map GlyphString.advance (@get_glyphs mono text)))),
       (t', [] ++ [GlyphString.get_glyphs_call text]))
    /\ lines t' = Some [(0%nat, length text)].
Proof.
  refine (@unwrapped_width mono mono_glyph_per_char (unwrapped LEFT) []
            eq_refl eq_refl _).
  simpl. intros [H | []]. discriminate.
Defined.

Lemma width_round_trip_witness :
  exists t',
    (_set_width (Some 0) ;; @_get_width mono) (two_lines, [])
    = (Ok (if Z.eqb 0 0 then _text_width two_lines else 0),
       (t', [] ++ [GlyphString.get_glyphs_call (_text two_lines ++ [SPACE])])).
Proof.
  exact (@width_round_trip mono mono_glyph_per_char two_lines [] 0).
Defined.

(** Set to 0, the width reads as the text width of the last layout without
    a width; set to 35 it reads as 35. *)
Example width_of_two_lines :
  fst ((@_get_width mono ;; _set_width (Some 0) ;; @_get_width mono)
         (two_lines, [])) = Ok 20
  /\ fst ((_set_width (Some 35) ;; @_get_width mono) (two_lines, [])) = Ok 35.
Proof. split; reflexivity. Qed.

Lemma wrapped_lines_keep_text_witness :
  let text := _text wrapped ++ [SPACE] in
  exists t' ls pieces,
    @_clean mono (wrapped, [])
    = (Ok tt, (t', [] ++ [GlyphString.get_glyphs_call text]))
    /\ lines t' = Some ls
    /\ Forall2 (piece_of text) ls pieces
    /\ (concat pieces = text \/ concat pieces = _text wrapped).
Proof.
  exact (@wrapped_lines_keep_text mono mono_glyph_per_char wrapped [] 35
           eq_refl).
Defined.

Lemma mono_textured :
  forall s : text_t,
    Forall (fun g => GlyphString.owner g <> None) (@get_glyphs mono s).
Proof.
  intros s. induction s as [|c s IH]; simpl; constructor;
    [discriminate | exact IH].
Qed.

Lemma draw_completes_witness :
  exists t' g,
    @draw mono (wrapped, [])
    = (Ok tt,
       (t', ([] ++ [GlyphString.get_glyphs_call (_text wrapped ++ [SPACE])])
              ++ g))
    /\ balanced g
    /\ Forall (fun e => GlyphString.is_get_glyphs e = false) g.
Proof.
  refine (@draw_completes mono mono_glyph_per_char mono_textured wrapped []
            eq_refl _).
  left. discriminate.
Defined.

Lemma wrapped_lines_break_witness :
  let text := _text wrapped ++ [SPACE] in
  let gs := GlyphString.__init__ text (@get_glyphs mono text) 0 0 in
  exists t' ls rest,
    @_clean mono (wrapped, [])
    = (Ok tt, (t', [] ++ [GlyphString.get_glyphs_call text]))
    /\ lines t' = Some (ls ++ rest)
    /\ Forall (fun l => breaks_at gs 35 l /\ ~ In NEWLINE (span text l)) ls
    /\ (rest = []
        \/ exists i, rest = [(i, length text)]
                     /\ GlyphString.get_break_index gs i 35 = Ok i).
Proof.
  exact (@wrapped_lines_break mono mono_glyph_per_char wrapped [] 35
           eq_refl).
Defined.

(** A word wider than the width stops the wrapping: "abcdef", a newline
    and "g" at width 35 make one line with the newline inside. *)
Example long_word_layout :
  lines (fst (snd (@_clean mono
           (Text.__init__ [97; 98; 99; 100; 101; 102; 10; 103]%N 0 0
              (1, 1, 1, 1) (Some 35) LEFT BASELINE, []))))
  = Some [(0, 9)]%nat.
Proof. reflexivity. Qed.

End TextMore.

(** ** More on the caret *)

Module CaretMore.

Import Caret.

(** *** Reading a history *)

Lemma shown_snoc h k :
  shown (h ++ [k])
  = match k with set_selection a b => (a, b) | _ => shown h end.
Proof. unfold shown. rewrite fold_left_app. reflexivity. Qed.

Lemma timers_snoc h k :
  timers (h ++ [k])
  = match k with
    | unschedule_blink => []
    | schedule_interval_blink p => timers h ++ [p]
    | _ => timers h
    end.
Proof. unfold timers. rewrite fold_left_app. reflexivity. Qed.

Lemma edits_snoc h k :
  edits (h ++ [k]) = if is_edit k then edits h ++ [k] else edits h.
Proof.
  unfold edits. rewrite filter_app. simpl.
  destruct (is_edit k); [reflexivity | apply app_nil_r].
Qed.

(** *** Running a handler *)

(** The methods of the caret are run on a caret whose attributes are
    variables: [exec] unfolds them and the monad, [branch] decides a test
    or takes apart an answer of the layout that the run waits for. *)
Ltac exec :=
  cbv beta iota zeta delta
    [on_text on_text_motion on_text_motion_select on_mouse_press on_mouse_drag
     on_activate on_deactivate motion_edit motion_move motion_eqb is_some
     document_length _set_position _set_mark _set_line _get_line
     _delete_selection move_to_point select_to_point select_word
     select_paragraph count_click _update _nudge _set_visible _blink
     colors_setitem setitem rbind
     bind ret get put modify gets lift when self past assign tell
     set_position set_active set_visible set_blink_visible set_click_count
     set_click_time set_ideal_x set_ideal_line set_next_attributes set_mark
     set_colors set_vertices
     _position _active _visible _blink_visible _click_count _click_time
     _ideal_x _ideal_line _next_attributes _mark colors vertices
     fst snd negb andb orb].

Ltac branch :=
  match goal with
  | |- context [if ?b then _ else _] =>
      lazymatch b with
      | context [if _ then _ else _] => fail
      | context [match _ with _ => _ end] => fail
      | _ => destruct b eqn:?
      end
  | |- context [match ?o with Some _ => _ | None => _ end] =>
      lazymatch o with
      | context [if _ then _ else _] => fail
      | context [match _ with _ => _ end] => fail
      | _ => destruct o eqn:?
      end
  | |- context [let '(_, _) := get_point_from_position ?a ?b ?c in _] =>
      destruct (get_point_from_position a b c)
  end.

Ltac run :=
  exec; change (Qeq_bool PERIOD 0) with false; repeat (exec; try branch).

(** A caret with its attributes named, eight colour entries among them. *)
Ltac open_caret c H :=
  destruct c as [pos act vis bv cc ct ix il na mk cols verts];
  unfold drawable in H; cbn [colors fst] in H;
  do 8 (destruct cols as [|? cols]; [simpl in H; lia|]).

(** The state that a run has arrived at is in sync. *)
Ltac in_sync Hs :=
  unfold synced, drawable, selection;
  cbv beta iota delta [fst snd _mark _position colors];
  rewrite ?shown_snoc;
  (split; [simpl; lia | first [exact Hs | reflexivity]]).

Ltac keeps_sync Hs :=
  unfold lands; run; eexists _, _; (split; [reflexivity|]); in_sync Hs.

Section WithLayout.

Context {layout : Layout} {patterns : WordPatterns}.

(** X15. The keyboard handlers keep the selection that the layout shows
    in step with the caret: if the layout was last told to show the range
    between mark and position (or none, when there is no mark) before
    [on_text], [on_text_motion] or [on_text_motion_select], it is so
    afterwards, whatever the motion; and the handlers return. *)
Theorem keyboard_keeps_selection c h :
  synced (c, h) ->
  (forall text, lands (on_text text) (c, h) (fun _ w' => synced w'))
  /\ (forall motion select,
        lands (on_text_motion motion select) (c, h) (fun _ w' => synced w'))
  /\ (forall motion,
        lands (on_text_motion_select motion) (c, h) (fun _ w' => synced w')).
Proof.
  intros [Hok Hs]. open_caret c Hok.
  unfold selection in Hs. cbn [fst snd _mark _position] in Hs.
  split; [|split].
  - intros text. destruct mk as [m|]; keeps_sync Hs.
  - intros motion select.
    destruct motion; destruct mk as [m|]; destruct select; keeps_sync Hs.
  - intros motion. destruct motion; destruct mk as [m|]; keeps_sync Hs.
Qed.

(** X16. The mouse and window handlers keep the selection that the
    layout shows in step with the caret: if the layout was last told to
    show the range between mark and position (or none, when there is no
    mark) before [on_mouse_press], [on_mouse_drag], [on_activate] or
    [on_deactivate], it is so afterwards, whatever the click count and the
    times of the clicks; and the handlers return. *)
Theorem mouse_keeps_selection c h :
  synced (c, h) ->
  (forall t t' x y button modifiers,
     lands (on_mouse_press t t' x y button modifiers) (c, h)
           (fun _ w' => synced w'))
  /\ (forall x y dx dy buttons modifiers,
        lands (on_mouse_drag x y dx dy buttons modifiers) (c, h)
              (fun _ w' => synced w'))
  /\ lands on_activate (c, h) (fun _ w' => synced w')
  /\ lands on_deactivate (c, h) (fun _ w' => synced w').
Proof.
  intros [Hok Hs]. open_caret c Hok.
  unfold selection in Hs. cbn [fst snd _mark _position] in Hs.
  split; [|split; [|split]].
  - intros t t' x y button modifiers. destruct mk as [m|]; keeps_sync Hs.
  - intros x y dx dy buttons modifiers. destruct mk as [m|]; keeps_sync Hs.
  - destruct mk as [m|]; keeps_sync Hs.
  - destruct mk as [m|]; keeps_sync Hs.
Qed.

(** X17. The setters of [position], [mark] and [line] and the methods
    [move_to_point], [select_to_point], [select_word] and
    [select_paragraph] keep the selection that the layout shows in step
    with the caret: if the layout was last told to show the range between
    mark and position (or none, when there is no mark) before one of them,
    it is so afterwards; and they return. *)
Theorem methods_keep_selection c h :
  synced (c, h) ->
  (forall index, lands (_set_position index) (c, h) (fun _ w' => synced w'))
  /\ (forall mark, lands (_set_mark mark) (c, h) (fun _ w' => synced w'))
  /\ (forall line, lands (_set_line line) (c, h) (fun _ w' => synced w'))
  /\ (forall x y, lands (move_to_point x y) (c, h) (fun _ w' => synced w'))
  /\ (forall x y, lands (select_to_point x y) (c, h) (fun _ w' => synced w'))
  /\ (forall x y, lands (select_word x y) (c, h) (fun _ w' => synced w'))
  /\ (forall x y, lands (select_paragraph x y) (c, h) (fun _ w' => synced w')).
Proof.
  intros [Hok Hs]. open_caret c Hok.
  unfold selection in Hs. cbn [fst snd _mark _position] in Hs.
  split; [|split; [|split; [|split; [|split; [|split]]]]].
  - intros index. destruct mk as [m|]; keeps_sync Hs.
  - intros [mark|]; destruct mk as [m|]; keeps_sync Hs.
  - intros line. destruct mk as [m|]; keeps_sync Hs.
  - intros x y. destruct mk as [m|]; keeps_sync Hs.
  - intros x y. destruct mk as [m|]; keeps_sync Hs.
  - intros x y. destruct mk as [m|]; keeps_sync Hs.
  - intros x y. destruct mk as [m|]; keeps_sync Hs.
Qed.

(** The tests that a run has decided, rewritten in what is to be shown
    of its outcome, and the histories read. *)
Ltac settle :=
  cbv beta iota zeta delta
    [fst snd _position _active _visible _blink_visible _click_count
     _click_time _ideal_x _ideal_line _next_attributes _mark colors vertices
     alphas alpha_of is_some negb andb orb];
  repeat match goal with
         | H : ?b = true |- context [?b] => rewrite H
         | H : ?b = false |- context [?b] => rewrite H
         end;
  rewrite ?edits_snoc, ?shown_snoc, ?timers_snoc;
  cbv beta iota delta [is_edit];
  rewrite ?app_nil_r;
  cbv beta iota zeta delta [alphas alpha_of negb andb orb nth_error colors].

Ltac landed := unfold lands; run; eexists _, _; (split; [reflexivity|]); settle.

Lemma same_color_alpha {A : Type} (a b c d e f g k x y : A) rest :
  length (a :: b :: c :: x :: e :: f :: g :: y :: rest)
  = length (a :: b :: c :: d :: e :: f :: g :: k :: rest)
  /\ forall i, i <> 3%nat -> i <> 7%nat ->
       nth_error (a :: b :: c :: x :: e :: f :: g :: y :: rest) i
       = nth_error (a :: b :: c :: d :: e :: f :: g :: k :: rest) i.
Proof.
  split; [reflexivity|]. intros i H3 H7.
  do 8 (destruct i as [|i]; [reflexivity || congruence|]). reflexivity.
Qed.

(** X18. Assigning [visible] to a caret with its colour entries stops
    the blink timer and starts one, of period [PERIOD], only if the caret
    is to be visible and is active; then the caret is opaque at once,
    otherwise transparent. Only the two opacities among the colour entries
    change. [_nudge] is the case of [True]. *)
Theorem set_visible_shows v c h :
  drawable c ->
  lands (_set_visible v) (c, h) (fun _ w' =>
    snd w' = h ++ unschedule_blink
                 :: (if v && _active c then [schedule_interval_blink PERIOD]
                     else [])
    /\ timers (snd w') = (if v && _active c then [PERIOD] else [])
    /\ _visible (fst w') = v
    /\ _active (fst w') = _active c
    /\ alphas (fst w') = alpha_of (v && _active c)
    /\ same_color c (fst w')).
Proof.
  intros Hok. open_caret c Hok. unfold same_color.
  destruct v, act, bv; landed;
    (split; [now rewrite <- ?app_assoc|]); (split; [reflexivity|]);
    (split; [reflexivity|]); (split; [reflexivity|]);
    (split; [reflexivity|]); apply same_color_alpha.
Qed.

(** X19. [_blink] on a caret with its colour entries turns the blink
    flag over and writes the opacity of both vertices: opaque only if the
    caret is visible, active and the flag is now set. So two blinks in a
    row give the two opacities in turn, a caret that is hidden or not
    active stays transparent, and no call is made. *)
Theorem blink_alternates c h :
  drawable c ->
  lands _blink (c, h) (fun _ w1 =>
    snd w1 = h
    /\ _blink_visible (fst w1) = negb (_blink_visible c)
    /\ alphas (fst w1)
       = alpha_of (_visible c && _active c && negb (_blink_visible c))
    /\ same_color c (fst w1)
    /\ lands _blink w1 (fun _ w2 =>
         snd w2 = h
         /\ _blink_visible (fst w2) = _blink_visible c
         /\ alphas (fst w2)
            = alpha_of (_visible c && _active c && _blink_visible c)
         /\ same_color c (fst w2))).
Proof.
  intros Hok. open_caret c Hok. unfold same_color.
  destruct vis, act, bv; landed;
    (split; [reflexivity|]); (split; [reflexivity|]);
    (split; [reflexivity|]);
    (split; [apply same_color_alpha|]);
    landed;
    (split; [reflexivity|]); (split; [reflexivity|]);
    (split; [reflexivity|]); apply same_color_alpha.
Qed.

(** X20. [on_deactivate] leaves the caret transparent and without a
    blink timer; [on_activate] after it makes the caret opaque again and
    starts one timer exactly if the caret is visible. Neither changes
    [visible], the position, the mark, the text or the selection shown. *)
Theorem deactivate_hides c h :
  drawable c ->
  lands on_deactivate (c, h) (fun _ w1 =>
    _active (fst w1) = false
    /\ _visible (fst w1) = _visible c
    /\ alphas (fst w1) = alpha_of false
    /\ timers (snd w1) = []
    /\ lands on_activate w1 (fun _ w2 =>
         _active (fst w2) = true
         /\ _visible (fst w2) = _visible c
         /\ alphas (fst w2) = alpha_of (_visible c)
         /\ timers (snd w2) = (if _visible c then [PERIOD] else [])
         /\ _position (fst w2) = _position c
         /\ _mark (fst w2) = _mark c
         /\ edits (snd w2) = edits h
         /\ shown (snd w2) = shown h)).
Proof.
  intros Hok. open_caret c Hok.
  destruct vis, act, bv; landed;
    (split; [reflexivity|]); (split; [reflexivity|]);
    (split; [reflexivity|]); (split; [reflexivity|]);
    landed; repeat split; reflexivity.
Qed.

(** X21. BACKSPACE and DELETE without a selection remove the one
    character before or after the position, and nothing at all at
    position 0 (or below) and at the end of the text; BACKSPACE moves the
    position back by one, DELETE leaves it. With a selection both remove
    the selected range and put the position at its start. No other edit is
    made, and no mark is left. *)
Theorem backspace_delete c h select :
  drawable c ->
  let p := _position c in
  let n := Z.of_nat (length (document_text h)) in
  (_mark c = None ->
   lands (on_text_motion MOTION_BACKSPACE select) (c, h) (fun _ w' =>
     edits (snd w')
     = edits h ++ (if 0 <? p then [delete_text (p - 1) p] else [])
     /\ _position (fst w') = (if 0 <? p then p - 1 else p)
     /\ _mark (fst w') = None)
   /\ lands (on_text_motion MOTION_DELETE select) (c, h) (fun _ w' =>
     edits (snd w')
     = edits h ++ (if p <? n then [delete_text p (p + 1)] else [])
     /\ _position (fst w') = p
     /\ _mark (fst w') = None))
  /\ (forall m motion,
        _mark c = Some m ->
        motion = MOTION_BACKSPACE \/ motion = MOTION_DELETE ->
        lands (on_text_motion motion select) (c, h) (fun _ w' =>
          edits (snd w') = edits h ++ [delete_text (Z.min m p) (Z.max m p)]
          /\ _position (fst w') = Z.min p m
          /\ _mark (fst w') = None)).
Proof.
  intros Hok. open_caret c Hok. cbn [_position _mark]. split.
  - intros ->. split; destruct select; landed; repeat split; reflexivity.
  - intros m motion -> [-> | ->]; destruct select; landed;
      repeat split; reflexivity.
Qed.

(** X22. [on_text_motion_select] with BACKSPACE or DELETE and no
    selection removes no character: it first makes the position the mark,
    so what is deleted is the empty range from the position to itself. *)
Theorem select_backspace_deletes_nothing c h motion :
  drawable c -> _mark c = None ->
  motion = MOTION_BACKSPACE \/ motion = MOTION_DELETE ->
  lands (on_text_motion_select motion) (c, h) (fun _ w' =>
    edits (snd w') = edits h ++ [delete_text (_position c) (_position c)]
    /\ _position (fst w') = _position c
    /\ _mark (fst w') = None).
Proof.
  intros Hok Hmark Hmotion. open_caret c Hok. cbn [_position _mark] in *.
  subst mk. destruct Hmotion as [-> | ->]; landed;
    rewrite ?Z.min_id, ?Z.max_id; repeat split; reflexivity.
Qed.

(** X23. After [on_text_motion] without [select] there is no mark,
    whatever the motion. After [on_text_motion_select] with a motion that
    does not delete, the mark is where it was, or at the position that the
    caret had if there was none. *)
Theorem motion_mark c h motion :
  drawable c ->
  lands (on_text_motion motion false) (c, h)
        (fun _ w' => _mark (fst w') = None)
  /\ (motion <> MOTION_BACKSPACE -> motion <> MOTION_DELETE ->
      lands (on_text_motion_select motion) (c, h) (fun _ w' =>
        _mark (fst w') = Some (match _mark c with
                               | Some m => m
                               | None => _position c
                               end))).
Proof.
  intros Hok. open_caret c Hok. cbn [_position _mark]. split.
  - destruct motion; destruct mk as [m|]; landed; reflexivity.
  - intros Hb Hd.
    destruct motion; try congruence; destruct mk as [m|]; landed; reflexivity.
Qed.

(** X24. Typing keeps the attributes that wait for the next text, so
    that they go to every insertion until the caret is moved; any
    [on_text_motion], [on_mouse_drag] and [move_to_point] clear them, also
    when the position stays where it is. *)
Theorem pending_attributes c h :
  drawable c ->
  (forall text,
     lands (on_text text) (c, h)
           (fun _ w' => _next_attributes (fst w') = _next_attributes c))
  /\ (forall motion select,
        lands (on_text_motion motion select) (c, h)
              (fun _ w' => _next_attributes (fst w') = []))
  /\ (forall x y dx dy buttons modifiers,
        lands (on_mouse_drag x y dx dy buttons modifiers) (c, h)
              (fun _ w' => _next_attributes (fst w') = []))
  /\ (forall x y,
        lands (move_to_point x y) (c, h)
              (fun _ w' => _next_attributes (fst w') = [])).
Proof.
  intros Hok. open_caret c Hok. cbn [_next_attributes].
  split; [|split; [|split]].
  - intros text. destruct mk as [m|]; landed; reflexivity.
  - intros motion select.
    destruct motion; destruct mk as [m|]; destruct select; landed; reflexivity.
  - intros x y dx dy buttons modifiers. destruct mk as [m|]; landed; reflexivity.
  - intros x y. destruct mk as [m|]; landed; reflexivity.
Qed.

(** X25. BEGINNING_OF_FILE puts the position at 0 and END_OF_FILE at
    the length of the text; NEXT_PAGE and PREVIOUS_PAGE leave the position
    where it is. None of them edits the text. *)
Theorem file_motions c h select :
  drawable c ->
  let h1 := if is_some (_mark c) && negb select
            then h ++ [set_selection 0 0] else h in
  lands (on_text_motion MOTION_BEGINNING_OF_FILE select) (c, h) (fun _ w' =>
    _position (fst w') = 0 /\ edits (snd w') = edits h)
  /\ lands (on_text_motion MOTION_END_OF_FILE select) (c, h) (fun _ w' =>
    _position (fst w') = Z.of_nat (length (document_text h1))
    /\ edits (snd w') = edits h)
  /\ (forall motion,
        motion = MOTION_NEXT_PAGE \/ motion = MOTION_PREVIOUS_PAGE ->
        lands (on_text_motion motion select) (c, h) (fun _ w' =>
          _position (fst w') = _position c /\ edits (snd w') = edits h)).
Proof.
  intros Hok. open_caret c Hok. cbn [_position _mark].
  split; [|split].
  - destruct mk as [m|]; destruct select; landed; split; reflexivity.
  - destruct mk as [m|]; destruct select; landed; split; reflexivity.
  - intros motion [-> | ->]; destruct mk as [m|]; destruct select; landed;
      split; reflexivity.
Qed.

(** X26. UP and DOWN keep the column of the caret: the position on the
    new line is looked up at the x that was remembered, or at that of the
    position if none was, and that x stays remembered together with the
    new line. UP on line 0 stays on line 0; DOWN on the last line changes
    nothing of the three. *)
Theorem vertical_motion c h select :
  drawable c ->
  let h1 := if is_some (_mark c) && negb select
            then h ++ [set_selection 0 0] else h in
  let line := match _ideal_line c with
              | Some l => l
              | None => get_line_from_position h1 (_position c)
              end in
  let x := match _ideal_x c with
           | Some x => x
           | None => fst (get_point_from_position h1 (_position c) None)
           end in
  lands (on_text_motion MOTION_UP select) (c, h) (fun _ w' =>
    _position (fst w') = get_position_on_line h1 (Z.max 0 (line - 1)) x
    /\ _ideal_x (fst w') = Some x
    /\ _ideal_line (fst w') = Some (Z.max 0 (line - 1)))
  /\ lands (on_text_motion MOTION_DOWN select) (c, h) (fun _ w' =>
    if line <? get_line_count h1 - 1
    then _position (fst w') = get_position_on_line h1 (line + 1) x
         /\ _ideal_x (fst w') = Some x
         /\ _ideal_line (fst w') = Some (line + 1)
    else _position (fst w') = _position c
         /\ _ideal_x (fst w') = _ideal_x c
         /\ _ideal_line (fst w') = _ideal_line c).
Proof.
  intros Hok. open_caret c Hok. cbn [_position _mark _ideal_x _ideal_line].
  split; destruct mk as [m|]; destruct select; destruct il as [l|];
    destruct ix as [x0|]; landed; repeat split; reflexivity.
Qed.

End WithLayout.

(** *** The caret just made, on a layout of one line *)

Lemma made_synced : synced (fst made, snd made).
Proof. split; [vm_compute; lia | vm_compute; reflexivity]. Qed.

Lemma made_drawable : drawable (fst made).
Proof. vm_compute. lia. Qed.

Lemma keyboard_keeps_selection_witness :
  synced (fst made, snd made)
  /\ lands (@on_text_motion one_line no_words MOTION_LEFT true)
           (fst made, snd made) (fun _ w' => synced w').
Proof.
  split; [exact made_synced|].
  exact (proj1 (proj2 (@keyboard_keeps_selection one_line no_words
                         (fst made) (snd made) made_synced))
           MOTION_LEFT true).
Defined.

Lemma mouse_keeps_selection_witness :
  synced (fst made, snd made)
  /\ lands (@on_mouse_drag one_line 30 0 1 0 1 0)
           (fst made, snd made) (fun _ w' => synced w').
Proof.
  split; [exact made_synced|].
  exact (proj1 (proj2 (@mouse_keeps_selection one_line no_words
                         (fst made) (snd made) made_synced))
           30 0 1 0 1 0).
Defined.

Lemma methods_keep_selection_witness :
  synced (fst made, snd made)
  /\ lands (@_set_mark one_line (Some 0))
           (fst made, snd made) (fun _ w' => synced w').
Proof.
  split; [exact made_synced|].
  exact (proj1 (proj2 (@methods_keep_selection one_line no_words
                         (fst made) (snd made) made_synced))
           (Some 0)).
Defined.

Lemma set_visible_shows_witness :
  drawable (fst made)
  /\ lands (_set_visible false) (fst made, snd made) (fun _ w' =>
       snd w' = snd made
                  ++ unschedule_blink
                       :: (if false && _active (fst made)
                           then [schedule_interval_blink PERIOD] else [])
       /\ timers (snd w')
          = (if false && _active (fst made) then [PERIOD] else [])
       /\ _visible (fst w') = false
       /\ _active (fst w') = _active (fst made)
       /\ alphas (fst w') = alpha_of (false && _active (fst made))
       /\ same_color (fst made) (fst w')).
Proof.
  split; [exact made_drawable|].
  exact (set_visible_shows false (fst made) (snd made) made_drawable).
Defined.

Lemma blink_alternates_witness :
  drawable (fst made)
  /\ lands _blink (fst made, snd made) (fun _ w1 =>
       snd w1 = snd made
       /\ _blink_visible (fst w1) = negb (_blink_visible (fst made))
       /\ alphas (fst w1)
          = alpha_of (_visible (fst made) && _active (fst made)
                      && negb (_blink_visible (fst made)))
       /\ same_color (fst made) (fst w1)
       /\ lands _blink w1 (fun _ w2 =>
            snd w2 = snd made
            /\ _blink_visible (fst w2) = _blink_visible (fst made)
            /\ alphas (fst w2)
               = alpha_of (_visible (fst made) && _active (fst made)
                           && _blink_visible (fst made))
            /\ same_color (fst made) (fst w2))).
Proof.
  split; [exact made_drawable|].
  exact (blink_alternates (fst made) (snd made) made_drawable).
Defined.

Lemma deactivate_hides_witness :
  drawable (fst made)
  /\ lands on_deactivate (fst made, snd made) (fun _ w1 =>
       _active (fst w1) = false
       /\ _visible (fst w1) = _visible (fst made)
       /\ alphas (fst w1) = alpha_of false
       /\ timers (snd w1) = []
       /\ lands on_activate w1 (fun _ w2 =>
            _active (fst w2) = true
            /\ _visible (fst w2) = _visible (fst made)
            /\ alphas (fst w2) = alpha_of (_visible (fst made))
            /\ timers (snd w2)
               = (if _visible (fst made) then [PERIOD] else [])
            /\ _position (fst w2) = _position (fst made)
            /\ _mark (fst w2) = _mark (fst made)
            /\ edits (snd w2) = edits (snd made)
            /\ shown (snd w2) = shown (snd made))).
Proof.
  split; [exact made_drawable|].
  exact (deactivate_hides (fst made) (snd made) made_drawable).
Defined.

Lemma typed_drawable : drawable (fst typed).
Proof. vm_compute. lia. Qed.

Lemma backspace_delete_witness :
  drawable (fst typed)
  /\ lands (@on_text_motion one_line no_words MOTION_BACKSPACE false)
           (fst typed, snd typed) (fun _ w' =>
       edits (snd w')
       = edits (snd typed)
           ++ (if 0 <? _position (fst typed)
               then [delete_text (_position (fst typed) - 1)
                                 (_position (fst typed))]
               else [])
       /\ _position (fst w')
          = (if 0 <? _position (fst typed)
             then _position (fst typed) - 1 else _position (fst typed))
       /\ _mark (fst w') = None).
Proof.
  split; [exact typed_drawable|].
  exact (proj1 (proj1 (@backspace_delete one_line no_words
                         (fst typed) (snd typed) false typed_drawable)
                  eq_refl)).
Defined.

(** BACKSPACE after "hi" and a newline were typed leaves "hi"; a second
    caret at position 0 deletes nothing. *)
Example backspace_on_typed :
  @document_text one_line
    (snd (snd (@on_text_motion one_line no_words MOTION_BACKSPACE false typed)))
  = [104; 105]%N
  /\ edits (snd (snd (@on_text_motion one_line no_words MOTION_BACKSPACE false
                        made)))
     = [].
Proof. split; vm_compute; reflexivity. Qed.

Lemma select_backspace_deletes_nothing_witness :
  drawable (fst typed)
  /\ lands (@on_text_motion_select one_line no_words MOTION_BACKSPACE)
           (fst typed, snd typed) (fun _ w' =>
       edits (snd w')
       = edits (snd typed)
           ++ [delete_text (_position (fst typed)) (_position (fst typed))]
       /\ _position (fst w') = _position (fst typed)
       /\ _mark (fst w') = None).
Proof.
  split; [exact typed_drawable|].
  exact (@select_backspace_deletes_nothing one_line no_words
           (fst typed) (snd typed) MOTION_BACKSPACE typed_drawable eq_refl
           (or_introl eq_refl)).
Defined.

Lemma motion_mark_witness :
  drawable (fst typed)
  /\ lands (@on_text_motion one_line no_words MOTION_LEFT false)
           (fst typed, snd typed) (fun _ w' => _mark (fst w') = None).
Proof.
  split; [exact typed_drawable|].
  exact (proj1 (@motion_mark one_line no_words (fst typed) (snd typed)
                  MOTION_LEFT typed_drawable)).
Defined.

(** Shift and LEFT twice after "hi" and a newline select the last two
    characters; LEFT without shift then drops the mark. *)
Example select_left_twice :
  let w1 := snd (@on_text_motion_select one_line no_words MOTION_LEFT typed) in
  let w2 := snd (@on_text_motion_select one_line no_words MOTION_LEFT w1) in
  let w3 := snd (@on_text_motion one_line no_words MOTION_LEFT false w2) in
  _mark (fst w2) = Some 3 /\ _position (fst w2) = 1 /\ shown (snd w2) = (1, 3)
  /\ _mark (fst w3) = None /\ _position (fst w3) = 0 /\ shown (snd w3) = (0, 0).
Proof. vm_compute. repeat split; reflexivity. Qed.

Lemma pending_attributes_witness :
  drawable (fst made)
  /\ lands (@on_text one_line [104]%N) (fst made, snd made)
           (fun _ w' => _next_attributes (fst w') = _next_attributes (fst made)).
Proof.
  split; [exact made_drawable|].
  exact (proj1 (@pending_attributes one_line no_words (fst made) (snd made)
                  made_drawable) [104]%N).
Defined.

Lemma file_motions_witness :
  drawable (fst typed)
  /\ lands (@on_text_motion one_line no_words MOTION_BEGINNING_OF_FILE false)
           (fst typed, snd typed)
           (fun _ w' => _position (fst w') = 0
                        /\ edits (snd w') = edits (snd typed)).
Proof.
  split; [exact typed_drawable|].
  exact (proj1 (@file_motions one_line no_words (fst typed) (snd typed) false
                  typed_drawable)).
Defined.

Lemma vertical_motion_witness :
  drawable (fst typed)
  /\ (let h1 := if is_some (_mark (fst typed)) && negb false
                then snd typed ++ [set_selection 0 0] else snd typed in
      let line := match _ideal_line (fst typed) with
                  | Some l => l
                  | None => @get_line_from_position one_line h1
                              (_position (fst typed))
                  end in
      let x := match _ideal_x (fst typed) with
               | Some x => x
               | None => fst (@get_point_from_position one_line h1
                                (_position (fst typed)) None)
               end in
      lands (@on_text_motion one_line no_words MOTION_UP false)
            (fst typed, snd typed) (fun _ w' =>
        _position (fst w')
        = @get_position_on_line one_line h1 (Z.max 0 (line - 1)) x
        /\ _ideal_x (fst w') = Some x
        /\ _ideal_line (fst w') = Some (Z.max 0 (line - 1)))).
Proof.
  split; [exact typed_drawable|].
  exact (proj1 (@vertical_motion one_line no_words (fst typed) (snd typed)
                  false typed_drawable)).
Defined.

End CaretMore.
